(** * DVID label-mapping and spatial-index core: a shallow embedding

    The development follows three source files of the repository:

    - [datatype/labelmap/equiv.go]: the packed per-supervoxel version map
      ([vmap]) and the version-aware supervoxel map ([SVMap]);
    - the denormalisation code (package [labels64]): run-length encoding of
      sparse volumes, the sparse-volume response and the size index;
    - [datatype/tarsupervoxels/tarsupervoxels.go]: tar assembly and tar
      ingestion of per-supervoxel blobs.

    Bytes are [Byte.byte]; fixed-width integers are [Z] with the wrap-around
    written out; Go maps are [gmap]s; a Go function that can panic or return
    an error returns a [result]. *)

From Stdlib Require Import ZArith List Lia Bool DecimalString Ascii String.
From coqutil Require Import Byte Word.LittleEndianList.
From stdpp Require Import gmap strings list fin_maps sorting.
Import ListNotations.

Local Open Scope Z_scope.

(** ** Outcomes of a Go call *)

(** The Go errors the modelled functions create or pass on. *)
Inductive error : Type :=
| ErrVersionLimit      (* "can only have 256 active versions ..." *)
| ErrAncestry          (* error passed on from datastore.GetAncestry *)
| ErrNilStarts         (* "Cannot encode run with nil slice of start points" *)
| ErrNilLengths        (* "Cannot encode run with nil slice of lengths" *)
| ErrRunsMismatch      (* "Cannot encode runs with %d start points and %d lengths" *)
| ErrMalformedRLE      (* "RLE encoding doesn't have correct # bytes" *)
| ErrUnexpectedEOF     (* io.ErrUnexpectedEOF / io.EOF out of binary.Read *)
| ErrBackend           (* error passed on from the key-value store *)
| ErrBadTKey           (* error out of NewTKey *)
| ErrNotSynced         (* "data %q is not synced with any labelmap instance" *)
| ErrNoSupervoxels     (* "label %d has no supervoxels" *)
| ErrBadName           (* "file %d name is invalid, expect supervoxel+ext" *)
| ErrBadExtension      (* "file %d name has bad extension" *)
| ErrSupervoxelZero.   (* "supervoxel 0 is reserved ..." *)

(** A call returns normally ([Ok]) or panics at run time (an index or a slice
    expression out of range). Go's [error] results are ordinary return values
    and live inside [Ok]. *)
Inductive result (A : Type) : Type :=
| Ok (a : A)
| Panic.
Arguments Ok {A} a.
Arguments Panic {A}.

#[global] Instance result_ret : MRet result := fun A a => Ok a.
#[global] Instance result_bind : MBind result := fun A B k r =>
  match r with
  | Ok a => k a
  | Panic => Panic
  end.

(** ** Fixed-width integers and byte order *)

Definition wrap8 (z : Z) : Z := z mod 2 ^ 8.
Definition wrap32 (z : Z) : Z := z mod 2 ^ 32.
Definition wrap64 (z : Z) : Z := z mod 2 ^ 64.

(** Two's complement reading of a 32-bit pattern: Go's [int32]. *)
Definition int32 (z : Z) : Z := (z + 2 ^ 31) mod 2 ^ 32 - 2 ^ 31.

Definition is_uint8 (z : Z) : Prop := 0 <= z < 2 ^ 8.
Definition is_uint64 (z : Z) : Prop := 0 <= z < 2 ^ 64.
Definition is_int32 (z : Z) : Prop := - 2 ^ 31 <= z < 2 ^ 31.

#[global] Instance byte_eq_dec : EqDecision byte.
Proof.
  intros a b. destruct (Byte.eqb a b) eqn:E.
  - left. apply Byte.byte_dec_bl, E.
  - right. intros ->. rewrite (Byte.byte_dec_lb eq_refl) in E. discriminate.
Defined.

Module LittleEndian.
(** [binary.LittleEndian.Uint64(b)], [Uint32], and the matching [Put]s, on
    a slice that is long enough; the bounds checks are at the call sites. *)
Definition Uint64 (b : list byte) : Z := le_combine (take 8 b).
Definition PutUint64 (v : Z) : list byte := le_split 8 v.
Definition Uint32 (b : list byte) : Z := le_combine (take 4 b).
Definition PutUint32 (v : Z) : list byte := le_split 4 v.
End LittleEndian.

Arguments LittleEndian.PutUint64 : simpl never.
Arguments LittleEndian.Uint64 : simpl never.
Arguments LittleEndian.PutUint32 : simpl never.
Arguments LittleEndian.Uint32 : simpl never.

Module BigEndian.
Definition Uint64 (b : list byte) : Z := le_combine (rev (take 8 b)).
Definition PutUint64 (v : Z) : list byte := rev (le_split 8 v).
End BigEndian.

(** ** The packed version map of one supervoxel ([equiv.go], [vmap]) *)

Module Vmap.

(** [type vmap []byte]: records of 9 bytes, an 8-bit version id followed by
    the little-endian uint64 label. This is the contents of the slice; the
    backing arrays and their allocation are in [Mem] below. *)
Abbreviation vmap := (list byte) (only parsing).

(** The loop header that [value] and [modify] share,
    [for pos := 0; pos < len(vm); pos += 9 { if uint8(vm[pos]) == vid { ... return } }]:
    the position at which the body returns, [None] when the loop runs to its
    end. The loop makes at most [len(vm)] rounds, which is the fuel the
    callers pass. *)
Fixpoint scan (fuel : nat) (vm : vmap) (vid : Z) (pos : nat) : option nat :=
  match fuel with
  | O => None
  | S fuel' =>
      match vm !! pos with
      | None => None                               (* pos >= len(vm) *)
      | Some entryvid =>
          if byte.unsigned entryvid =? vid then Some pos
          else scan fuel' vm vid (pos + 9)
      end
  end.

(** The slice expression [vm[lo:hi]] of a slice whose capacity is its
    length (every vmap comes out of [make]). *)
Definition slice (vm : list byte) (lo hi : nat) : result (list byte) :=
  if ((lo <=? hi) && (hi <=? length vm))%nat
  then Ok (take (hi - lo) (drop lo vm))
  else Panic.

(** The [for _, vid := range ancestry] loop of [value]. *)
Fixpoint value_range (vm : vmap) (ancestry : list Z) : result (Z * bool) :=
  match ancestry with
  | [] => Ok (0, false)
  | vid :: ancestry' =>
      match scan (length vm) vm vid 0 with
      | Some pos =>
          b ← slice vm (pos + 1) (pos + 9);
          Ok (LittleEndian.Uint64 b, true)
      | None => value_range vm ancestry'
      end
  end.

(** [func (vm vmap) value(ancestry []uint8) (label uint64, present bool)] *)
Definition value (vm : vmap) (ancestry : list Z) : result (Z * bool) :=
  let sz := length vm in
  if (sz =? 0)%nat then Ok (0, false)
  else value_range vm ancestry.

(** [func (vm vmap) modify(vid uint8, toLabel uint64) (out vmap, changed bool)],
    as the contents of the slice it returns. [copy(out, vm)] followed by
    [PutUint64(out[pos+1:pos+9], toLabel)] leaves [vm[:pos+1]] and
    [vm[pos+9:]] in place around the eight new bytes. *)
Definition modify (vm : vmap) (vid : Z) (toLabel : Z) : result (vmap * bool) :=
  if (length vm =? 0)%nat then
    Ok (byte.of_Z vid :: LittleEndian.PutUint64 toLabel, true)
  else
    match scan (length vm) vm vid 0 with
    | Some pos =>
        if (pos + 9 <=? length vm)%nat
        then Ok (take (pos + 1) vm ++ LittleEndian.PutUint64 toLabel
                   ++ drop (pos + 9) vm, true)
        else Panic
    | None =>
        Ok (vm ++ byte.of_Z vid :: LittleEndian.PutUint64 toLabel, true)
    end.

(** The records of a packed vmap, nine bytes at a time: version id and the
    eight label bytes. Trailing bytes that do not fill a record are left
    out. *)
Fixpoint entries (vm : vmap) : list (byte * list byte) :=
  match vm with
  | e :: b1 :: b2 :: b3 :: b4 :: b5 :: b6 :: b7 :: b8 :: rest =>
      (e, [b1; b2; b3; b4; b5; b6; b7; b8]) :: entries rest
  | _ => []
  end.

Definition record_bytes (r : byte * list byte) : list byte := r.1 :: r.2.

Definition vids (vm : vmap) : list Z := map (fun r => byte.unsigned r.1) (entries vm).

Definition label_of (r : byte * list byte) : Z := LittleEndian.Uint64 r.2.

(** The records of [vm] whose version id is [vid], and those whose version
    id is not. *)
Definition records_for (vid : Z) (vm : vmap) : list (byte * list byte) :=
  filter (fun r => byte.unsigned r.1 = vid) (entries vm).
Definition records_but (vid : Z) (vm : vmap) : list (byte * list byte) :=
  filter (fun r => byte.unsigned r.1 <> vid) (entries vm).

(** The packed bytes of a list of records. *)
Definition pack (es : list (byte * list byte)) : vmap :=
  concat (map record_bytes es).

(** Index of the first record for [vid]. *)
Fixpoint index_of (vid : Z) (es : list (byte * list byte)) : option nat :=
  match es with
  | [] => None
  | r :: es' =>
      if byte.unsigned r.1 =? vid then Some O else S <$> index_of vid es'
  end.

(** [modify] seen on records: overwrite the label of the first record for
    [vid], or append a record. *)
Fixpoint upsert (vid toLabel : Z) (es : list (byte * list byte))
  : list (byte * list byte) :=
  match es with
  | [] => [(byte.of_Z vid, LittleEndian.PutUint64 toLabel)]
  | r :: es' =>
      if byte.unsigned r.1 =? vid
      then (r.1, LittleEndian.PutUint64 toLabel) :: es'
      else r :: upsert vid toLabel es'
  end.

Definition vid_of (r : byte * list byte) : Z := byte.unsigned r.1.
Definition len8 (r : byte * list byte) : Prop := length r.2 = 8%nat.

(** The data-model invariant of a vmap: whole records, one per version id. *)
Definition packed (vm : vmap) : Prop := (length vm mod 9 = 0)%nat.
Definition wf (vm : vmap) : Prop := packed vm /\ NoDup (vids vm).

End Vmap.

(** ** Backing arrays: what [make] and [copy] do to memory *)

Module Mem.

Abbreviation loc := nat (only parsing).

(** The arrays allocated so far. *)
Abbreviation heap := (gmap nat (list byte)) (only parsing).

(** A slice value: [nil], or the whole of one array ([len = cap]), which
    is what [make([]byte, n)] returns. *)
Inductive slice : Type :=
| Nil
| Ref (l : loc).

Definition load (h : heap) (s : slice) : list byte :=
  match s with
  | Nil => []
  | Ref l => default [] (h !! l)
  end.

(** A slice value refers to an array that exists. *)
Definition valid (h : heap) (s : slice) : Prop :=
  match s with
  | Nil => True
  | Ref l => is_Some (h !! l)
  end.

(** [make([]byte, n)]: a new array of [n] zero bytes, at a location no
    array occupies. *)
Definition make (h : heap) (n : nat) : heap * slice :=
  let l := fresh (dom h) in
  (<[l := replicate n Byte.x00]> h, Ref l).

(** [copy(dst, src)]: the first [min(len(dst), len(src))] bytes. *)
Definition copy (h : heap) (dst src : slice) : heap :=
  match dst with
  | Nil => h
  | Ref l =>
      let d := load h dst in
      let s := load h src in
      let n := Nat.min (length d) (length s) in
      <[l := take n s ++ drop n d]> h
  end.

(** [s[i] = b] *)
Definition store (h : heap) (s : slice) (i : nat) (b : byte) : result heap :=
  match s with
  | Nil => Panic
  | Ref l =>
      let d := load h s in
      if (i <? length d)%nat then Ok (<[l := <[i := b]> d]> h) else Panic
  end.

(** [binary.LittleEndian.PutUint64(s[lo:hi], v)]: the slice expression
    panics out of range, and [PutUint64] panics on fewer than 8 bytes. *)
Definition PutUint64 (h : heap) (s : slice) (lo hi : nat) (v : Z) : result heap :=
  match s with
  | Nil => Panic
  | Ref l =>
      let d := load h s in
      if ((lo + 8 <=? hi) && (hi <=? length d))%nat
      then Ok (<[l := take lo d ++ LittleEndian.PutUint64 v ++ drop (lo + 8) d]> h)
      else Panic
  end.

(** [vmap.modify] with its allocations: the heap after the call, the slice
    returned and [changed]. *)
Definition modify (h : heap) (vm : slice) (vid : Z) (toLabel : Z)
  : result (heap * slice * bool) :=
  let bytes := load h vm in
  if (length bytes =? 0)%nat then
    let '(h1, out) := make h 9 in
    h2 ← store h1 out 0 (byte.of_Z vid);
    h3 ← PutUint64 h2 out 1 9 toLabel;
    Ok (h3, out, true)
  else
    match Vmap.scan (length bytes) bytes vid 0 with
    | Some pos =>
        let '(h1, out) := make h (length bytes) in
        let h2 := copy h1 out vm in
        h3 ← PutUint64 h2 out (pos + 1) (pos + 9) toLabel;
        Ok (h3, out, true)
    | None =>
        let pos := length bytes in
        let '(h1, out) := make h (pos + 9) in
        let h2 := copy h1 out vm in
        h3 ← store h2 out pos (byte.of_Z vid);
        h4 ← PutUint64 h3 out (pos + 1) (pos + 9) toLabel;
        Ok (h4, out, true)
    end.

End Mem.

(** ** The version-aware supervoxel map ([equiv.go], [SVMap]) *)

Module SVMap.

(** [dvid.VersionID] is a 32-bit id, a supervoxel or a label a [uint64]
    and a short version id a [uint8]: all are [Z] here. *)
Record t : Type := mk {
  fm : gmap Z (list byte);          (* map[uint64]vmap *)
  versions : gmap Z Z;              (* map[dvid.VersionID]uint8 *)
  versionsRev : gmap Z Z;           (* map[uint8]dvid.VersionID *)
  ancestry : gmap Z (list Z);       (* map[dvid.VersionID][]uint8, nil map = empty *)
  numVersions : Z                   (* uint8 *)
}.

(** The SVMap that [getMapping] creates: [new(SVMap)] with its maps made. *)
Definition empty : t := mk ∅ ∅ ∅ ∅ 0.

Definition set_fm (svm : t) (m : gmap Z (list byte)) : t :=
  mk m (versions svm) (versionsRev svm) (ancestry svm) (numVersions svm).
Definition set_ancestry (svm : t) (a : gmap Z (list Z)) : t :=
  mk (fm svm) (versions svm) (versionsRev svm) a (numVersions svm).

(** [func (svm *SVMap) createShortVersion(v dvid.VersionID) (uint8, error)];
    [svm.numVersions++] is on a [uint8]. *)
Definition createShortVersion (svm : t) (v : Z) : t * Z * option error :=
  match versions svm !! v with
  | Some vid => (svm, vid, None)
  | None =>
      if numVersions svm =? 255 then (svm, 0, Some ErrVersionLimit)
      else
        let vid := numVersions svm in
        (mk (fm svm) (<[v := vid]> (versions svm)) (<[vid := v]> (versionsRev svm))
            (ancestry svm) (wrap8 (numVersions svm + 1)),
         vid, None)
  end.

(** [func (svm *SVMap) MapSupervoxel(v dvid.VersionID, supervoxel, label uint64) error];
    [svm.fm[supervoxel]] of an absent key is the nil vmap. *)
Definition MapSupervoxel (svm : t) (v supervoxel label : Z)
  : result (t * option error) :=
  let '(svm1, vid, err) := createShortVersion svm v in
  match err with
  | Some e => Ok (svm1, Some e)
  | None =>
      let vm := default [] (fm svm1 !! supervoxel) in
      r ← Vmap.modify vm vid label;
      let '(newvm, changed) := r in
      if changed : bool
      then Ok (set_fm svm1 (<[supervoxel := newvm]> (fm svm1)), None)
      else Ok (svm1, None)
  end.

Section WithDAG.

(** [datastore.GetAncestry(v)]: the versions from [v] to the root of the
    DAG, or an error ([None]). The DAG is kept outside this package. *)
Variable GetAncestry : Z -> option (list Z).

(** The short ids of [ancestry] preceded by the one of [v], where [v]
    has one: the tail of [getAncestry]. *)
Definition withCurrent (svm : t) (v : Z) (anc : list Z) : list Z :=
  match versions svm !! v with
  | Some vid => vid :: anc
  | None => anc
  end.

(** [func (svm *SVMap) getAncestry(v dvid.VersionID) ([]uint8, error)];
    the second component is [None] for the error return. [ancestors[1:]]
    panics on an empty slice. *)
Definition getAncestry (svm : t) (v : Z) : result (t * option (list Z)) :=
  match ancestry svm !! v with
  | Some anc => Ok (svm, Some (withCurrent svm v anc))
  | None =>
      match GetAncestry v with
      | None => Ok (svm, None)
      | Some [] => Panic
      | Some (_ :: ancestors) =>
          let anc := omap (fun ancestor => versions svm !! ancestor) ancestors in
          let svm' := set_ancestry svm (<[v := anc]> (ancestry svm)) in
          Ok (svm', Some (withCurrent svm' v anc))
      end
  end.

(** [func (svm *SVMap) mapLabel(label uint64, ancestry []uint8) (uint64, bool)] *)
Definition mapLabel (svm : t) (label : Z) (anc : list Z) : result (Z * bool) :=
  match fm svm !! label with
  | None => Ok (label, false)
  | Some vm => Vmap.value vm anc
  end.

(** [func (svm *SVMap) MappedLabel(v dvid.VersionID, label uint64) (uint64, bool)];
    the receiver may be nil, and the call may fill the ancestry cache. *)
Definition MappedLabel (svm : option t) (v label : Z)
  : result (option t * (Z * bool)) :=
  match svm with
  | None => Ok (None, (label, false))
  | Some m =>
      if (size (fm m) =? 0)%nat then Ok (Some m, (label, false))
      else
        match fm m !! label with
        | None => Ok (Some m, (label, false))
        | Some vm =>
            r ← getAncestry m v;
            match r with
            | (m', None) => Ok (Some m', (label, false))
            | (m', Some anc) =>
                lp ← Vmap.value vm anc;
                Ok (Some m', lp)
            end
        end
  end.

End WithDAG.

(** Resolution along an ancestry, on records: the label of the record of
    the first short id of [anc] that has a record in [es]. *)
Fixpoint resolve (es : list (byte * list byte)) (anc : list Z) : option Z :=
  match anc with
  | [] => None
  | vid :: anc' =>
      match Vmap.index_of vid es with
      | Some k => Vmap.label_of <$> es !! k
      | None => resolve es anc'
      end
  end.

(** What holds of every SVMap built from [empty] by [MapSupervoxel]:
    vmaps are whole records, the short ids handed out are the numbers
    below [numVersions], one per version, and the reverse table inverts the
    forward one. *)
Record inv (svm : t) : Prop := {
  inv_packed : forall s vm, fm svm !! s = Some vm -> Vmap.packed vm;
  inv_count : 0 <= numVersions svm <= 255;
  inv_size : size (versions svm) = Z.to_nat (numVersions svm);
  inv_ids : forall v vid, versions svm !! v = Some vid -> 0 <= vid < numVersions svm;
  inv_rev : forall v vid, versions svm !! v = Some vid <-> versionsRev svm !! vid = Some v
}.

(** [MapSupervoxel(v, supervoxel, label)] for each version of [vs] in
    turn; the errors returned are collected. *)
Fixpoint map_in_versions (svm : t) (vs : list Z) (supervoxel label : Z)
  : result (t * list (option error)) :=
  match vs with
  | [] => Ok (svm, [])
  | v :: vs' =>
      r ← MapSupervoxel svm v supervoxel label;
      r' ← map_in_versions r.1 vs' supervoxel label;
      Ok (r'.1, r.2 :: r'.2)
  end.

End SVMap.

(** ** Run-length encoding of sparse volumes (package [labels64]) *)

Module RLE.

(** [dvid.Point3d], three [int32] coordinates. *)
Record Point3d : Type := point { px : Z; py : Z; pz : Z }.

(** [binary.Write(buf, binary.LittleEndian, x)] for an [int32]: four bytes,
    two's complement. *)
Definition writeInt32 (x : Z) : list byte := LittleEndian.PutUint32 x.

(** The 16 bytes of one run. *)
Definition run_bytes (start : Point3d) (len : Z) : list byte :=
  writeInt32 (px start) ++ writeInt32 (py start) ++ writeInt32 (pz start)
    ++ writeInt32 len.

(** [for i, start := range starts { ...; binary.Write(..., lengths[i]) }] *)
Fixpoint encode_range (starts : list Point3d) (lengths : list Z) (i : nat)
  : result (list byte) :=
  match starts with
  | [] => Ok []
  | start :: starts' =>
      match lengths !! i with
      | None => Panic                                (* lengths[i] out of range *)
      | Some len =>
          rest ← encode_range starts' lengths (S i);
          Ok (run_bytes start len ++ rest)
      end
  end.

(** [func encodeRuns(starts []dvid.Point3d, lengths []int32) ([]byte, error)];
    [None] is the nil slice, and the bytes returned with an error are nil. *)
Definition encodeRuns (starts : option (list Point3d)) (lengths : option (list Z))
  : result (list byte * option error) :=
  match starts with
  | None => Ok ([], Some ErrNilStarts)
  | Some ss =>
      match lengths with
      | None => Ok ([], Some ErrNilLengths)
      | Some ls =>
          if (length ss =? length ls)%nat
          then bs ← encode_range ss ls 0; Ok (bs, None)
          else Ok ([], Some ErrRunsMismatch)
      end
  end.

(** The number of entries of a slice; a nil slice has none. *)
Definition len {A} (s : option (list A)) : nat := length (default [] s).

(** The loop of [statsRuns]. [buf.Read(coord)] takes up to 12 bytes and
    reports [n == 0] (with [io.EOF]) on an empty buffer; [binary.Read] of an
    [int32] needs 4 bytes. Each round takes bytes off a non-empty buffer,
    so the loop makes at most [len(encoding)] rounds. *)
Fixpoint stats_loop (fuel : nat) (buf : list byte) (numVoxels numRuns : Z)
  : Z * Z * option error :=
  match fuel with
  | O => (numVoxels, numRuns, None)
  | S fuel' =>
      let n := Nat.min 12 (length buf) in
      if (n =? 0)%nat then (numVoxels, numRuns, None)
      else
        let buf1 := drop 12 buf in
        let numRuns1 := int32 (numRuns + 1) in
        if (length buf1 <? 4)%nat then (numVoxels, numRuns1, Some ErrUnexpectedEOF)
        else
          let length := int32 (LittleEndian.Uint32 buf1) in
          stats_loop fuel' (drop 4 buf1) (int32 (numVoxels + length)) numRuns1
  end.

(** [func statsRuns(encoding []byte) (numVoxels, numRuns int32, err error)] *)
Definition statsRuns (encoding : list byte) : Z * Z * option error :=
  if negb (length encoding mod 16 =? 0)%nat then (0, 0, Some ErrMalformedRLE)
  else stats_loop (S (length encoding)) encoding 0 0.

(** The run lengths stored in an encoding: the [int32] at bytes 12..15 of
    each group of 16 bytes. *)
Fixpoint run_lengths (groups : nat) (encoding : list byte) : list Z :=
  match groups with
  | O => []
  | S groups' =>
      int32 (LittleEndian.Uint32 (drop 12 encoding))
        :: run_lengths groups' (drop 16 encoding)
  end.

Definition sumZ (l : list Z) : Z := fold_right Z.add 0 l.

(** A group of 16 bytes and the run length it stores. *)
Definition len16 (g : list byte) : Prop := length g = 16%nat.
Definition group_length (g : list byte) : Z :=
  int32 (LittleEndian.Uint32 (drop 12 g)).

(** One encoded run: start (1, 2, 3), length 4. *)
Definition one_run : list byte :=
  [Byte.x01; Byte.x00; Byte.x00; Byte.x00; Byte.x02; Byte.x00; Byte.x00; Byte.x00;
   Byte.x03; Byte.x00; Byte.x00; Byte.x00; Byte.x04; Byte.x00; Byte.x00; Byte.x00].

End RLE.

(** ** The ordered key-value store *)

Module KV.

(** Modelled from the spec: the ordered key-value facade, of which the
    repository's storage engine for the label indexes is not among the
    sources. Keys and values are byte strings; a store holds one value per
    key; a range scan returns the pairs whose keys lie between two bounds, in
    byte-lexical key order; a batch collects puts and [Commit] makes them
    durable. The store is kept as the list of its pairs in key order. *)
Abbreviation key := (list byte) (only parsing).
Abbreviation value := (list byte) (only parsing).
Abbreviation store := (list (list byte * list byte)) (only parsing).

(** Byte-lexical order. *)
Fixpoint key_compare (a b : key) : comparison :=
  match a, b with
  | [], [] => Eq
  | [], _ :: _ => Lt
  | _ :: _, [] => Gt
  | x :: a', y :: b' =>
      match byte.unsigned x ?= byte.unsigned y with
      | Eq => key_compare a' b'
      | c => c
      end
  end.

Definition key_leb (a b : key) : bool :=
  match key_compare a b with
  | Gt => false
  | _ => true
  end.

Definition key_ltb (a b : key) : bool :=
  match key_compare a b with
  | Lt => true
  | _ => false
  end.

(** Modelled from the spec: [Put(k, v)] of the facade, one value per key. *)
Fixpoint put (k : key) (v : value) (st : store) : store :=
  match st with
  | [] => [(k, v)]
  | (k', v') :: st' =>
      match key_compare k k' with
      | Lt => (k, v) :: st
      | Eq => (k, v) :: st'
      | Gt => (k', v') :: put k v st'
      end
  end.

(** Modelled from the spec: [Get(k)] of the facade. *)
Fixpoint get (k : key) (st : store) : option value :=
  match st with
  | [] => None
  | (k', v') :: st' =>
      match key_compare k k' with
      | Eq => Some v'
      | _ => get k st'
      end
  end.

(** Modelled from the spec: the range scan of the facade, which
    [ProcessRange] runs: the pairs with keys in [[lo, hi]], in the order it
    visits them. *)
Definition range (lo hi : key) (st : store) : store :=
  filter (fun kv => key_leb lo kv.1 && key_leb kv.1 hi) st.

(** Modelled from the spec: [Commit] of a batch of puts. *)
Definition commit (pending : list (key * value)) (st : store) : store :=
  fold_left (fun st kv => put kv.1 kv.2 st) pending st.

(** Keys strictly increasing from each pair to all later ones: the order in
    which a store is kept and a scan delivers. *)
Definition key_lt (a b : list byte * list byte) : Prop := key_ltb a.1 b.1 = true.
Definition ordered (st : store) : Prop := StronglySorted key_lt st.

End KV.

(** ** Keys of the label indexes (package [labels64]) *)

Module Keys.

(** [KeyType]: [KeyInverseMap], [KeyForwardMap], [KeySpatialMap],
    [KeyLabelSpatialMap], [KeyLabelSizes] are 0 to 4 by [iota]. *)
Definition KeyLabelSpatialMap : Z := 3.
Definition KeyLabelSizes : Z := 4.

Definition MaxLabel : Z := 2 ^ 64 - 1.

Section WithIndexZYX.

(** [dvid.IndexZYXSize], and the bytes of [dvid.MinIndexZYX] and
    [dvid.MaxIndexZYX]: package [dvid] is not among the sources. *)
Variable IndexZYXSize : nat.
Variables MinIndexZYX MaxIndexZYX : list byte.

(** [copy(index[9:9+dvid.IndexZYXSize], block.Bytes())] into zeroed bytes. *)
Definition block_bytes (block : list byte) : list byte :=
  take IndexZYXSize block ++ replicate (IndexZYXSize - length block) Byte.x00.

(** [func (d *Data) NewLabelSpatialMapKey(vID, label uint64, block dvid.IndexZYX)]:
    the index bytes of the key, for one version. *)
Definition NewLabelSpatialMapKey (label : Z) (block : list byte) : list byte :=
  byte.of_Z KeyLabelSpatialMap :: BigEndian.PutUint64 label ++ block_bytes block.

End WithIndexZYX.

(** [func (d *Data) NewLabelSizesKey(vID, size, label uint64)]: the index
    bytes of the key, for one version. *)
Definition NewLabelSizesKey (size label : Z) : list byte :=
  byte.of_Z KeyLabelSizes :: BigEndian.PutUint64 size ++ BigEndian.PutUint64 label.

(** The size and the label that the layout of a [KeyLabelSizes] key stores
    at bytes 1..8 and 9..16, big-endian. *)
Definition sizes_key_size (k : list byte) : Z := BigEndian.Uint64 (drop 1 k).
Definition sizes_key_label (k : list byte) : Z := BigEndian.Uint64 (drop 9 k).

(** The label as [GetSizeRange] reads it from a key:
    [binary.LittleEndian.Uint64(indexBytes[9:17])]. *)
Definition GetSizeRange_label (k : list byte) : Z := LittleEndian.Uint64 (drop 9 k).

End Keys.

(** ** The sparse-volume response ([GetSparseVol]) *)

Module SparseVol.

Definition PayloadBinary : byte := Byte.x00.

(** [type sparseOp struct]; [versionID] is fixed throughout. *)
Record sparseOp : Type := mkOp {
  encoding : list byte;
  numBlocks : Z;                 (* uint32 *)
  numRuns : Z                    (* uint32 *)
}.

(** [func (d *Data) processLabelRuns(chunk *storage.Chunk)], on the value of
    the chunk. *)
Definition processLabelRuns (op : sparseOp) (V : list byte) : sparseOp :=
  mkOp (encoding op ++ V)
       (wrap32 (numBlocks op + 1))
       (wrap32 (numRuns op + wrap32 (Z.of_nat (length V / 16)))).

(** [len(chunk.V) / 16] *)
Definition run_count (V : list byte) : Z := Z.of_nat (length V / 16).

(** The header that [GetSparseVol] writes into its buffer. *)
Definition header : list byte :=
  [PayloadBinary; byte.of_Z 3; byte.of_Z 0; byte.of_Z 0]
    ++ LittleEndian.PutUint32 0      (* placeholder for # voxels *)
    ++ LittleEndian.PutUint32 0.     (* placeholder for # spans *)

(** [binary.LittleEndian.PutUint32(b[lo:hi], v)] *)
Definition patchUint32 (b : list byte) (lo hi : nat) (v : Z) : result (list byte) :=
  if ((lo + 4 <=? hi) && (hi <=? length b))%nat
  then Ok (take lo b ++ LittleEndian.PutUint32 v ++ drop (lo + 4) b)
  else Panic.

Section WithIndexZYX.

Variable IndexZYXSize : nat.
Variables MinIndexZYX MaxIndexZYX : list byte.

(** [func (d *Data) GetSparseVol(uuid dvid.UUID, label uint64) ([]byte, error)].
    [versionID] is [None] when the UUID has no local id and [db] is [None]
    when there is no key-value store: both are errors of the server that are
    passed on. [ProcessRange] calls [processLabelRuns] on the chunks of the
    range scan, one after the other. *)
Definition GetSparseVol (versionID : option Z) (db : option (list (list byte * list byte)))
    (label : Z) : result (list byte * option error) :=
  match versionID with
  | None => Ok ([], Some ErrBackend)
  | Some _ =>
      match db with
      | None => Ok ([], Some ErrBackend)
      | Some st =>
          let firstKey := Keys.NewLabelSpatialMapKey IndexZYXSize label MinIndexZYX in
          let lastKey := Keys.NewLabelSpatialMapKey IndexZYXSize label MaxIndexZYX in
          let op := fold_left processLabelRuns
                      (map snd (KV.range firstKey lastKey st))
                      (mkOp header 0 0) in
          out ← patchUint32 (encoding op) 8 12 (numRuns op);
          Ok (out, None)
      end
  end.

End WithIndexZYX.

End SparseVol.

(** ** The size index ([computeSizes]) *)

Module SizeIndex.

Definition BATCH_SIZE : Z := 10000.

Definition emptyValue : list byte := [].

(** The local variables of [computeSizes], the puts collected in its batch
    and the store behind it. *)
Record state : Type := mkState {
  curLabel : Z;                  (* uint64 *)
  curSize : Z;                   (* uint64 *)
  putsInBatch : Z;
  notFirst : bool;
  batch : list (list byte * list byte);
  commits : nat;                 (* calls of batch.Commit so far *)
  db : list (list byte * list byte)
}.

(** [var curLabel, curSize uint64; putsInBatch := 0; notFirst := true] *)
Definition init (st : list (list byte * list byte)) : state :=
  mkState 0 0 0 true [] 0 st.

Section WithStore.

(** Whether the n-th [batch.Commit()] of the run fails. *)
Variable commit_fails : nat -> bool.

(** [batch.Commit()]: the puts of the batch reach the store, or nothing
    does and an error comes back. The batch is not cleared. *)
Definition Commit (s : state) : state * option error :=
  if commit_fails (commits s)
  then (mkState (curLabel s) (curSize s) (putsInBatch s) (notFirst s) (batch s)
          (S (commits s)) (db s), Some ErrBackend)
  else (mkState (curLabel s) (curSize s) (putsInBatch s) (notFirst s) (batch s)
          (S (commits s)) (KV.commit (batch s) (db s)), None).

Definition Put (s : state) (k v : list byte) : state :=
  mkState (curLabel s) (curSize s) (putsInBatch s) (notFirst s)
    (batch s ++ [(k, v)]) (commits s) (db s).

(** The body of the loop of [computeSizes] for a chunk that is not nil.
    The second component says whether the function returns. *)
Definition on_chunk (s : state) (K V : list byte) : result (state * bool) :=
  (* label := binary.LittleEndian.Uint64(indexBytes[1:9]) *)
  indexBytes ← Vmap.slice K 1 9;
  let label := LittleEndian.Uint64 indexBytes in
  let '(numVoxels, _, err) := RLE.statsRuns V in
  match err with
  | Some _ => Ok (s, true)
  | None =>
      let after_put :=
        if notFirst s && negb (label =? curLabel s) then
          let key := Keys.NewLabelSizesKey (curSize s) (curLabel s) in
          let s1 := mkState (curLabel s) 0 (putsInBatch s + 1) (notFirst s)
                      (batch s ++ [(key, emptyValue)]) (commits s) (db s) in
          if (putsInBatch s1) mod BATCH_SIZE =? 0 then Commit s1
          else (s1, None)
        else (s, None) in
      match after_put with
      | (s2, Some _) => Ok (s2, true)
      | (s2, None) =>
          Ok (mkState label (wrap64 (curSize s2 + wrap64 numVoxels))
                (putsInBatch s2) true (batch s2) (commits s2) (db s2), false)
      end
  end.

(** The branch for the nil chunk that ends the scan. *)
Definition on_nil (s : state) : state :=
  let key := Keys.NewLabelSizesKey (curSize s) (curLabel s) in
  (Commit (Put s key emptyValue)).1.

(** [func (d *Data) computeSizes(sizeCh chan *storage.Chunk, ...)] on the
    chunks the channel delivers, which a nil closes: the state in which the
    function returns. A channel that delivers no nil leaves the function
    waiting; [ProcessSpatially] always sends it. *)
Fixpoint computeSizes_from (s : state) (chunks : list (list byte * list byte))
  : result state :=
  match chunks with
  | [] => Ok (on_nil s)
  | (K, V) :: chunks' =>
      match on_chunk s K V with
      | Ok (s', returned) =>
          if returned : bool then Ok s' else computeSizes_from s' chunks'
      | Panic => Panic
      end
  end.

Definition computeSizes (st : list (list byte * list byte))
    (chunks : list (list byte * list byte)) : result state :=
  computeSizes_from (init st) chunks.

End WithStore.

Section WithIndexZYX.

Variable IndexZYXSize : nat.
Variables MinIndexZYX MaxIndexZYX : list byte.

(** The second pass of [ProcessSpatially]: a range scan over all
    [KeyLabelSpatialMap] keys feeds [computeSizes], and a nil ends it. The
    store returned is the store after the pass. *)
Definition size_index_pass (commit_fails : nat -> bool)
    (st : list (list byte * list byte)) : result (list (list byte * list byte)) :=
  let startKey := Keys.NewLabelSpatialMapKey IndexZYXSize 0 MinIndexZYX in
  let endKey := Keys.NewLabelSpatialMapKey IndexZYXSize Keys.MaxLabel MaxIndexZYX in
  match computeSizes commit_fails st (KV.range startKey endKey st) with
  | Ok s => Ok (db s)
  | Panic => Panic
  end.

End WithIndexZYX.

(** The [KeyLabelSizes] records of a store. *)
Definition KLS (st : list (list byte * list byte)) : list (list byte * list byte) :=
  filter (fun kv => head kv.1 = Some (byte.of_Z Keys.KeyLabelSizes)) st.

End SizeIndex.

(** ** Tar assembly and tar ingestion ([tarsupervoxels.go]) *)

Module Tar.

(** [tar.Header], the fields the code sets. *)
Record Header : Type := mkHeader {
  Name : string;
  Size : Z;
  Mode : Z;
  ModTime : Z
}.

(** [type fileData struct { header *tar.Header; data []byte; err error }] *)
Record fileData : Type := mkFileData {
  header : option Header;
  data : list byte;
  err : option error
}.

(** What [db.Get] and [dbt.GetWithTimestamp] return: a value (with its
    modification time), [(nil, nil)] for a key that is not in the store - as
    the [Get] of the repository's storage engines does and as [GetData]
    reads it - or an error. *)
Inductive getResult : Type :=
| Value (data : list byte) (modTime : Z)
| NotFound
| Failure.

(** [fmt.Sprintf("%d.%s", supervoxel, d.Extension)] *)
Definition file_name (supervoxel : Z) (ext : string) : string :=
  (NilZero.string_of_uint (N.to_uint (Z.to_N supervoxel)) +:+ "." +:+ ext)%string.

(** [numHandlers := 256] *)
Definition numHandlers : nat := 256.

(** The loop of [sendTarfile] that fills [svlist]:
    [i := 0; for supervoxel := range supervoxels { handler := i % numHandlers;
     svs := svlist[handler]; svs = append(svs, supervoxel); svlist[handler] = svs }].
    The body does not change [i]. *)
Definition assign (acc : nat * gmap nat (list Z)) (supervoxel : Z)
    : nat * gmap nat (list Z) :=
  let '(i, svlist) := acc in
  let handler := (i mod numHandlers)%nat in
  let svs := default [] (svlist !! handler) in
  let svs := svs ++ [supervoxel] in
  (i, <[handler := svs]> svlist).

Definition partition (supervoxels : list Z) : gmap nat (list Z) :=
  (fold_left assign supervoxels (0%nat, ∅)).2.

(** The orders in which a channel can deliver what several senders send,
    each in its own order. *)
Inductive Interleave {A : Type} : list (list A) -> list A -> Prop :=
| interleave_nil (senders : list (list A)) :
    Forall (fun l => l = []) senders -> Interleave senders []
| interleave_cons (senders : list (list A)) (i : nat) (x : A) (l out : list A) :
    senders !! i = Some (x :: l) ->
    Interleave (<[i := l]> senders) out ->
    Interleave senders (x :: out).

Section WithKeys.

(** [storage.TKey] and [NewTKey(supervoxel, ext)], which are not among the
    sources. *)
Variable TKey : Type.
Variable NewTKey : Z -> string -> TKey * option error.

(** The instance: its [Extension], the store behind it for reading, whether
    the store can give timestamps, and the synced label map's
    [GetSupervoxels(v, label)]: the supervoxels in the order in which the
    run ranges over the set, or an error. *)
Record env : Type := mkEnv {
  Extension : string;
  db : option (TKey -> getResult);          (* datastore.GetKeyValueDB(d) *)
  canGetTimestamp : bool;
  synced : option (Z -> option (list Z));   (* d.getSyncedLabels() *)
  version : option Z                        (* getRootContext, VersionFromUUID *)
}.

(** One round of the loop of [getSupervoxelGoroutine]: what it sends on
    [outCh] for one supervoxel. *)
Definition fetch (ext : string) (get : TKey -> getResult) (canTS : bool)
    (supervoxel : Z) : fileData :=
  match NewTKey supervoxel ext with
  | (_, Some e) => mkFileData None [] (Some e)
  | (tk, None) =>
      match get tk with
      | Failure => mkFileData None [] (Some ErrBackend)
      | NotFound =>
          (* data == nil, err == nil *)
          mkFileData (Some (mkHeader (file_name supervoxel ext) 0 493 0)) [] None
      | Value data modTime =>
          mkFileData
            (Some (mkHeader (file_name supervoxel ext) (Z.of_nat (length data)) 493
                     (if canTS then modTime else 0)))
            data None
      end
  end.

(** [func (d *Data) getSupervoxelGoroutine(db, ctx, supervoxels, outCh, done)]:
    what one worker sends, in order. [outCh] has room for every result, so
    no send waits for [done]. *)
Definition getSupervoxelGoroutine (ext : string) (get : TKey -> getResult)
    (canTS : bool) (supervoxels : list Z) : list fileData :=
  map (fetch ext get canTS) supervoxels.

(** The workers that [sendTarfile] starts: [svlist[i]] for [i] below
    [numHandlers]. *)
Definition workers (ext : string) (get : TKey -> getResult) (canTS : bool)
    (supervoxels : list Z) : list (list fileData) :=
  map (fun i => getSupervoxelGoroutine ext get canTS
                  (default [] (partition supervoxels !! i)))
      (seq 0 numHandlers).

(** The loop of [sendTarfile] that reads [n] results from [outCh] and
    writes the tar. [return err] on a result with an error returns the [err]
    of [sendTarfile], which is nil at this point. [None]: the channel
    delivers nothing more and the loop waits. The tar is written in memory:
    [tw.WriteHeader] and [tw.Write] do not fail. *)
Fixpoint write_results (n : nat) (outCh : list fileData)
    (tw : list (Header * list byte)) : option (list (Header * list byte) * option error) :=
  match n with
  | O => Some (tw, None)
  | S n' =>
      match outCh with
      | [] => None
      | fd :: outCh' =>
          match err fd with
          | Some _ => Some (tw, None)
          | None =>
              match header fd with
              | Some hdr => write_results n' outCh' (tw ++ [(hdr, data fd)])
              | None => write_results n' outCh' tw
              end
          end
      end
  end.

(** [func (d *Data) sendTarfile(w http.ResponseWriter, uuid dvid.UUID, label uint64) error]
    with the order [outCh] in which the channel delivers the results of the
    workers: the entries written to the tar and the error returned. *)
Definition sendTarfile (e : env) (label : Z) (outCh : list fileData)
    : option (list (Header * list byte) * option error) :=
  match db e with
  | None => Some ([], Some ErrBackend)
  | Some get =>
      match synced e with
      | None => Some ([], Some ErrNotSynced)
      | Some GetSupervoxels =>
          match version e with
          | None => Some ([], Some ErrBackend)
          | Some _ =>
              match GetSupervoxels label with
              | None => Some ([], Some ErrBackend)
              | Some supervoxels =>
                  if (length supervoxels =? 0)%nat then Some ([], Some ErrNoSupervoxels)
                  else write_results (length supervoxels) outCh []
              end
          end
      end
  end.

(** The orders in which [outCh] can deliver for a set of supervoxels. *)
Definition delivers (e : env) (get : TKey -> getResult) (supervoxels : list Z)
    (outCh : list fileData) : Prop :=
  Interleave (workers (Extension e) get (canGetTimestamp e) supervoxels) outCh.

(** *** Ingestion *)

(** [fmt.Sscanf(name, "%d.%s", &supervoxel, &ext)] of the standard library:
    the number of items scanned, the error, and the two values. *)
Variable Sscanf : string -> nat * option error * Z * string.

(** What [db.Put(ctx, tk, value)] returns. *)
Variable put_error : TKey -> list byte -> option error.

(** The name of a tar entry passes the three tests of [ingestTarfile]. *)
Definition accepted (extension : string) (name : string) : bool :=
  let '(n, err, supervoxel, ext) := Sscanf name in
  bool_decide (err = None) && (n =? 2)%nat
    && bool_decide (ext = extension) && negb (supervoxel =? 0).

(** The key under which [ingestTarfile] stores an entry. *)
Definition entry_key (name : string) : TKey :=
  let '(_, _, supervoxel, ext) := Sscanf name in (NewTKey supervoxel ext).1.

(** The loop of [ingestTarfile] over the entries that [tr.Next()] returns
    before [io.EOF]: the values stored, in order, and the error returned. The
    error of [NewTKey] is overwritten by the one of [db.Put]. *)
Fixpoint ingest_entries (extension : string) (entries : list (string * list byte))
    (stored : list (TKey * list byte)) : list (TKey * list byte) * option error :=
  match entries with
  | [] => (stored, None)
  | (name, bytes) :: entries' =>
      let '(n, err, supervoxel, ext) := Sscanf name in
      if negb (bool_decide (err = None)) || negb (n =? 2)%nat
      then (stored, Some ErrBadName)
      else if negb (bool_decide (ext = extension))
      then (stored, Some ErrBadExtension)
      else if supervoxel =? 0
      then (stored, Some ErrSupervoxelZero)
      else
        let tk := (NewTKey supervoxel ext).1 in
        match put_error tk bytes with
        | Some e => (stored, Some e)
        | None => ingest_entries extension entries' (stored ++ [(tk, bytes)])
        end
  end.

(** [func (d *Data) ingestTarfile(r *http.Request, uuid dvid.UUID) error] on
    the entries of the tar in the request. *)
Definition ingestTarfile (e : env) (entries : list (string * list byte))
    : list (TKey * list byte) * option error :=
  match db e with
  | None => ([], Some ErrBackend)
  | Some _ =>
      match version e with
      | None => ([], Some ErrBackend)
      | Some _ => ingest_entries (Extension e) entries []
      end
  end.

(** What the ingest stores for an entry, and whether the store accepts it. *)
Definition put_of (entry : string * list byte) : TKey * list byte :=
  (entry_key entry.1, entry.2).

Definition put_ok (entry : string * list byte) : Prop :=
  put_error (entry_key entry.1) entry.2 = None.

End WithKeys.

(** The errors of the three tests on the name of an entry. *)
Definition name_error (e : error) : Prop :=
  e = ErrBadName \/ e = ErrBadExtension \/ e = ErrSupervoxelZero.

End Tar.

(** ** Mapping operations on the supervoxel map ([equiv.go]) *)

Module SVMapOps.

(** [labels.MappingOp] and the mapping of [proto.MappingOps]: the
    supervoxels of [Original] in the order in which the code ranges over
    them. *)
Record MappingOp : Type := mkOp {
  MutID : Z;
  Mapped : Z;
  Original : list Z
}.

(** [labels.CleaveOp], the fields used. *)
Record CleaveOp : Type := mkCleave {
  CleaveMutID : Z;
  CleavedLabel : Z;
  CleavedSupervoxels : list Z
}.

(** [labels.SplitSupervoxelOp], the fields used. *)
Record SplitSupervoxelOp : Type := mkSplit {
  SplitMutID : Z;
  Supervoxel : Z;
  SplitSupervoxel : Z;
  RemainSupervoxel : Z
}.

(** The loop that the mapping functions share:
    [for ... supervoxel ... { vm := m.fm[supervoxel]; newvm, changed := vm.modify(vid, label);
     if changed { m.fm[supervoxel] = newvm } }]. *)
Fixpoint map_all (fm : gmap Z (list byte)) (vid label : Z) (supervoxels : list Z)
  : result (gmap Z (list byte)) :=
  match supervoxels with
  | [] => Ok fm
  | supervoxel :: supervoxels' =>
      let vm := default [] (fm !! supervoxel) in
      match Vmap.modify vm vid label with
      | Ok (newvm, changed) =>
          map_all (if changed : bool then <[supervoxel := newvm]> fm else fm)
            vid label supervoxels'
      | Panic => Panic
      end
  end.

(** [for _, mappingOp := range mappingOps { for supervoxel := range mappingOp.Original {...} }] *)
Fixpoint map_ops (fm : gmap Z (list byte)) (vid : Z) (ops : list MappingOp)
  : result (gmap Z (list byte)) :=
  match ops with
  | [] => Ok fm
  | op :: ops' =>
      match map_all fm vid (Mapped op) (Original op) with
      | Ok fm' => map_ops fm' vid ops'
      | Panic => Panic
      end
  end.

Section WithStore.

(** [datastore.GetAncestry], [labels.ReadMappingLog] (for one data
    instance) and whether [labels.LogMapping] of an operation fails: the DAG
    and the mapping log are kept outside this package. *)
Variable GetAncestry : Z -> option (list Z).
Variable ReadMappingLog : Z -> option (list MappingOp).
Variable log_error : Z -> MappingOp -> option error.

(** The loop of [initToVersion] over the ancestors. The map is changed in
    place, so what was done before an error stays. *)
Fixpoint init_ancestors (svm : SVMap.t) (v : Z) (ancestors : list Z)
  : result (SVMap.t * option error) :=
  match ancestors with
  | [] => Ok (svm, None)
  | ancestor :: ancestors' =>
      match SVMap.versions svm !! ancestor with
      | Some _ => init_ancestors svm v ancestors'    (* already loaded *)
      | None =>
          match ReadMappingLog ancestor with
          | None => Ok (svm, Some ErrBackend)
          | Some mappingOps =>
              if (length mappingOps =? 0)%nat then init_ancestors svm v ancestors'
              else
                let '(svm1, vid, err) := SVMap.createShortVersion svm v in
                match err with
                | Some e => Ok (svm1, Some e)
                | None =>
                    match map_ops (SVMap.fm svm1) vid mappingOps with
                    | Ok fm' => init_ancestors (SVMap.set_fm svm1 fm') v ancestors'
                    | Panic => Panic
                    end
                end
          end
      end
  end.

(** [func (svm *SVMap) initToVersion(d dvid.Data, v dvid.VersionID) error] *)
Definition initToVersion (svm : SVMap.t) (v : Z) : result (SVMap.t * option error) :=
  match GetAncestry v with
  | None => Ok (svm, Some ErrAncestry)
  | Some ancestors => init_ancestors svm v ancestors
  end.

(** [iMap.maps] and the mapping log. *)
Record world : Type := mkWorld {
  maps : gmap Z SVMap.t;               (* map[dvid.UUID]*SVMap *)
  log : list (Z * MappingOp)           (* version, operation *)
}.

Definition set_map (w : world) (uuid : Z) (m : SVMap.t) : world :=
  mkWorld (<[uuid := m]> (maps w)) (log w).

(** [labels.LogMapping(d, v, op)] *)
Definition LogMapping (w : world) (v : Z) (op : MappingOp) : world * option error :=
  match log_error v op with
  | Some e => (w, Some e)
  | None => (mkWorld (maps w) (log w ++ [(v, op)]), None)
  end.

(** [labels.LogMappings(d, v, mappings)]. Package [labels] is not among
    the sources: the log is kept as the list of the operations it accepted,
    and [LogMappings] is taken to log the operations one after the other. *)
Fixpoint LogMappings (w : world) (v : Z) (ops : list MappingOp) : world * option error :=
  match ops with
  | [] => (w, None)
  | op :: ops' =>
      match LogMapping w v op with
      | (w', Some e) => (w', Some e)
      | (w', None) => LogMappings w' v ops'
      end
  end.

(** [func getMapping(d dvid.Data, v dvid.VersionID)], returning the map and an error: the
    map of the instance is in the registry from then on, with whatever
    [initToVersion] did to it. *)
Definition getMapping (w : world) (uuid v : Z) : result (world * option error) :=
  let m := default SVMap.empty (maps w !! uuid) in
  match initToVersion m v with
  | Ok (m', err) => Ok (set_map w uuid m', err)
  | Panic => Panic
  end.

Definition the_map (w : world) (uuid : Z) : SVMap.t :=
  default SVMap.empty (maps w !! uuid).

(** [func (d *Data) ingestMappings(ctx *datastore.VersionedCtx, mappings proto.MappingOps) error] *)
Definition ingestMappings (w : world) (uuid v : Z) (mappings : list MappingOp)
  : result (world * option error) :=
  match getMapping w uuid v with
  | Panic => Panic
  | Ok (w1, Some e) => Ok (w1, Some e)
  | Ok (w1, None) =>
      let '(m1, vid, err) := SVMap.createShortVersion (the_map w1 uuid) v in
      match err with
      | Some e => Ok (set_map w1 uuid m1, Some e)
      | None =>
          match map_ops (SVMap.fm m1) vid mappings with
          | Panic => Panic
          | Ok fm' =>
              Ok (LogMappings (set_map w1 uuid (SVMap.set_fm m1 fm')) v mappings)
          end
      end
  end.

(** [func addMergeToMapping(d dvid.Data, v dvid.VersionID, mutID, toLabel uint64, mergeIdx *labels.Index) error];
    [supervoxels] is [mergeIdx.GetSupervoxels()]. *)
Definition addMergeToMapping (w : world) (uuid v mutID toLabel : Z) (supervoxels : list Z)
  : result (world * option error) :=
  match getMapping w uuid v with
  | Panic => Panic
  | Ok (w1, Some e) => Ok (w1, Some e)
  | Ok (w1, None) =>
      if (length supervoxels =? 0)%nat then Ok (w1, None)
      else
        let '(m1, vid, err) := SVMap.createShortVersion (the_map w1 uuid) v in
        match err with
        | Some e => Ok (set_map w1 uuid m1, Some e)
        | None =>
            match map_all (SVMap.fm m1) vid toLabel supervoxels with
            | Panic => Panic
            | Ok fm' =>
                Ok (LogMapping (set_map w1 uuid (SVMap.set_fm m1 fm')) v
                      (mkOp mutID toLabel supervoxels))
            end
        end
  end.

(** [func addCleaveToMapping(d dvid.Data, v dvid.VersionID, op labels.CleaveOp) error] *)
Definition addCleaveToMapping (w : world) (uuid v : Z) (op : CleaveOp)
  : result (world * option error) :=
  match getMapping w uuid v with
  | Panic => Panic
  | Ok (w1, Some e) => Ok (w1, Some e)
  | Ok (w1, None) =>
      if (length (CleavedSupervoxels op) =? 0)%nat then Ok (w1, None)
      else
        let '(m1, vid, err) := SVMap.createShortVersion (the_map w1 uuid) v in
        match err with
        | Some e => Ok (set_map w1 uuid m1, Some e)
        | None =>
            match map_all (SVMap.fm m1) vid (CleavedLabel op) (CleavedSupervoxels op) with
            | Panic => Panic
            | Ok fm' =>
                Ok (LogMapping (set_map w1 uuid (SVMap.set_fm m1 fm')) v
                      (mkOp (CleaveMutID op) (CleavedLabel op) (CleavedSupervoxels op)))
            end
        end
  end.

(** [func addSupervoxelSplitToMapping(d dvid.Data, v dvid.VersionID, op labels.SplitSupervoxelOp) error];
    the operation logged lists the split and the remain supervoxel. *)
Definition addSupervoxelSplitToMapping (w : world) (uuid v : Z) (op : SplitSupervoxelOp)
  : result (world * option error) :=
  match getMapping w uuid v with
  | Panic => Panic
  | Ok (w1, Some e) => Ok (w1, Some e)
  | Ok (w1, None) =>
      match SVMap.MappedLabel GetAncestry (Some (the_map w1 uuid)) v (Supervoxel op) with
      | Panic => Panic
      | Ok (m0, (mapped, found)) =>
          let label := if found : bool then mapped else Supervoxel op in
          let m0 := default (the_map w1 uuid) m0 in
          let '(m1, vid, err) := SVMap.createShortVersion m0 v in
          match err with
          | Some e => Ok (set_map w1 uuid m1, Some e)
          | None =>
              match map_all (SVMap.fm m1) vid label
                      [SplitSupervoxel op; RemainSupervoxel op] with
              | Panic => Panic
              | Ok fm' =>
                  Ok (LogMapping (set_map w1 uuid (SVMap.set_fm m1 fm')) v
                        (mkOp (SplitMutID op) label
                           [SplitSupervoxel op; RemainSupervoxel op]))
              end
          end
      end
  end.

End WithStore.

End SVMapOps.

(** ** Whether a version has mappings ([exists]) *)

Module SVMapQueries.

Section WithDAG.

Variable GetAncestry : Z -> option (list Z).

(** [func (svm *SVMap) exists(v dvid.VersionID) bool]; the call may fill
    the ancestry cache. *)
Definition exists_ (svm : SVMap.t) (v : Z) : result (SVMap.t * bool) :=
  if (size (SVMap.fm svm) =? 0)%nat then Ok (svm, false)
  else
    match SVMap.getAncestry GetAncestry svm v with
    | Panic => Panic
    | Ok (svm', None) => Ok (svm', false)
    | Ok (svm', Some ancestry) =>
        if (length ancestry =? 0)%nat then Ok (svm', false) else Ok (svm', true)
    end.

End WithDAG.

End SVMapQueries.

(** ** Lookups on the records of a vmap *)

Module VmapRecords.

(** The label of the first record for [vid]. *)
Definition find_label (vid : Z) (es : list (byte * list byte)) : option Z :=
  match Vmap.index_of vid es with
  | Some k => Vmap.label_of <$> es !! k
  | None => None
  end.

(** Every vmap of the map is whole records with pairwise distinct version
    ids, all of them short ids that have been handed out. *)
Definition all_wf (svm : SVMap.t) : Prop :=
  forall s vm, SVMap.fm svm !! s = Some vm ->
    Vmap.wf vm /\ Forall (fun id => 0 <= id < SVMap.numVersions svm) (Vmap.vids vm).

(** The label that the vmap of supervoxel [s] records for the short id
    [vid]. *)
Definition label_at (fm : gmap Z (list byte)) (s vid : Z) : option Z :=
  find_label vid (Vmap.entries (default [] (fm !! s))).

(** The operations that the loop of [initToVersion] reads for a list of
    ancestors while the table of versions does not change: the logs of the
    ancestors that have no short id, in the order of the list; [None] when
    a log that it asks for cannot be read. *)
Fixpoint pending_ops (ReadMappingLog : Z -> option (list SVMapOps.MappingOp))
    (svm : SVMap.t) (ancestors : list Z) : option (list SVMapOps.MappingOp) :=
  match ancestors with
  | [] => Some []
  | ancestor :: ancestors' =>
      match SVMap.versions svm !! ancestor with
      | Some _ => pending_ops ReadMappingLog svm ancestors'
      | None =>
          match ReadMappingLog ancestor with
          | None => None
          | Some ops => (ops ++.) <$> pending_ops ReadMappingLog svm ancestors'
          end
      end
  end.

End VmapRecords.

(** ** Runs of the labels of a block ([processChunk]) *)

Module Denorm.

(** The variables of the scan of [processChunk]: [runStarts], [runLengths],
    [curLabel], [curRun] and the byte offset [start]. A key that a Go map
    does not hold reads as the nil slice. *)
Record scan : Type := mkScan {
  runStarts : gmap Z (list RLE.Point3d);   (* map[uint64]([]dvid.Point3d) *)
  runLengths : gmap Z (list Z);            (* map[uint64]([]int32) *)
  curLabel : Z;                            (* uint64 *)
  curRun : Z;                              (* int32 *)
  start : nat
}.

(** [runStarts := make(...); runLengths := make(...); var ... curLabel uint64;
    var ... curRun int32; start := 0] *)
Definition init : scan := mkScan ∅ ∅ 0 0 0.

Definition starts_of (s : scan) (l : Z) : list RLE.Point3d := default [] (runStarts s !! l).
Definition lens_of (s : scan) (l : Z) : list Z := default [] (runLengths s !! l).

(** [if curRun > 0 { runLengths[curLabel] = append(runLengths[curLabel], curRun) }] *)
Definition save_run (s : scan) : gmap Z (list Z) :=
  if 0 <? curRun s
  then <[curLabel s := lens_of s (curLabel s) ++ [curRun s]]> (runLengths s)
  else runLengths s.

(** The values that the variable of [for i = first; i <= last; i++] takes,
    for an [int32] bound [last] below the largest [int32] (with that bound
    [i++] wraps around and the loop does not end). *)
Definition range32 (first last : Z) : list Z := seqZ first (last - first + 1).

Section WithByteOrder.

(** [d.Properties.ByteOrder.Uint64]. *)
Variable ByteOrderUint64 : list byte -> Z.

(** The body of the innermost loop, for the voxel at [(x, y, z)]. The
    slice expression is the one of a slice whose capacity is its length. *)
Definition voxel (blockData : list byte) (s : scan) (x y z : Z) : result scan :=
  b ← Vmap.slice blockData (start s) (start s + 8);
  let voxelLabel := ByteOrderUint64 b in
  if negb (curRun s =? 0) && (voxelLabel =? curLabel s) then
    Ok (mkScan (runStarts s) (runLengths s) (curLabel s) (int32 (curRun s + 1))
          (start s + 8))
  else
    let lengths1 := save_run s in
    let curPt := RLE.point x y z in
    match runStarts s !! voxelLabel with
    | None =>
        Ok (mkScan (<[voxelLabel := [curPt]]> (runStarts s))
              (<[voxelLabel := []]> lengths1) voxelLabel 1 (start s + 8))
    | Some points =>
        Ok (mkScan (<[voxelLabel := points ++ [curPt]]> (runStarts s))
              lengths1 voxelLabel 1 (start s + 8))
    end.

(** [for x = firstPt.Value(0); x <= lastPt.Value(0); x++ { ... }] *)
Fixpoint scan_x (blockData : list byte) (xs : list Z) (y z : Z) (s : scan)
  : result scan :=
  match xs with
  | [] => Ok s
  | x :: xs' =>
      match voxel blockData s x y z with
      | Ok s' => scan_x blockData xs' y z s'
      | Panic => Panic
      end
  end.

(** "Force break of any runs when we finish x scan." *)
Definition flush (s : scan) : scan :=
  if 0 <? curRun s
  then mkScan (runStarts s) (save_run s) (curLabel s) 0 (start s)
  else s.

Fixpoint scan_y (blockData : list byte) (ys xs : list Z) (z : Z) (s : scan)
  : result scan :=
  match ys with
  | [] => Ok s
  | y :: ys' =>
      match scan_x blockData xs y z s with
      | Ok s' => scan_y blockData ys' xs z (flush s')
      | Panic => Panic
      end
  end.

Fixpoint scan_z (blockData : list byte) (zs ys xs : list Z) (s : scan)
  : result scan :=
  match zs with
  | [] => Ok s
  | z :: zs' =>
      match scan_y blockData ys xs z s with
      | Ok s' => scan_z blockData zs' ys xs s'
      | Panic => Panic
      end
  end.

(** The three nested loops over the block from [firstPt] to [lastPt]. *)
Definition scan_block (blockData : list byte) (firstPt lastPt : RLE.Point3d)
  : result scan :=
  scan_z blockData
    (range32 (RLE.pz firstPt) (RLE.pz lastPt))
    (range32 (RLE.py firstPt) (RLE.py lastPt))
    (range32 (RLE.px firstPt) (RLE.px lastPt)) init.

(** [for b, coords := range runStarts { ...; runsBytes, err := encodeRuns(coords, runLengths[b]);
     if err != nil { return }; batch.Put(key, runsBytes) }]: the puts of the
    batch, or [None] when the function returns before the commit. *)
Fixpoint put_runs (IndexZYXSize : nat) (zyxBytes : list byte)
    (entries : list (Z * list RLE.Point3d)) (lengths : gmap Z (list Z))
    (batch : list (list byte * list byte))
  : result (option (list (list byte * list byte))) :=
  match entries with
  | [] => Ok (Some batch)
  | (b, coords) :: entries' =>
      match RLE.encodeRuns (Some coords) (lengths !! b) with
      | Panic => Panic
      | Ok (_, Some _) => Ok None
      | Ok (runsBytes, None) =>
          put_runs IndexZYXSize zyxBytes entries' lengths
            (batch ++ [(Keys.NewLabelSpatialMapKey IndexZYXSize b zyxBytes, runsBytes)])
      end
  end.

(** [func (d *Data) processChunk(chunk *storage.Chunk)] from the
    deserialized block on: the puts of the batch that it hands to the last
    [batch.Commit()], in the order in which it ranges over [runStarts], or
    [None] when it returns before that commit. [zyxBytes], [firstPt] and
    [lastPt] come from the index of the chunk and the block size;
    [commit_ok] says whether the [batch.Commit()] after the scan, of a batch
    without puts, succeeds. *)
Definition processChunk (IndexZYXSize : nat) (zyxBytes blockData : list byte)
    (firstPt lastPt : RLE.Point3d) (commit_ok : bool)
  : result (option (list (list byte * list byte))) :=
  if negb (length blockData mod 8 =? 0)%nat then Ok None
  else
    match scan_block blockData firstPt lastPt with
    | Panic => Panic
    | Ok s =>
        if commit_ok
        then put_runs IndexZYXSize zyxBytes (map_to_list (runStarts s)) (runLengths s) []
        else Ok None
    end.

(** The label of the [i]-th voxel of a block, and the number of voxels
    with label [l] among the first [n]. *)
Definition label_at (blockData : list byte) (i : nat) : Z :=
  ByteOrderUint64 (take 8 (drop (8 * i) blockData)).

Fixpoint voxels_with (blockData : list byte) (l : Z) (n : nat) : Z :=
  match n with
  | O => 0
  | S n' => voxels_with blockData l n' + (if label_at blockData n' =? l then 1 else 0)
  end.

(** What holds of the scan after [n] voxels, in a block whose rows have
    [nx] voxels. *)
Record inv (blockData : list byte) (nx : Z) (s : scan) (n : nat) : Prop := {
  inv_start : start s = (8 * n)%nat;
  inv_run : 0 <= curRun s;
  inv_dom : forall l, is_Some (runStarts s !! l) <-> is_Some (runLengths s !! l);
  inv_len : forall l,
    (length (lens_of s l)
     + (if ((0 <? curRun s) && (l =? curLabel s))%Z then 1 else 0)
     = length (starts_of s l))%nat;
  inv_sum : forall l,
    RLE.sumZ (lens_of s l) + (if l =? curLabel s then curRun s else 0)
    = voxels_with blockData l n;
  inv_seen : forall l, is_Some (runStarts s !! l) <-> 0 < voxels_with blockData l n;
  inv_bounds : forall l, Forall (fun len => 1 <= len <= nx) (lens_of s l)
}.

End WithByteOrder.

(** The number of voxels that the three loops visit. *)
Definition voxels (firstPt lastPt : RLE.Point3d) : nat :=
  (length (range32 (RLE.pz firstPt) (RLE.pz lastPt))
   * length (range32 (RLE.py firstPt) (RLE.py lastPt))
   * length (range32 (RLE.px firstPt) (RLE.px lastPt)))%nat.

(** A block that [processChunk] scans to its end: whole 8-byte labels, at
    least as many as the loops visit, loop bounds below the largest
    [int32], and rows of fewer than 2^31 voxels. *)
Definition block_ok (blockData : list byte) (firstPt lastPt : RLE.Point3d) : Prop :=
  (length blockData mod 8 = 0)%nat
  /\ (8 * voxels firstPt lastPt <= length blockData)%nat
  /\ RLE.px lastPt < 2 ^ 31 - 1 /\ RLE.py lastPt < 2 ^ 31 - 1
  /\ RLE.pz lastPt < 2 ^ 31 - 1
  /\ RLE.px lastPt - RLE.px firstPt + 1 < 2 ^ 31.

(** The put of [processChunk] for label [b] with run starts [coords], given
    the scan [s]. *)
Definition put_of (IndexZYXSize : nat) (zyxBytes : list byte) (s : scan)
    (entry : Z * list RLE.Point3d) : list byte * list byte :=
  (Keys.NewLabelSpatialMapKey IndexZYXSize entry.1 zyxBytes,
   concat (zip_with RLE.run_bytes entry.2 (lens_of s entry.1))).

End Denorm.

(** ** Readings of the size index *)

Module SizeViews.

(** The sizes that the keys of a batch of [KeyLabelSizes] puts hold. *)
Definition put_sizes (b : list (list byte * list byte)) : list Z :=
  map (fun kv => Keys.sizes_key_size kv.1) b.

(** The number of voxels that [statsRuns] counts in the value of a chunk. *)
Definition chunk_voxels (kv : list byte * list byte) : Z := (RLE.statsRuns kv.2).1.1.

(** A chunk that [computeSizes] can read: a key of at least 9 bytes and a
    value of whole 16-byte runs. *)
Definition readable (kv : list byte * list byte) : Prop :=
  (9 <= length kv.1)%nat /\ (length kv.2 mod 16 = 0)%nat.

End SizeViews.

(** ** Inputs used in examples *)

Module Examples.

(** One array holding the record (version id 1, label 10). *)
Definition heap_one_record : gmap nat (list byte) :=
  {[ 0%nat := [Byte.x01; Byte.x0a; Byte.x00; Byte.x00; Byte.x00; Byte.x00;
               Byte.x00; Byte.x00; Byte.x00] ]}.

(** A linear history: version [v] descends from [v-1], ..., [0]. *)
Definition chain (v : Z) : option (list Z) :=
  if v <? 0 then None else Some (rev (seqZ 0 (v + 1))).

(** The SVMap after [MapSupervoxel(1, 7, 10)] on a new map. *)
Definition svm_child_only : result (SVMap.t * option error) :=
  SVMap.MapSupervoxel SVMap.empty 1 7 10.

(** Index bytes for the examples: twelve bytes per block index. *)
Definition zyx_min : list byte := replicate 12 Byte.x00.
Definition zyx_max : list byte := replicate 12 Byte.xff.
Definition zyx_block : list byte :=
  [Byte.x00; Byte.x00; Byte.x00; Byte.x01; Byte.x00; Byte.x00; Byte.x00; Byte.x00;
   Byte.x00; Byte.x00; Byte.x00; Byte.x00].

(** A store whose only record is the label-to-block record of label 1 in
    one block, with one run of 4 voxels. *)
Definition klsm_label_1 : list (list byte * list byte) :=
  KV.put (Keys.NewLabelSpatialMapKey 12 1 zyx_block) RLE.one_run [].

(** Keys of the blob store in the examples: the file name. *)
Definition name_key (supervoxel : Z) (ext : string) : string * option error :=
  (Tar.file_name supervoxel ext, None).

(** A scanner for names of the form digits, a dot, a word: it stands for
    [fmt.Sscanf(name, "%d.%s", ...)] in the examples. *)
Fixpoint split_dot (s : string) : option (string * string) :=
  match s with
  | EmptyString => None
  | String c s' =>
      if Ascii.eqb c "."%char then Some (EmptyString, s')
      else match split_dot s' with
           | Some (a, b) => Some (String c a, b)
           | None => None
           end
  end.

Definition scan_name (name : string) : nat * option error * Z * string :=
  match split_dot name with
  | None => (0%nat, Some ErrBadName, 0, EmptyString)
  | Some (digits, word) =>
      match NilZero.uint_of_string digits with
      | None => (0%nat, Some ErrBadName, 0, EmptyString)
      | Some u =>
          match digits, word with
          | EmptyString, _ => (0%nat, Some ErrBadName, 0, EmptyString)
          | _, EmptyString => (1%nat, Some ErrBadName, Z.of_N (N.of_uint u), EmptyString)
          | _, _ => (2%nat, None, Z.of_N (N.of_uint u), word)
          end
      end
  end.

(** An instance with extension "dat" over a store that holds a blob for
    supervoxel 6 only, synced to a label map in which label 9 is the
    supervoxels 5 and 6. *)
Definition blobs (tk : string) : Tar.getResult :=
  if bool_decide (tk = "6.dat"%string) then Tar.Value [Byte.x2a] 1000 else Tar.NotFound.

Definition tar_env : Tar.env string :=
  Tar.mkEnv string "dat" (Some blobs) true
    (Some (fun label => if label =? 9 then Some [5; 6] else Some [])) (Some 0).

(** A mapping log: version 0 logged the mapping of supervoxel 5 to label
    7, the other versions logged nothing; and a log that accepts every
    operation. *)
Definition mapping_log (v : Z) : option (list SVMapOps.MappingOp) :=
  if v =? 0 then Some [SVMapOps.mkOp 1 7 [5]] else Some [].
Definition no_log_error (v : Z) (op : SVMapOps.MappingOp) : option error := None.

(** No data instance has a map yet and nothing is logged. *)
Definition world0 : SVMapOps.world := SVMapOps.mkWorld ∅ [].

(** A store that holds a blob for supervoxel 5 and fails to read the one of
    supervoxel 6, behind the same instance. *)
Definition blobs_failing (tk : string) : Tar.getResult :=
  if bool_decide (tk = "5.dat"%string) then Tar.Value [Byte.x2a] 1000
  else if bool_decide (tk = "6.dat"%string) then Tar.Failure else Tar.NotFound.

Definition tar_env_failing : Tar.env string :=
  Tar.mkEnv string "dat" (Some blobs_failing) true
    (Some (fun label => if label =? 9 then Some [5; 6; 7] else Some [])) (Some 0).

(** A block of one row of three voxels with the labels 5, 5, 6, little
    endian. *)
Definition block_556 : list byte :=
  LittleEndian.PutUint64 5 ++ LittleEndian.PutUint64 5 ++ LittleEndian.PutUint64 6.
Definition block_first : RLE.Point3d := RLE.point 0 0 0.
Definition block_last : RLE.Point3d := RLE.point 2 0 0.

End Examples.

(* ================================================================== *)
(** * Properties *)
(* ================================================================== *)

Lemma le_split_length n v : length (le_split n v) = n.
Proof. apply length_le_split. Qed.

Lemma LE_Uint64_Put v : is_uint64 v -> LittleEndian.Uint64 (LittleEndian.PutUint64 v) = v.
Proof.
  intros Hv. unfold LittleEndian.Uint64, LittleEndian.PutUint64.
  rewrite take_ge by (rewrite le_split_length; lia).
  rewrite le_combine_split. apply Z.mod_small. exact Hv.
Qed.

Lemma LE_Uint64_Put_app v rest :
  is_uint64 v -> LittleEndian.Uint64 (LittleEndian.PutUint64 v ++ rest) = v.
Proof.
  intros Hv. unfold LittleEndian.Uint64.
  rewrite take_app_le by (unfold LittleEndian.PutUint64; rewrite le_split_length; lia).
  apply (LE_Uint64_Put v Hv).
Qed.

Lemma BE_Uint64_Put v : is_uint64 v -> BigEndian.Uint64 (BigEndian.PutUint64 v) = v.
Proof.
  intros Hv. unfold BigEndian.Uint64, BigEndian.PutUint64.
  rewrite take_ge by (rewrite length_rev, le_split_length; lia).
  rewrite rev_involutive, le_combine_split. apply Z.mod_small. exact Hv.
Qed.

(** ** The packed version map *)

Section VmapFacts.
Import Vmap.

Implicit Types (vm : vmap) (es : list (byte * list byte)) (vid toLabel : Z).

Lemma pack_cons r es : pack (r :: es) = r.1 :: r.2 ++ pack es.
Proof. reflexivity. Qed.

Lemma pack_app es1 es2 : pack (es1 ++ es2) = pack es1 ++ pack es2.
Proof. unfold pack. by rewrite map_app, concat_app. Qed.

Lemma pack_length es : Forall len8 es -> length (pack es) = (9 * length es)%nat.
Proof.
  induction 1 as [|r es Hr _ IH]; [done|].
  rewrite pack_cons. simpl. rewrite length_app, IH, Hr. lia.
Qed.

Lemma entries_pack es : Forall len8 es -> entries (pack es) = es.
Proof.
  induction 1 as [|[e bs] es Hr _ IH]; [done|].
  unfold len8 in Hr. simpl in Hr.
  do 8 (destruct bs as [|? bs]; try discriminate).
  destruct bs; try discriminate.
  rewrite pack_cons. simpl. by rewrite IH.
Qed.

(** Induction over a byte slice, nine bytes at a time. *)
Lemma vmap_ind9 (P : vmap -> Prop) :
  (forall vm, (length vm < 9)%nat -> P vm) ->
  (forall e b1 b2 b3 b4 b5 b6 b7 b8 rest,
      P rest -> P (e :: b1 :: b2 :: b3 :: b4 :: b5 :: b6 :: b7 :: b8 :: rest)) ->
  forall vm, P vm.
Proof.
  intros Hshort Hstep vm.
  remember (length vm) as n eqn:Hn. revert vm Hn.
  induction n as [n IH] using lt_wf_ind. intros vm ->.
  destruct vm as [|e [|b1 [|b2 [|b3 [|b4 [|b5 [|b6 [|b7 [|b8 rest]]]]]]]]];
    try (apply Hshort; simpl; lia).
  apply Hstep. apply (IH (length rest)); [simpl; lia|done].
Qed.

Lemma entries_short vm : (length vm < 9)%nat -> entries vm = [].
Proof.
  intros H.
  destruct vm as [|e [|b1 [|b2 [|b3 [|b4 [|b5 [|b6 [|b7 [|b8 rest]]]]]]]]];
    try done. simpl in H. lia.
Qed.

Lemma entries_len8 vm : Forall len8 (entries vm).
Proof.
  induction vm as [vm Hs|e b1 b2 b3 b4 b5 b6 b7 b8 rest IH] using vmap_ind9.
  - rewrite entries_short by done. constructor.
  - simpl. constructor; [done|exact IH].
Qed.

(** A packed vmap is the packing of its records. *)
Lemma packed_pack vm : packed vm -> pack (entries vm) = vm.
Proof.
  unfold packed.
  induction vm as [vm Hs|e b1 b2 b3 b4 b5 b6 b7 b8 rest IH] using vmap_ind9; intros Hp.
  - rewrite Nat.mod_small in Hp by done.
    apply length_zero_iff_nil in Hp. by subst.
  - change (entries (e :: b1 :: b2 :: b3 :: b4 :: b5 :: b6 :: b7 :: b8 :: rest))
      with ((e, [b1; b2; b3; b4; b5; b6; b7; b8]) :: entries rest).
    rewrite pack_cons. simpl. rewrite IH; [done|].
    change (length (e :: b1 :: b2 :: b3 :: b4 :: b5 :: b6 :: b7 :: b8 :: rest))
      with (9 + length rest)%nat in Hp.
    replace (9 + length rest)%nat with (length rest + 1 * 9)%nat in Hp by lia.
    by rewrite Nat.Div0.mod_add in Hp.
Qed.

Lemma pack_packed es : Forall len8 es -> packed (pack es).
Proof.
  intros H. unfold packed. rewrite (pack_length _ H).
  rewrite Nat.mul_comm. apply Nat.Div0.mod_mul.
Qed.

(** *** The scan loop *)

Lemma scan_shift fuel pre suf vid p :
  scan fuel (pre ++ suf) vid (length pre + p)
  = (fun q => (length pre + q)%nat) <$> scan fuel suf vid p.
Proof.
  revert p. induction fuel as [|fuel IH]; intros p; [done|].
  cbn [scan]. rewrite lookup_app_r by lia.
  replace (length pre + p - length pre)%nat with p by lia.
  destruct (suf !! p) as [b|]; [|done].
  destruct (byte.unsigned b =? vid); [done|].
  replace (length pre + p + 9)%nat with (length pre + (p + 9))%nat by lia.
  apply IH.
Qed.

Lemma scan_pack es vid fuel :
  Forall len8 es -> (length es <= fuel)%nat ->
  scan fuel (pack es) vid 0 = (fun k => (9 * k)%nat) <$> index_of vid es.
Proof.
  intros Hes. revert fuel.
  induction Hes as [|r es Hr Hes IH]; intros fuel Hf.
  - destruct fuel; reflexivity.
  - destruct fuel as [|fuel]; [simpl in Hf; lia|].
    rewrite pack_cons. cbn [scan index_of lookup list_lookup].
    destruct (byte.unsigned r.1 =? vid); [done|].
    change (r.1 :: r.2 ++ pack es) with ((r.1 :: r.2) ++ pack es).
    replace (0 + 9)%nat with (length (r.1 :: r.2) + 0)%nat
      by (unfold len8 in Hr; simpl; lia).
    rewrite scan_shift, IH by (simpl in Hf; lia).
    destruct (index_of vid es) as [k|]; simpl; [|done].
    f_equal. unfold len8 in Hr. lia.
Qed.

Lemma index_of_lt vid es k : index_of vid es = Some k -> (k < length es)%nat.
Proof.
  revert k. induction es as [|r es IH]; intros k; simpl; [done|].
  destruct (byte.unsigned r.1 =? vid).
  - intros [= <-]. lia.
  - destruct (index_of vid es) as [k'|]; simpl; [|done].
    intros [= <-]. specialize (IH k' eq_refl). lia.
Qed.

(** *** [modify] on records *)

Lemma patch_pack vid toLabel es k :
  Forall len8 es -> index_of vid es = Some k ->
  take (9 * k + 1) (pack es) ++ LittleEndian.PutUint64 toLabel
    ++ drop (9 * k + 9) (pack es)
  = pack (upsert vid toLabel es).
Proof.
  intros Hes. revert k.
  induction Hes as [|r es Hr Hes IH]; intros k; cbn [index_of upsert]; [done|].
  destruct (byte.unsigned r.1 =? vid).
  - intros [= <-]. rewrite !pack_cons.
    change (9 * 0 + 1)%nat with 1%nat. change (9 * 0 + 9)%nat with 9%nat.
    cbn [take drop app fst snd]. rewrite take_0. cbn [app]. do 2 f_equal.
    rewrite drop_app_length'; [done|]. symmetry. exact Hr.
  - destruct (index_of vid es) as [k'|] eqn:E; cbn [fmap option_fmap option_map]; [|done].
    intros [= <-]. specialize (IH k' eq_refl).
    rewrite !pack_cons.
    change (r.1 :: r.2 ++ pack es) with ((r.1 :: r.2) ++ pack es).
    assert (Hl : length (r.1 :: r.2) = 9%nat) by (unfold len8 in Hr; simpl; lia).
    replace (9 * S k' + 1)%nat with (length (r.1 :: r.2) + (9 * k' + 1))%nat by lia.
    replace (9 * S k' + 9)%nat with (length (r.1 :: r.2) + (9 * k' + 9))%nat by lia.
    rewrite take_app_add, drop_app_add, <- app_assoc, IH. reflexivity.
Qed.

Lemma upsert_absent vid toLabel es :
  index_of vid es = None ->
  upsert vid toLabel es = es ++ [(byte.of_Z vid, LittleEndian.PutUint64 toLabel)].
Proof.
  induction es as [|r es IH]; simpl; [done|].
  destruct (byte.unsigned r.1 =? vid); [done|].
  destruct (index_of vid es); simpl; [done|]. intros _. by rewrite IH.
Qed.

(** [modify] of packed records is the packing of [upsert]; it never panics
    and always reports a change. *)
Lemma modify_pack vid toLabel es :
  Forall len8 es ->
  modify (pack es) vid toLabel = Ok (pack (upsert vid toLabel es), true).
Proof.
  intros Hes. unfold modify.
  rewrite (pack_length _ Hes).
  destruct es as [|r es]; [reflexivity|].
  replace (9 * length (r :: es) =? 0)%nat with false
    by (symmetry; apply Nat.eqb_neq; simpl; lia).
  rewrite scan_pack by (done || simpl; lia).
  destruct (index_of vid (r :: es)) as [k|] eqn:E; cbn [fmap option_fmap option_map].
  - pose proof (index_of_lt _ _ _ E) as Hk.
    replace (9 * k + 9 <=? 9 * length (r :: es))%nat with true
      by (symmetry; apply Nat.leb_le; lia).
    by rewrite (patch_pack vid toLabel (r :: es) k).
  - rewrite (upsert_absent _ _ _ E), pack_app. reflexivity.
Qed.

Lemma upsert_len8 vid toLabel es :
  Forall len8 es -> Forall len8 (upsert vid toLabel es).
Proof.
  induction 1 as [|r es Hr Hes IH]; cbn [upsert].
  - repeat constructor.
  - destruct (byte.unsigned r.1 =? vid); constructor; done.
Qed.

Lemma unsigned_of_Z_uint8 vid : is_uint8 vid -> byte.unsigned (byte.of_Z vid) = vid.
Proof.
  intros Hv. rewrite byte.unsigned_of_Z. unfold byte.wrap.
  apply Z.mod_small. exact Hv.
Qed.

Lemma upsert_vids vid toLabel es :
  is_uint8 vid ->
  map vid_of (upsert vid toLabel es)
  = if bool_decide (vid ∈ map vid_of es) then map vid_of es
    else map vid_of es ++ [vid].
Proof.
  intros Hv. induction es as [|r es IH]; cbn [upsert map].
  - rewrite bool_decide_eq_false_2 by apply not_elem_of_nil.
    unfold vid_of. cbn [fst app]. by rewrite unsigned_of_Z_uint8.
  - destruct (Z.eqb_spec (byte.unsigned r.1) vid) as [Heq|Hne].
    + rewrite bool_decide_eq_true_2; [done|]. apply elem_of_cons. by left.
    + cbn [map]. rewrite IH. case_bool_decide as H1.
      * rewrite bool_decide_eq_true_2; [done|]. by right.
      * rewrite bool_decide_eq_false_2; [done|].
        intros [?|?]%elem_of_cons; [|done]. apply Hne. unfold vid_of in *. congruence.
Qed.

Lemma upsert_NoDup vid toLabel es :
  is_uint8 vid -> NoDup (map vid_of es) -> NoDup (map vid_of (upsert vid toLabel es)).
Proof.
  intros Hv Hnd. rewrite upsert_vids by done.
  case_bool_decide as H; [done|].
  apply NoDup_app. split; [done|]. split.
  - by intros x Hx ->%list_elem_of_singleton.
  - apply NoDup_singleton.
Qed.

Lemma filter_vid_absent vid es :
  vid ∉ map vid_of es -> filter (fun r => byte.unsigned r.1 = vid) es = [].
Proof.
  induction es as [|r es IH]; [done|]. cbn [map]. intros Hn.
  rewrite filter_cons_False.
  - apply IH. intros ?. apply Hn. by right.
  - intros E. apply Hn. apply elem_of_cons. left. by rewrite <- E.
Qed.

(** After [upsert] there is exactly one record for [vid], and it carries
    the eight bytes of the new label. *)
Lemma upsert_records_for vid toLabel es :
  is_uint8 vid -> NoDup (map vid_of es) ->
  exists b, byte.unsigned b = vid /\
    filter (fun r => byte.unsigned r.1 = vid) (upsert vid toLabel es)
    = [(b, LittleEndian.PutUint64 toLabel)].
Proof.
  intros Hv. induction es as [|r es IH]; cbn [upsert map]; intros Hnd.
  - exists (byte.of_Z vid). pose proof (unsigned_of_Z_uint8 _ Hv) as E.
    split; [done|]. by rewrite filter_cons_True.
  - apply NoDup_cons in Hnd as [Hnin Hnd].
    destruct (Z.eqb_spec (byte.unsigned r.1) vid) as [Heq|Hne].
    + exists r.1. split; [done|]. rewrite filter_cons_True by done.
      f_equal. apply filter_vid_absent. unfold vid_of in Hnin at 1. by rewrite <- Heq.
    + rewrite filter_cons_False by done. by apply IH.
Qed.

(** [upsert] leaves the records of every other version id as they were,
    in their order. *)
Lemma upsert_records_but vid toLabel es :
  is_uint8 vid ->
  filter (fun r => byte.unsigned r.1 <> vid) (upsert vid toLabel es)
  = filter (fun r => byte.unsigned r.1 <> vid) es.
Proof.
  intros Hv. induction es as [|r es IH]; cbn [upsert].
  - rewrite filter_cons_False; [done|].
    cbn [fst]. rewrite unsigned_of_Z_uint8 by done. by intros ?.
  - destruct (Z.eqb_spec (byte.unsigned r.1) vid) as [Heq|Hne].
    + rewrite !filter_cons_False; [done| |]; cbn [fst]; by intros ?.
    + rewrite !filter_cons_True by done. by rewrite IH.
Qed.

Lemma PutUint64_length v : length (LittleEndian.PutUint64 v) = 8%nat.
Proof. apply length_le_split. Qed.

End VmapFacts.

(** ** Allocation: [modify] never writes to an existing array *)

Section MemFacts.

Implicit Types (h : Mem.heap) (s : Mem.slice).

Lemma fresh_loc_unused h : h !! fresh (dom h) = None.
Proof. apply not_elem_of_dom, is_fresh. Qed.

Lemma load_nonempty_lookup h l :
  (length (Mem.load h (Mem.Ref l)) =? 0)%nat = false ->
  h !! l = Some (Mem.load h (Mem.Ref l)).
Proof.
  unfold Mem.load. destruct (h !! l) as [bs|]; [done|].
  cbn. discriminate.
Qed.

Lemma load_insert_eq h l bs : Mem.load (<[l := bs]> h) (Mem.Ref l) = bs.
Proof. unfold Mem.load. by rewrite lookup_insert_eq. Qed.

Lemma load_insert_ne h l l' bs :
  l <> l' -> Mem.load (<[l := bs]> h) (Mem.Ref l') = Mem.load h (Mem.Ref l').
Proof. intros. unfold Mem.load. by rewrite lookup_insert_ne. Qed.

Lemma store_insert h l bs i b :
  (i < length bs)%nat ->
  Mem.store (<[l := bs]> h) (Mem.Ref l) i b = Ok (<[l := <[i := b]> bs]> h).
Proof.
  intros Hi. unfold Mem.store. rewrite load_insert_eq.
  apply Nat.ltb_lt in Hi. rewrite Hi. by rewrite insert_insert_eq.
Qed.

Lemma PutUint64_insert h l bs lo hi v :
  Mem.PutUint64 (<[l := bs]> h) (Mem.Ref l) lo hi v
  = if ((lo + 8 <=? hi) && (hi <=? length bs))%nat
    then Ok (<[l := take lo bs ++ LittleEndian.PutUint64 v ++ drop (lo + 8) bs]> h)
    else Panic.
Proof.
  unfold Mem.PutUint64. rewrite load_insert_eq.
  destruct ((lo + 8 <=? hi) && (hi <=? length bs))%nat; [|done].
  by rewrite insert_insert_eq.
Qed.

Lemma copy_fresh h l l' (bytes : list byte) n :
  h !! l = Some bytes -> l <> l' ->
  Mem.copy (<[l' := replicate (length bytes + n) Byte.x00]> h) (Mem.Ref l') (Mem.Ref l)
  = <[l' := bytes ++ replicate n Byte.x00]> h.
Proof.
  intros Hl Hne. unfold Mem.copy.
  rewrite load_insert_eq, load_insert_ne by done.
  unfold Mem.load. rewrite Hl. cbn [default from_option id].
  rewrite length_replicate, Nat.min_r by lia.
  rewrite take_ge, drop_replicate, insert_insert_eq by lia.
  do 3 f_equal. lia.
Qed.

(** The heap-level [modify] allocates one array at an unused location, fills
    it with what the contents-level [modify] computes, and writes nowhere
    else. It panics exactly when the contents-level function does. *)
Lemma Mem_modify_refines h s vid toLabel :
  Mem.modify h s vid toLabel
  = match Vmap.modify (Mem.load h s) vid toLabel with
    | Ok (out, changed) =>
        Ok (<[fresh (dom h) := out]> h, Mem.Ref (fresh (dom h)), changed)
    | Panic => Panic
    end.
Proof.
  unfold Mem.modify, Vmap.modify, Mem.make.
  pose proof (fresh_loc_unused h) as Hfresh.
  set (l' := fresh (dom h)) in *.
  set (bytes := Mem.load h s).
  destruct (length bytes =? 0)%nat eqn:Hlen.
  - rewrite store_insert by (rewrite length_replicate; lia).
    cbn [mbind result_bind]. rewrite PutUint64_insert.
    simpl. reflexivity.
  - assert (exists l, s = Mem.Ref l /\ h !! l = Some bytes /\ l <> l') as (l & -> & Hl & Hne).
    { destruct s as [|l]; [done|]. exists l. split; [done|].
      pose proof (load_nonempty_lookup _ _ Hlen) as E. split; [done|].
      intros ->. congruence. }
    destruct (Vmap.scan (length bytes) bytes vid 0) as [pos|].
    + pose proof (copy_fresh h l l' bytes 0 Hl Hne) as Hcopy.
      rewrite Nat.add_0_r in Hcopy. rewrite Hcopy.
      cbn [replicate]. rewrite app_nil_r. rewrite PutUint64_insert.
      replace (pos + 1 + 8 <=? pos + 9)%nat with true by (symmetry; apply Nat.leb_le; lia).
      cbn [andb].
      destruct (pos + 9 <=? length bytes)%nat; [|done].
      cbn [mbind result_bind].
      by replace (pos + 1 + 8)%nat with (pos + 9)%nat by lia.
    + rewrite (copy_fresh h l l' bytes 9 Hl Hne).
      rewrite store_insert by (rewrite length_app, length_replicate; lia).
      cbn [mbind result_bind]. rewrite PutUint64_insert.
      rewrite length_insert, length_app, length_replicate.
      replace ((length bytes + 1 + 8 <=? length bytes + 9)
               && (length bytes + 9 <=? length bytes + 9))%nat with true
        by (symmetry; apply andb_true_iff; split; apply Nat.leb_le; lia).
      cbn [mbind result_bind]. do 3 f_equal.
      rewrite insert_app_r_alt, Nat.sub_diag by lia.
      f_equal.
      replace (length bytes + 1 + 8)%nat with (length bytes + 9)%nat by lia.
      rewrite take_app_add, drop_app_add.
      change (<[0%nat:=byte.of_Z vid]> (replicate 9 Byte.x00))
        with (byte.of_Z vid :: replicate 8 Byte.x00).
      change (take 1 (byte.of_Z vid :: replicate 8 Byte.x00)) with [byte.of_Z vid].
      change (drop 9 (byte.of_Z vid :: replicate 8 Byte.x00)) with (@nil byte).
      by rewrite app_nil_r, <- app_assoc.
Qed.

End MemFacts.

Section VmapModify.
Import Vmap.

(** C10: [vmap.modify] is non-destructive and structure-preserving. For a
    vmap whose length is a multiple of 9 and whose version ids are pairwise
    distinct, [modify] returns normally with [changed = true]; the slice it
    returns lives in a newly allocated array, every array that existed
    before the call - the input among them - holds the bytes it held; the
    output is again a whole number of 9-byte records with pairwise distinct
    version ids, has exactly one record for [vid], which carries [toLabel],
    and its records for the other version ids are those of the input, byte
    for byte and in the same order. *)
Theorem modify_fresh_and_structure_preserving
    (h : gmap nat (list byte)) (s : Mem.slice) (vid toLabel : Z) :
  Mem.valid h s ->
  wf (Mem.load h s) ->
  is_uint8 vid -> is_uint64 toLabel ->
  exists h' o out,
    Mem.modify h s vid toLabel = Ok (h', Mem.Ref o, true)
    /\ h !! o = None
    /\ (forall l, l <> o -> h' !! l = h !! l)
    /\ Mem.load h' s = Mem.load h s
    /\ Mem.load h' (Mem.Ref o) = out
    /\ modify (Mem.load h s) vid toLabel = Ok (out, true)
    /\ packed out
    /\ NoDup (vids out)
    /\ (exists r, records_for vid out = [r] /\ label_of r = toLabel)
    /\ records_but vid out = records_but vid (Mem.load h s).
Proof.
  intros Hvalid [Hpacked Hnd] Hvid Hlabel.
  set (bytes := Mem.load h s) in *.
  pose proof (entries_len8 bytes) as Hes.
  pose proof (packed_pack bytes Hpacked) as Hpack.
  set (es := entries bytes) in *.
  pose proof (modify_pack vid toLabel es Hes) as Hmod. rewrite Hpack in Hmod.
  pose proof (upsert_len8 vid toLabel es Hes) as Hes'.
  exists (<[fresh (dom h) := pack (upsert vid toLabel es)]> h),
         (fresh (dom h)), (pack (upsert vid toLabel es)).
  pose proof (fresh_loc_unused h) as Hfresh.
  repeat split.
  - rewrite Mem_modify_refines. fold bytes. by rewrite Hmod.
  - exact Hfresh.
  - intros l Hl. by rewrite lookup_insert_ne.
  - subst bytes. destruct s as [|l]; [done|].
    apply load_insert_ne. intros E. rewrite E in Hfresh.
    destruct Hvalid as [x Hx]. congruence.
  - apply load_insert_eq.
  - exact Hmod.
  - by apply pack_packed.
  - unfold vids. rewrite entries_pack by done. by apply upsert_NoDup.
  - unfold records_for. rewrite entries_pack by done.
    destruct (upsert_records_for vid toLabel es Hvid Hnd) as (b & Hb & Hf).
    exists (b, LittleEndian.PutUint64 toLabel). split; [exact Hf|].
    unfold label_of. cbn [snd]. by apply LE_Uint64_Put.
  - unfold records_but. rewrite entries_pack by done.
    by apply upsert_records_but.
Qed.

Lemma modify_fresh_and_structure_preserving_witness :
  exists h' o out,
    Mem.modify Examples.heap_one_record (Mem.Ref 0) 2 20 = Ok (h', Mem.Ref o, true)
    /\ Examples.heap_one_record !! o = None
    /\ (forall l, l <> o -> h' !! l = Examples.heap_one_record !! l)
    /\ Mem.load h' (Mem.Ref 0) = Mem.load Examples.heap_one_record (Mem.Ref 0)
    /\ Mem.load h' (Mem.Ref o) = out
    /\ modify (Mem.load Examples.heap_one_record (Mem.Ref 0)) 2 20 = Ok (out, true)
    /\ packed out
    /\ NoDup (vids out)
    /\ (exists r, records_for 2 out = [r] /\ label_of r = 20)
    /\ records_but 2 out = records_but 2 (Mem.load Examples.heap_one_record (Mem.Ref 0)).
Proof.
  apply (modify_fresh_and_structure_preserving Examples.heap_one_record (Mem.Ref 0) 2 20).
  - exists [Byte.x01; Byte.x0a; Byte.x00; Byte.x00; Byte.x00; Byte.x00;
            Byte.x00; Byte.x00; Byte.x00]. reflexivity.
  - split; [reflexivity|]. vm_compute. apply NoDup_singleton.
  - unfold is_uint8. lia.
  - unfold is_uint64. lia.
Defined.

End VmapModify.

(** ** Resolving a supervoxel along an ancestry *)

Section ValueFacts.
Import Vmap.

Implicit Types (es : list (byte * list byte)) (anc : list Z).

Lemma index_of_lookup vid es k :
  index_of vid es = Some k ->
  exists r, es !! k = Some r /\ byte.unsigned r.1 = vid.
Proof.
  revert k. induction es as [|r es IH]; intros k; cbn [index_of]; [done|].
  destruct (Z.eqb_spec (byte.unsigned r.1) vid) as [Heq|Hne].
  - intros [= <-]. by exists r.
  - destruct (index_of vid es) as [k'|]; cbn; [|done].
    intros [= <-]. destruct (IH k' eq_refl) as (r' & ? & ?). by exists r'.
Qed.

(** No earlier record carries [vid]. *)
Lemma index_of_first vid es k :
  index_of vid es = Some k ->
  forall j r, (j < k)%nat -> es !! j = Some r -> byte.unsigned r.1 <> vid.
Proof.
  revert k. induction es as [|r es IH]; intros k; cbn [index_of]; [done|].
  destruct (Z.eqb_spec (byte.unsigned r.1) vid) as [Heq|Hne].
  - intros [= <-] j r' Hj. lia.
  - destruct (index_of vid es) as [k'|]; cbn; [|done].
    intros [= <-] [|j] r' Hj; cbn.
    + by intros [= <-].
    + apply (IH k' eq_refl). lia.
Qed.

Lemma index_of_None vid es :
  index_of vid es = None <-> vid ∉ map vid_of es.
Proof.
  induction es as [|r es IH]; cbn [index_of map].
  - split; [intros _; apply not_elem_of_nil|done].
  - destruct (Z.eqb_spec (byte.unsigned r.1) vid) as [Heq|Hne].
    + split; [done|]. intros Hn. exfalso. apply Hn. apply elem_of_cons. by left.
    + destruct (index_of vid es) as [k'|]; cbn.
      * split; [done|]. intros Hn. exfalso.
        assert (vid ∉ map vid_of es) as Hn' by (intros ?; apply Hn, elem_of_cons; by right).
        apply IH in Hn'. done.
      * split; [|done]. intros _ [?|?]%elem_of_cons.
        -- apply Hne. by unfold vid_of in *.
        -- by apply IH.
Qed.

Lemma record_label_take es k r :
  Forall len8 es -> es !! k = Some r ->
  take 8 (drop (9 * k + 1) (pack es)) = r.2.
Proof.
  intros Hes. revert k.
  induction Hes as [|r0 es Hr Hes IH]; intros k Hk; [done|].
  rewrite pack_cons. destruct k as [|k].
  - injection Hk as <-.
    change (9 * 0 + 1)%nat with 1%nat. cbn [drop]. rewrite drop_0.
    rewrite take_app_length'; [done|]. symmetry. exact Hr.
  - change (r0.1 :: r0.2 ++ pack es) with ((r0.1 :: r0.2) ++ pack es).
    replace (9 * S k + 1)%nat with (length (r0.1 :: r0.2) + (9 * k + 1))%nat
      by (unfold len8 in Hr; cbn [length]; lia).
    rewrite drop_app_add. apply IH. exact Hk.
Qed.

Lemma record_label_bytes es k r :
  Forall len8 es -> es !! k = Some r ->
  slice (pack es) (9 * k + 1) (9 * k + 9) = Ok r.2.
Proof.
  intros Hes Hk. unfold slice. rewrite (pack_length _ Hes).
  pose proof (lookup_lt_Some _ _ _ Hk) as Hkl.
  replace ((9 * k + 1 <=? 9 * k + 9) && (9 * k + 9 <=? 9 * length es))%nat
    with true by (symmetry; apply andb_true_iff; split; apply Nat.leb_le; lia).
  f_equal. replace (9 * k + 9 - (9 * k + 1))%nat with 8%nat by lia.
  by apply record_label_take.
Qed.

(** [value] on a packed vmap: the label of the first record of the first
    version id of the ancestry that has a record, and [(0, false)] when no
    id of the ancestry has one. It never panics. *)
Lemma value_resolve es anc :
  Forall len8 es ->
  value (pack es) anc
  = Ok (from_option (fun l => (l, true)) (0, false) (SVMap.resolve es anc)).
Proof.
  intros Hes. unfold value. rewrite (pack_length _ Hes).
  destruct es as [|r0 es0].
  - cbn. induction anc as [|vid anc IH]; [done|]. cbn. exact IH.
  - remember (r0 :: es0) as es eqn:Ees.
    replace (9 * length es =? 0)%nat with false
      by (symmetry; apply Nat.eqb_neq; subst; simpl; lia).
    clear Ees r0 es0.
    induction anc as [|vid anc IH]; [done|].
    cbn [value_range SVMap.resolve].
    rewrite (pack_length _ Hes), scan_pack by (done || lia).
    destruct (index_of vid es) as [k|] eqn:E; cbn [fmap option_fmap option_map].
    + destruct (index_of_lookup _ _ _ E) as (r & Hr & _).
      rewrite (record_label_bytes es k r Hes Hr), Hr. reflexivity.
    + exact IH.
Qed.

End ValueFacts.

(** ** Short version ids and the supervoxel map *)

Section SVMapFacts.
Import SVMap.

Implicit Types (svm : t) (v vid supervoxel label : Z).

Lemma inv_empty : inv empty.
Proof.
  split; cbn; try done.
Qed.

Lemma createShortVersion_known svm v vid :
  versions svm !! v = Some vid -> createShortVersion svm v = (svm, vid, None).
Proof. intros H. unfold createShortVersion. by rewrite H. Qed.

Lemma createShortVersion_limit svm v :
  versions svm !! v = None -> numVersions svm = 255 ->
  createShortVersion svm v = (svm, 0, Some ErrVersionLimit).
Proof. intros H1 H2. unfold createShortVersion. by rewrite H1, H2. Qed.

Lemma createShortVersion_new svm v :
  versions svm !! v = None -> numVersions svm <> 255 ->
  createShortVersion svm v
  = (mk (fm svm) (<[v := numVersions svm]> (versions svm))
        (<[numVersions svm := v]> (versionsRev svm))
        (ancestry svm) (wrap8 (numVersions svm + 1)),
     numVersions svm, None).
Proof.
  intros H1 H2. unfold createShortVersion. rewrite H1.
  apply Z.eqb_neq in H2. by rewrite H2.
Qed.

(** A second call for the same version returns what the first returned and
    changes nothing. *)
Lemma createShortVersion_idempotent svm v :
  createShortVersion (createShortVersion svm v).1.1 v = createShortVersion svm v.
Proof.
  destruct (versions svm !! v) as [vid|] eqn:E.
  - rewrite (createShortVersion_known _ _ _ E). cbn [fst].
    by apply createShortVersion_known.
  - destruct (Z.eq_dec (numVersions svm) 255) as [H|H].
    + rewrite (createShortVersion_limit _ _ E H). cbn [fst].
      by apply createShortVersion_limit.
    + rewrite (createShortVersion_new _ _ E H). cbn [fst].
      apply createShortVersion_known. cbn. apply lookup_insert_eq.
Qed.

Lemma createShortVersion_inv svm v :
  inv svm -> inv (createShortVersion svm v).1.1.
Proof.
  intros [Hp Hc Hs Hi Hr].
  destruct (versions svm !! v) as [vid|] eqn:E.
  { rewrite (createShortVersion_known _ _ _ E). by split. }
  destruct (Z.eq_dec (numVersions svm) 255) as [H|H].
  { rewrite (createShortVersion_limit _ _ E H). by split. }
  rewrite (createShortVersion_new _ _ E H). cbn [fst].
  assert (Hw : wrap8 (numVersions svm + 1) = numVersions svm + 1)
    by (unfold wrap8; apply Z.mod_small; lia).
  split; cbn [fm versions versionsRev numVersions]; rewrite ?Hw.
  - exact Hp.
  - lia.
  - rewrite map_size_insert_None by done. rewrite Hs. lia.
  - intros v' vid'. rewrite lookup_insert. case_decide as Hd.
    + intros [= <-]. lia.
    + intros Hv'. apply Hi in Hv'. lia.
  - intros v' vid'. rewrite !lookup_insert.
    destruct (decide (v = v')) as [->|Hv]; destruct (decide (numVersions svm = vid')) as [<-|Hn].
    + done.
    + split; [intros [= ?]; done|].
      intros Hx. apply Hr in Hx. congruence.
    + split; [|intros [= ?]; done].
      intros Hx. apply Hi in Hx. lia.
    + apply Hr.
Qed.

Lemma entry_packed svm supervoxel :
  inv svm -> Vmap.packed (default [] (fm svm !! supervoxel)).
Proof.
  intros Hinv. destruct (fm svm !! supervoxel) as [vm|] eqn:E; cbn.
  - by apply (inv_packed _ Hinv supervoxel).
  - reflexivity.
Qed.

(** [MapSupervoxel] returns normally; it fails exactly when a new version
    meets a count of 255, and then it changes nothing. *)
Lemma MapSupervoxel_result svm v supervoxel label :
  inv svm ->
  exists svm',
    MapSupervoxel svm v supervoxel label
    = Ok (svm', (createShortVersion svm v).2)
    /\ inv svm'
    /\ versions svm' = versions (createShortVersion svm v).1.1
    /\ versionsRev svm' = versionsRev (createShortVersion svm v).1.1
    /\ numVersions svm' = numVersions (createShortVersion svm v).1.1
    /\ ((createShortVersion svm v).2 <> None -> svm' = svm).
Proof.
  intros Hinv. unfold MapSupervoxel.
  pose proof (createShortVersion_inv svm v Hinv) as Hinv1.
  destruct (createShortVersion svm v) as [[svm1 vid] err] eqn:E. cbn [fst snd] in *.
  destruct err as [e|].
  - exists svm1. split_and!; try done. intros _.
    unfold createShortVersion in E.
    destruct (versions svm !! v); [by injection E|].
    destruct (numVersions svm =? 255); by injection E.
  - pose proof (entry_packed svm1 supervoxel Hinv1) as Hpk.
    rewrite <- (packed_pack _ Hpk).
    rewrite modify_pack by apply entries_len8.
    cbn [mbind result_bind].
    eexists. split; [reflexivity|]. split_and!; try done.
    destruct Hinv1 as [Hp Hc Hs Hi Hr]. split; try done.
    cbn [fm set_fm]. intros s vm. rewrite lookup_insert. case_decide.
    + intros [= <-]. apply pack_packed, upsert_len8, entries_len8.
    + apply Hp.
Qed.

(** Mapping a supervoxel in versions that are all new succeeds for each
    of them as long as the count stays within 255. *)
Lemma map_in_versions_new supervoxel label vs :
  forall svm,
    inv svm -> NoDup vs ->
    (forall v, v ∈ vs -> versions svm !! v = None) ->
    numVersions svm + Z.of_nat (length vs) <= 255 ->
    exists svm',
      map_in_versions svm vs supervoxel label
      = Ok (svm', replicate (length vs) None)
      /\ inv svm'
      /\ numVersions svm' = numVersions svm + Z.of_nat (length vs)
      /\ (forall v, v ∉ vs -> versions svm' !! v = versions svm !! v).
Proof.
  induction vs as [|v vs IH]; intros svm Hinv Hnd Hnew Hcount.
  - exists svm. cbn. split_and!; try done. lia.
  - apply NoDup_cons in Hnd as [Hv Hnd].
    cbn [length] in Hcount.
    pose proof (inv_count _ Hinv) as Hc.
    assert (Hnv : versions svm !! v = None) by (apply Hnew; left).
    assert (Hne : numVersions svm <> 255) by lia.
    destruct (MapSupervoxel_result svm v supervoxel label Hinv)
      as (svm1 & Hmap & Hinv1 & Hvers & _ & Hnum & _).
    rewrite (createShortVersion_new _ _ Hnv Hne) in Hmap, Hvers, Hnum.
    cbn [fst snd versions numVersions] in Hmap, Hvers, Hnum.
    assert (Hw : wrap8 (numVersions svm + 1) = numVersions svm + 1)
      by (unfold wrap8; apply Z.mod_small; lia).
    rewrite Hw in Hnum.
    destruct (IH svm1 Hinv1 Hnd) as (svm' & Hrest & Hinv' & Hnum' & Hvers').
    { intros v' Hv'. rewrite Hvers, lookup_insert_ne; [|by intros ->].
      apply Hnew. by right. }
    { lia. }
    exists svm'. cbn [map_in_versions]. rewrite Hmap. cbn [mbind result_bind fst snd].
    rewrite Hrest. cbn [mbind result_bind fst snd replicate length].
    split_and!; try done.
    + lia.
    + intros v' Hv'. rewrite Hvers' by (intros ?; apply Hv'; by right).
      rewrite Hvers, lookup_insert_ne; [done|].
      intros ->. apply Hv'. left.
Qed.

(** A map in which 255 versions hold the short ids 0..254: the versions
    0..254 each mapped one supervoxel. Id 255 is in neither table. *)
Lemma svm_with_255_versions supervoxel label :
  exists svm,
    map_in_versions empty (seqZ 0 255) supervoxel label
    = Ok (svm, replicate 255 None)
    /\ inv svm
    /\ numVersions svm = 255
    /\ size (versions svm) = 255%nat
    /\ versions svm !! 255 = None
    /\ versionsRev svm !! 255 = None.
Proof.
  destruct (map_in_versions_new supervoxel label (seqZ 0 255) empty)
    as (svm & Hrun & Hinv & Hnum & Hvers).
  - apply inv_empty.
  - apply NoDup_seqZ.
  - intros v _. apply lookup_empty.
  - rewrite length_seqZ. cbn. lia.
  - rewrite length_seqZ in Hrun, Hnum. cbn in Hnum.
    exists svm. split_and!; try done.
    + rewrite (inv_size _ Hinv), Hnum. reflexivity.
    + rewrite Hvers; [apply lookup_empty|].
      intros [_ ?]%elem_of_seqZ. lia.
    + destruct (versionsRev svm !! 255) as [v|] eqn:E; [|done].
      apply (inv_rev _ Hinv) in E. apply (inv_ids _ Hinv) in E. lia.
Qed.

(** C2: an SVMap hosts 255 versions, not 256. After the versions 0..254
    have each mapped a supervoxel without error (short ids 0..254), the
    mutation for the 256th distinct version, 255, returns the version
    limit error and leaves the map as it was, although short id 255 is in
    neither table. *)
Theorem MapSupervoxel_256th_version_fails :
  exists svm,
    SVMap.map_in_versions SVMap.empty (seqZ 0 255) 1 9
    = Ok (svm, replicate 255 None)
    /\ SVMap.numVersions svm = 255
    /\ size (SVMap.versions svm) = 255%nat
    /\ SVMap.versions svm !! 255 = None
    /\ SVMap.versionsRev svm !! 255 = None
    /\ SVMap.MapSupervoxel svm 255 1 9 = Ok (svm, Some ErrVersionLimit).
Proof.
  destruct (svm_with_255_versions 1 9) as (svm & Hrun & Hinv & Hnum & Hsize & Hv & Hr).
  exists svm. split_and!; try assumption.
  destruct (MapSupervoxel_result svm 255 1 9 Hinv) as (svm' & Hmap & _ & _ & _ & _ & Hsame).
  rewrite (createShortVersion_limit _ _ Hv Hnum) in Hmap, Hsame.
  cbn [snd] in Hmap, Hsame. rewrite Hmap, Hsame; [reflexivity|discriminate].
Qed.

(** C9: allocation is idempotent, but a first call does not always assign
    the next free id of 0..255. With 255 versions registered (ids 0..254),
    the first call for a new version finds id 255 free in both tables and
    returns the version limit error without assigning it; the second call
    returns the same and changes nothing. *)
Theorem createShortVersion_never_assigns_id_255 :
  exists svm,
    SVMap.map_in_versions SVMap.empty (seqZ 0 255) 1 9
    = Ok (svm, replicate 255 None)
    /\ SVMap.versions svm !! 255 = None
    /\ SVMap.versionsRev svm !! 255 = None
    /\ SVMap.createShortVersion svm 255 = (svm, 0, Some ErrVersionLimit)
    /\ SVMap.createShortVersion (SVMap.createShortVersion svm 255).1.1 255
       = (svm, 0, Some ErrVersionLimit).
Proof.
  destruct (svm_with_255_versions 1 9) as (svm & Hrun & Hinv & Hnum & Hsize & Hv & Hr).
  exists svm. split_and!; try assumption.
  - by apply createShortVersion_limit.
  - rewrite createShortVersion_idempotent. by apply createShortVersion_limit.
Qed.

(** The parts of the allocation rule that hold in every state: a call for
    a registered version returns its id and changes nothing, and a call for
    a new version below the limit assigns [numVersions], records it in both
    tables and counts it. *)
Lemma createShortVersion_allocates svm v :
  inv svm -> versions svm !! v = None -> numVersions svm <> 255 ->
  exists svm',
    createShortVersion svm v = (svm', numVersions svm, None)
    /\ 0 <= numVersions svm <= 254
    /\ versionsRev svm !! numVersions svm = None
    /\ versions svm' !! v = Some (numVersions svm)
    /\ versionsRev svm' !! numVersions svm = Some v
    /\ numVersions svm' = numVersions svm + 1
    /\ fm svm' = fm svm.
Proof.
  intros Hinv Hv Hn. rewrite (createShortVersion_new _ _ Hv Hn).
  pose proof (inv_count _ Hinv) as Hc.
  eexists. split; [reflexivity|]. cbn. split_and!; try lia.
  - destruct (versionsRev svm !! numVersions svm) as [v'|] eqn:E; [|done].
    apply (inv_rev _ Hinv) in E. apply (inv_ids _ Hinv) in E. lia.
  - apply lookup_insert_eq.
  - apply lookup_insert_eq.
  - unfold wrap8. apply Z.mod_small. lia.
  - done.
Qed.

End SVMapFacts.

(** ** [MappedLabel] *)

Section MappedLabelFacts.
Import SVMap.

Variable GetAncestry : Z -> option (list Z).

Lemma MappedLabel_absent m v label :
  fm m !! label = None ->
  MappedLabel GetAncestry (Some m) v label = Ok (Some m, (label, false)).
Proof.
  intros H. unfold MappedLabel. rewrite H. by destruct (size (fm m) =? 0)%nat.
Qed.

(** With a packed vmap for the supervoxel, [MappedLabel] resolves it along
    the short ids that [getAncestry] returns: the label of the first id
    with a record, [true]; and [(0, false)] when no id has one. *)
Lemma MappedLabel_resolve m m' v label vm anc :
  fm m !! label = Some vm -> Vmap.packed vm ->
  getAncestry GetAncestry m v = Ok (m', Some anc) ->
  MappedLabel GetAncestry (Some m) v label
  = Ok (Some m', from_option (fun l => (l, true)) (0, false)
                   (resolve (Vmap.entries vm) anc)).
Proof.
  intros Hvm Hpk Hanc. unfold MappedLabel.
  assert (size (fm m) <> 0%nat) as Hsz.
  { intros Hz. apply map_size_empty_iff in Hz. rewrite Hz in Hvm.
    by rewrite lookup_empty in Hvm. }
  apply Nat.eqb_neq in Hsz. rewrite Hsz, Hvm, Hanc.
  cbn [mbind result_bind].
  rewrite <- (packed_pack _ Hpk) at 1.
  rewrite value_resolve by apply entries_len8. reflexivity.
Qed.

Lemma resolve_hidden es anc :
  (forall vid, vid ∈ anc -> vid ∉ map Vmap.vid_of es) -> resolve es anc = None.
Proof.
  induction anc as [|vid anc IH]; intros Hhid; [done|].
  cbn [resolve].
  assert (Vmap.index_of vid es = None) as ->
    by (apply index_of_None, Hhid; left).
  apply IH. intros vid' Hin. apply Hhid. by right.
Qed.

(** A supervoxel that has records, none of them for a short id of the
    ancestry, comes back as [(0, false)], whatever the supervoxel. *)
Lemma MappedLabel_hidden m m' v label vm anc :
  fm m !! label = Some vm -> Vmap.packed vm ->
  getAncestry GetAncestry m v = Ok (m', Some anc) ->
  (forall vid, vid ∈ anc -> vid ∉ Vmap.vids vm) ->
  MappedLabel GetAncestry (Some m) v label = Ok (Some m', (0, false)).
Proof.
  intros Hvm Hpk Hanc Hhid.
  rewrite (MappedLabel_resolve m m' v label vm anc Hvm Hpk Hanc).
  by rewrite resolve_hidden.
Qed.

End MappedLabelFacts.

(** C1: [MappedLabel] does not map a supervoxel to itself when it has
    records but none in the ancestry of the version asked for. On a new map,
    version 1 maps supervoxel 7 to label 10; version 0 is the parent of
    version 1. Asked at version 1, [MappedLabel] returns (10, true); asked
    at version 0, whose ancestry has no record for 7, it returns (0, false)
    and not (7, false); for supervoxel 8, which has no vmap at all, it
    returns (8, false). *)
Theorem MappedLabel_hidden_record_returns_zero :
  (r ← SVMap.MapSupervoxel SVMap.empty 1 7 10;
   lp ← SVMap.MappedLabel Examples.chain (Some r.1) 0 7;
   Ok (r.2, lp.2)) = Ok (None, (0, false))
  /\ (r ← SVMap.MapSupervoxel SVMap.empty 1 7 10;
      lp ← SVMap.MappedLabel Examples.chain (Some r.1) 1 7;
      Ok lp.2) = Ok (10, true)
  /\ (r ← SVMap.MapSupervoxel SVMap.empty 1 7 10;
      lp ← SVMap.MappedLabel Examples.chain (Some r.1) 0 8;
      Ok lp.2) = Ok (8, false).
Proof. split_and!; vm_compute; reflexivity. Qed.

(** ** Run-length encoding *)

Section RLEFacts.
Import RLE.

Lemma int32_small z : is_int32 z -> int32 z = z.
Proof.
  unfold is_int32, int32. intros H. rewrite Z.mod_small by lia. lia.
Qed.

Lemma int32_range z : is_int32 (int32 z).
Proof.
  unfold is_int32, int32.
  pose proof (Z.mod_pos_bound (z + 2 ^ 31) (2 ^ 32) ltac:(lia)). lia.
Qed.

Lemma int32_add_l a b : int32 (int32 a + b) = int32 (a + b).
Proof.
  unfold int32. f_equal.
  replace ((a + 2 ^ 31) mod 2 ^ 32 - 2 ^ 31 + b + 2 ^ 31)
    with ((a + 2 ^ 31) mod 2 ^ 32 + b) by lia.
  rewrite Z.add_mod_idemp_l by lia. f_equal. lia.
Qed.

Lemma int32_add_r a b : int32 (a + int32 b) = int32 (a + b).
Proof. rewrite Z.add_comm, int32_add_l. f_equal. lia. Qed.

Lemma int32_mod z : int32 (z mod 2 ^ 32) = int32 z.
Proof.
  unfold int32. f_equal. rewrite Z.add_mod_idemp_l by lia. reflexivity.
Qed.

Lemma writeInt32_length x : length (writeInt32 x) = 4%nat.
Proof. apply length_le_split. Qed.

(** Four bytes written for an [int32] read back as that [int32]. *)
Lemma read_writeInt32 x rest :
  is_int32 x -> int32 (LittleEndian.Uint32 (writeInt32 x ++ rest)) = x.
Proof.
  intros Hx. unfold LittleEndian.Uint32.
  rewrite (take_app_length' (writeInt32 x) rest 4) by (symmetry; apply writeInt32_length).
  unfold writeInt32, LittleEndian.PutUint32. rewrite le_combine_split.
  change (Z.of_nat 4 * 8) with 32. rewrite int32_mod. by apply int32_small.
Qed.

Lemma run_bytes_length start l : length (run_bytes start l) = 16%nat.
Proof. unfold run_bytes. rewrite !length_app, !writeInt32_length. reflexivity. Qed.

Lemma encode_range_zip ss : forall pre ls,
  length ss = length ls ->
  encode_range ss (pre ++ ls) (length pre)
  = Ok (concat (zip_with run_bytes ss ls)).
Proof.
  induction ss as [|start ss IH]; intros pre ls Hlen; [done|].
  destruct ls as [|l ls]; [done|]. cbn [encode_range].
  rewrite lookup_app_r, Nat.sub_diag by lia. cbn [lookup list_lookup].
  replace (pre ++ l :: ls) with ((pre ++ [l]) ++ ls) by (by rewrite <- app_assoc).
  replace (S (length pre)) with (length (pre ++ [l])) by (rewrite length_app; simpl; lia).
  rewrite IH by (simpl in Hlen; lia). reflexivity.
Qed.

Lemma concat_runs_length ss ls :
  length ss = length ls ->
  length (concat (zip_with run_bytes ss ls)) = (16 * length ss)%nat.
Proof.
  revert ls. induction ss as [|start ss IH]; intros [|l ls] Hlen; try done.
  cbn [zip_with concat]. rewrite length_app, run_bytes_length, IH by (simpl in Hlen; lia).
  simpl. lia.
Qed.

(** A slice of [16 * n] bytes is [n] groups of 16. *)
Lemma groups_of_16 n : forall bs : list byte,
  length bs = (16 * n)%nat ->
  exists gs, bs = concat gs /\ Forall len16 gs /\ length gs = n.
Proof.
  induction n as [|n IH]; intros bs Hlen.
  - exists []. apply length_zero_iff_nil in Hlen. by subst.
  - destruct (IH (drop 16 bs)) as (gs & Hc & Hf & Hn).
    { rewrite length_drop. lia. }
    exists (take 16 bs :: gs). split_and!.
    + cbn [concat]. by rewrite <- Hc, take_drop.
    + constructor; [|done]. unfold len16. rewrite length_take. lia.
    + simpl. lia.
Qed.

Lemma Uint32_drop12_app g rest :
  len16 g -> LittleEndian.Uint32 (drop 12 (g ++ rest)) = LittleEndian.Uint32 (drop 12 g).
Proof.
  intros Hg. unfold LittleEndian.Uint32. rewrite drop_app_le by (unfold len16 in Hg; lia).
  rewrite take_app_length'; [|rewrite length_drop; unfold len16 in Hg; lia].
  rewrite take_ge; [done|]. rewrite length_drop. unfold len16 in Hg. lia.
Qed.

Lemma run_lengths_concat gs :
  Forall len16 gs -> run_lengths (length gs) (concat gs) = map group_length gs.
Proof.
  induction 1 as [|g gs Hg Hgs IH]; [done|].
  cbn [length run_lengths concat map]. rewrite Uint32_drop12_app by done.
  rewrite drop_app_length' by (symmetry; exact Hg). by rewrite IH.
Qed.

(** One round of the loop of [statsRuns] on a full group. *)
Lemma stats_loop_group fuel g rest nv nr :
  len16 g ->
  stats_loop (S fuel) (g ++ rest) nv nr
  = stats_loop fuel rest (int32 (nv + group_length g)) (int32 (nr + 1)).
Proof.
  intros Hg. cbn [stats_loop].
  rewrite length_app, Hg.
  replace (Nat.min 12 (16 + length rest) =? 0)%nat with false
    by (symmetry; apply Nat.eqb_neq; lia).
  replace (length (drop 12 (g ++ rest)) <? 4)%nat with false
    by (symmetry; apply Nat.ltb_ge; rewrite length_drop, length_app, Hg; lia).
  rewrite Uint32_drop12_app by done.
  rewrite drop_drop. change (12 + 4)%nat with 16%nat.
  by rewrite drop_app_length' by (symmetry; exact Hg).
Qed.

Lemma stats_loop_concat gs : forall fuel nv nr,
  Forall len16 gs -> (length gs < fuel)%nat ->
  stats_loop fuel (concat gs) nv nr
  = (fold_left (fun a g => int32 (a + group_length g)) gs nv,
     fold_left (fun a _ => int32 (a + 1)) gs nr, None).
Proof.
  induction gs as [|g gs IH]; intros fuel nv nr Hf Hfuel.
  - destruct fuel; [simpl in Hfuel; lia|]. reflexivity.
  - apply Forall_cons in Hf as [Hg Hf].
    destruct fuel as [|fuel]; [simpl in Hfuel; lia|].
    cbn [concat]. rewrite stats_loop_group by done.
    rewrite IH by (done || simpl in Hfuel; lia). reflexivity.
Qed.

Lemma fold_int32_sum (A : Type) (f : A -> Z) (l : list A) : forall a,
  int32 (fold_left (fun a g => int32 (a + f g)) l a) = int32 (a + sumZ (map f l)).
Proof.
  induction l as [|x l IH]; intros a; cbn [fold_left map sumZ fold_right].
  - f_equal. lia.
  - rewrite IH, int32_add_l. f_equal. unfold sumZ. lia.
Qed.

Lemma fold_int32_is_int32 (A : Type) (f : A -> Z) (l : list A) : forall a,
  is_int32 a -> is_int32 (fold_left (fun a g => int32 (a + f g)) l a).
Proof.
  induction l as [|x l IH]; intros a Ha; cbn [fold_left]; [done|].
  apply IH, int32_range.
Qed.

Lemma is_int32_0 : is_int32 0.
Proof. unfold is_int32. lia. Qed.

Lemma sumZ_const_1 (A : Type) (l : list A) : sumZ (map (fun _ => 1) l) = Z.of_nat (length l).
Proof. induction l as [|x l IH]; [done|]. cbn [map sumZ fold_right length]. unfold sumZ in IH. lia. Qed.

(** [statsRuns] on a well-sized encoding: the run lengths summed in
    [int32], and the number of groups. *)
Lemma statsRuns_groups (encoding : list byte) (n : nat) :
  length encoding = (16 * n)%nat ->
  statsRuns encoding
  = (int32 (sumZ (run_lengths n encoding)), int32 (Z.of_nat n), None).
Proof.
  intros Hlen. unfold statsRuns. rewrite Hlen.
  replace (16 * n mod 16 =? 0)%nat with true
    by (symmetry; apply Nat.eqb_eq; rewrite Nat.mul_comm; apply Nat.Div0.mod_mul).
  cbn [negb].
  destruct (groups_of_16 n encoding Hlen) as (gs & -> & Hgs & <-).
  rewrite stats_loop_concat by (done || lia).
  rewrite run_lengths_concat by done.
  f_equal. f_equal.
  - rewrite <- (int32_small _ (fold_int32_is_int32 _ group_length gs 0 is_int32_0)).
    by rewrite fold_int32_sum.
  - rewrite <- (int32_small _ (fold_int32_is_int32 _ (fun _ => 1) gs 0 is_int32_0)).
    rewrite fold_int32_sum, sumZ_const_1. reflexivity.
Qed.

Lemma statsRuns_malformed (encoding : list byte) :
  (length encoding mod 16 <> 0)%nat ->
  statsRuns encoding = (0, 0, Some ErrMalformedRLE).
Proof.
  intros H. unfold statsRuns. apply Nat.eqb_neq in H. by rewrite H.
Qed.

Lemma run_lengths_encoded ss : forall ls,
  length ss = length ls -> Forall is_int32 ls ->
  run_lengths (length ss) (concat (zip_with run_bytes ss ls)) = ls.
Proof.
  induction ss as [|start ss IH]; intros [|l ls] Hlen Hls; try done.
  apply Forall_cons in Hls as [Hl Hls].
  cbn [length run_lengths zip_with concat].
  rewrite (drop_app_length' (run_bytes start l) _ 16)
    by (symmetry; apply run_bytes_length).
  rewrite IH by (done || simpl in Hlen; lia). f_equal.
  unfold run_bytes. rewrite !app_assoc, <- (app_assoc _ (writeInt32 l)).
  rewrite drop_app_length' by (rewrite !length_app, !writeInt32_length; reflexivity).
  by apply read_writeInt32.
Qed.

Lemma run_bytes_fields start l :
  is_int32 (px start) -> is_int32 (py start) -> is_int32 (pz start) -> is_int32 l ->
  int32 (LittleEndian.Uint32 (run_bytes start l)) = px start
  /\ int32 (LittleEndian.Uint32 (drop 4 (run_bytes start l))) = py start
  /\ int32 (LittleEndian.Uint32 (drop 8 (run_bytes start l))) = pz start
  /\ int32 (LittleEndian.Uint32 (drop 12 (run_bytes start l))) = l.
Proof.
  intros Hx Hy Hz Hl. unfold run_bytes. split_and!.
  - by apply read_writeInt32.
  - rewrite drop_app_length' by (symmetry; apply writeInt32_length).
    by apply read_writeInt32.
  - rewrite app_assoc.
    rewrite drop_app_length' by (rewrite length_app, !writeInt32_length; reflexivity).
    by apply read_writeInt32.
  - rewrite !app_assoc. rewrite <- (app_nil_r (writeInt32 l)).
    rewrite drop_app_length' by (rewrite !length_app, !writeInt32_length; reflexivity).
    by apply read_writeInt32.
Qed.

Lemma mod16_groups (n : nat) : (n mod 16 = 0)%nat -> n = (16 * (n / 16))%nat.
Proof. intros H. pose proof (Nat.div_mod_eq n 16). lia. Qed.

(** C4: the run-length encoding and its reader. For slices of run starts
    and run lengths with the same number [n] of entries, [encodeRuns]
    returns exactly [16 * n] bytes, the runs in order, each as the four
    little-endian [int32]s start.x, start.y, start.z, length (it adds an
    error when a slice is nil, which can only be with [n = 0]). [statsRuns]
    returns the malformed-RLE error exactly when the length of its input is
    not a multiple of 16; otherwise it returns no error, [numRuns = len/16]
    and [numVoxels] the sum of the run lengths stored in the input, both in
    [int32] arithmetic, hence exact when they fit an [int32]. *)
Theorem encodeRuns_statsRuns_format
    (starts : option (list Point3d)) (lengths : option (list Z))
    (encoding : list byte) :
  (len starts = len lengths ->
    exists bs err,
      encodeRuns starts lengths = Ok (bs, err)
      /\ length bs = (16 * len starts)%nat
      /\ bs = concat (zip_with run_bytes (default [] starts) (default [] lengths))
      /\ (err = None <-> starts <> None /\ lengths <> None)
      /\ (Forall is_int32 (default [] lengths) ->
            run_lengths (len starts) bs = default [] lengths
            /\ statsRuns bs
               = (int32 (sumZ (default [] lengths)), int32 (Z.of_nat (len starts)), None)))
  /\ (forall start l,
        is_int32 (px start) -> is_int32 (py start) -> is_int32 (pz start) -> is_int32 l ->
        length (run_bytes start l) = 16%nat
        /\ int32 (LittleEndian.Uint32 (run_bytes start l)) = px start
        /\ int32 (LittleEndian.Uint32 (drop 4 (run_bytes start l))) = py start
        /\ int32 (LittleEndian.Uint32 (drop 8 (run_bytes start l))) = pz start
        /\ int32 (LittleEndian.Uint32 (drop 12 (run_bytes start l))) = l)
  /\ ((statsRuns encoding).2 = Some ErrMalformedRLE <-> (length encoding mod 16 <> 0)%nat)
  /\ ((length encoding mod 16 = 0)%nat ->
        statsRuns encoding
        = (int32 (sumZ (run_lengths (length encoding / 16) encoding)),
           int32 (Z.of_nat (length encoding / 16)), None))
  /\ ((length encoding mod 16 = 0)%nat ->
        is_int32 (sumZ (run_lengths (length encoding / 16) encoding)) ->
        is_int32 (Z.of_nat (length encoding / 16)) ->
        statsRuns encoding
        = (sumZ (run_lengths (length encoding / 16) encoding),
           Z.of_nat (length encoding / 16), None)).
Proof.
  assert (Hgroups : (length encoding mod 16 = 0)%nat ->
            statsRuns encoding
            = (int32 (sumZ (run_lengths (length encoding / 16) encoding)),
               int32 (Z.of_nat (length encoding / 16)), None)).
  { intros Hmod. apply statsRuns_groups. by apply mod16_groups. }
  split_and!.
  - intros Hlen. unfold encodeRuns, len in *.
    destruct starts as [ss|]; destruct lengths as [ls|]; cbn [default from_option id] in *.
    + apply Nat.eqb_eq in Hlen as Hb. rewrite Hb.
      pose proof (encode_range_zip ss [] ls Hlen) as Henc. cbn [app length] in Henc.
      rewrite Henc. cbn [mbind result_bind].
      eexists _, _. split; [reflexivity|]. split_and!.
      * by apply concat_runs_length.
      * reflexivity.
      * done.
      * intros Hls. split; [by apply run_lengths_encoded|].
        rewrite (statsRuns_groups _ (length ss)) by (by apply concat_runs_length).
        by rewrite run_lengths_encoded.
    + destruct ss; [|done]. eexists _, _. split; [reflexivity|].
      split_and!; try done. split; [done|]. by intros [_ ?].
    + destruct ls; [|done]. eexists _, _. split; [reflexivity|].
      split_and!; try done. split; [done|]. by intros [? _].
    + eexists _, _. split; [reflexivity|].
      split_and!; try done. split; [done|]. by intros [? _].
  - intros start l Hx Hy Hz Hl. split; [apply run_bytes_length|].
    by apply run_bytes_fields.
  - split.
    + intros Herr. intros Hmod. rewrite (Hgroups Hmod) in Herr. done.
    + intros Hmod. by rewrite statsRuns_malformed.
  - exact Hgroups.
  - intros Hmod Hs Hn. rewrite (Hgroups Hmod).
    by rewrite !int32_small.
Qed.

Lemma encodeRuns_statsRuns_format_witness :
  (exists bs err,
      encodeRuns (Some [point 1 2 3]) (Some [4]) = Ok (bs, err)
      /\ length bs = 16%nat
      /\ bs = concat (zip_with run_bytes [point 1 2 3] [4])
      /\ (err = None <-> Some [point 1 2 3] <> None /\ Some [4] <> None)
      /\ (Forall is_int32 [4] ->
            run_lengths 1 bs = [4] /\ statsRuns bs = (int32 4, int32 1, None)))
  /\ int32 (LittleEndian.Uint32 (drop 12 (run_bytes (point 1 2 3) 4))) = 4
  /\ statsRuns one_run = (4, 1, None).
Proof.
  destruct (encodeRuns_statsRuns_format (Some [point 1 2 3]) (Some [4]) one_run)
    as (H1 & H2 & _ & _ & H5).
  split_and!.
  - apply H1. reflexivity.
  - apply (H2 (point 1 2 3) 4); unfold is_int32; cbn; lia.
  - apply H5.
    + reflexivity.
    + vm_compute. split; [discriminate|reflexivity].
    + vm_compute. split; [discriminate|reflexivity].
Defined.

End RLEFacts.

(** ** The ordered store *)

Section KVFacts.
Import KV.

Implicit Types (a b c k : list byte) (st : list (list byte * list byte)).

Lemma key_compare_eq a : forall b, key_compare a b = Eq <-> a = b.
Proof.
  induction a as [|x a IH]; intros [|y b]; cbn; try done.
  destruct (Z.compare_spec (byte.unsigned x) (byte.unsigned y)) as [E|E|E].
  - apply byte.unsigned_inj in E as ->. rewrite IH. split; [by intros ->|by intros [= ->]].
  - split; [done|]. intros [= -> _]. lia.
  - split; [done|]. intros [= -> _]. lia.
Qed.

Lemma key_compare_refl a : key_compare a a = Eq.
Proof. by apply key_compare_eq. Qed.

Lemma key_compare_antisym a : forall b, key_compare b a = CompOpp (key_compare a b).
Proof.
  induction a as [|x a IH]; intros [|y b]; cbn; try done.
  rewrite (Z.compare_antisym (byte.unsigned x) (byte.unsigned y)).
  destruct (byte.unsigned x ?= byte.unsigned y); cbn; [apply IH|done|done].
Qed.

Lemma key_compare_trans a : forall b c,
  key_compare a b = Lt -> key_compare b c = Lt -> key_compare a c = Lt.
Proof.
  induction a as [|x a IH]; intros [|y b] [|z c]; cbn; try done.
  destruct (Z.compare_spec (byte.unsigned x) (byte.unsigned y)) as [E1|E1|E1];
    destruct (Z.compare_spec (byte.unsigned y) (byte.unsigned z)) as [E2|E2|E2];
    try done; intros H1 H2.
  - rewrite E1, E2, Z.compare_refl. by apply (IH b c).
  - rewrite E1. by apply Z.compare_lt_iff in E2 as ->.
  - rewrite <- E2. by apply Z.compare_lt_iff in E1 as ->.
  - assert (byte.unsigned x < byte.unsigned z) as E by lia.
    by apply Z.compare_lt_iff in E as ->.
Qed.

Lemma key_ltb_trans a b c : key_ltb a b = true -> key_ltb b c = true -> key_ltb a c = true.
Proof.
  unfold key_ltb. intros H1 H2.
  destruct (key_compare a b) eqn:E1; try done.
  destruct (key_compare b c) eqn:E2; try done.
  by rewrite (key_compare_trans a b c E1 E2).
Qed.

Lemma elem_of_put k v st kv :
  kv ∈ put k v st -> kv = (k, v) \/ kv ∈ st.
Proof.
  induction st as [|[k' v'] st IH]; cbn.
  - intros ?%list_elem_of_singleton. by left.
  - destruct (key_compare k k').
    + intros [?|?]%elem_of_cons; [by left|]. right. by right.
    + intros [?|?]%elem_of_cons; [by left|by right].
    + intros [->|H]%elem_of_cons; [right; by left|].
      destruct (IH H) as [?|?]; [by left|]. right. by right.
Qed.

(** [put] keeps a store ordered. *)
Lemma put_ordered k v st : ordered st -> ordered (put k v st).
Proof.
  unfold ordered. induction 1 as [|[k' v'] st Hst IH Hk']; cbn.
  - repeat constructor.
  - destruct (key_compare k k') eqn:E.
    + apply key_compare_eq in E as <-. by constructor.
    + constructor; [by constructor|]. constructor.
      * unfold key_lt, key_ltb. cbn. by rewrite E.
      * eapply Forall_impl; [exact Hk'|]. intros [k2 v2] H2.
        unfold key_lt in *. cbn in *. apply (key_ltb_trans k k' k2); [|done].
        unfold key_ltb. by rewrite E.
    + constructor; [exact IH|]. apply Forall_forall. intros kv Hin.
      destruct (elem_of_put _ _ _ _ Hin) as [->|Hin'].
      * unfold key_lt, key_ltb. cbn. rewrite key_compare_antisym, E. reflexivity.
      * by eapply Forall_forall in Hk'.
Qed.

(** A [Commit] keeps a store ordered. *)
Lemma commit_ordered pending : forall st, ordered st -> ordered (commit pending st).
Proof.
  induction pending as [|[k v] pending IH]; intros st Hst; [done|].
  cbn. apply IH. by apply put_ordered.
Qed.

Lemma get_put_eq k v st : get k (put k v st) = Some v.
Proof.
  induction st as [|[k' v'] st IH]; cbn.
  - by rewrite key_compare_refl.
  - destruct (key_compare k k') eqn:E; cbn.
    + by rewrite key_compare_refl.
    + by rewrite key_compare_refl.
    + by rewrite E.
Qed.

End KVFacts.

(** ** The sparse-volume response *)

Section SparseVolFacts.
Import SparseVol.

Lemma wrap32_add a b : wrap32 (wrap32 a + wrap32 b) = wrap32 (a + b).
Proof. unfold wrap32. by rewrite <- Z.add_mod by lia. Qed.

Lemma wrap32_add_l a b : wrap32 (wrap32 a + b) = wrap32 (a + b).
Proof. unfold wrap32. by rewrite Z.add_mod_idemp_l by lia. Qed.

Lemma wrap32_add_r a b : wrap32 (a + wrap32 b) = wrap32 (a + b).
Proof. unfold wrap32. by rewrite Z.add_mod_idemp_r by lia. Qed.

Lemma wrap32_small z : 0 <= z < 2 ^ 32 -> wrap32 z = z.
Proof. intros H. unfold wrap32. by apply Z.mod_small. Qed.

(** The chunks of a scan appended to the encoding and their runs counted,
    in [uint32]. *)
Lemma fold_processLabelRuns Vs : forall e nb nr,
  fold_left processLabelRuns Vs (mkOp e (wrap32 nb) (wrap32 nr))
  = mkOp (e ++ concat Vs)
         (wrap32 (nb + Z.of_nat (length Vs)))
         (wrap32 (nr + RLE.sumZ (map run_count Vs))).
Proof.
  induction Vs as [|V Vs IH]; intros e nb nr.
  - cbn. rewrite app_nil_r. f_equal; f_equal; lia.
  - cbn [fold_left]. unfold processLabelRuns at 2.
    cbn [encoding numBlocks numRuns].
    rewrite wrap32_add_l, wrap32_add. rewrite IH.
    cbn [concat map length RLE.sumZ fold_right]. rewrite <- app_assoc.
    f_equal; f_equal; unfold run_count, RLE.sumZ; lia.
Qed.

Lemma header_length : length header = 12%nat.
Proof. reflexivity. Qed.

Lemma concat_groups_length (Vs : list (list byte)) :
  Forall (fun V => (length V mod 16 = 0)%nat) Vs ->
  Z.of_nat (length (concat Vs) / 16) = RLE.sumZ (map run_count Vs).
Proof.
  induction 1 as [|V Vs HV _ IH]; [done|].
  cbn [concat map RLE.sumZ fold_right]. rewrite length_app.
  pose proof (Nat.div_mod_eq (length V) 16) as E. rewrite HV, Nat.add_0_r in E.
  rewrite E at 1. rewrite Nat.mul_comm, Nat.div_add_l by lia.
  rewrite Nat2Z.inj_add, IH. reflexivity.
Qed.

Lemma StronglySorted_filter {A} (R : A -> A -> Prop) (P : A -> bool) (l : list A) :
  StronglySorted R l -> StronglySorted R (filter P l).
Proof.
  induction 1 as [|x l Hl IH Hx]; [constructor|].
  destruct (P x) eqn:E.
  - rewrite filter_cons_True by (by rewrite E). constructor; [done|].
    apply Forall_forall. intros y [_ Hy]%list_elem_of_filter.
    by eapply Forall_forall in Hx.
  - rewrite filter_cons_False; [done|]. rewrite E. by intros [].
Qed.

(** C7: the stream that [GetSparseVol] returns for a label. It is the 8
    header bytes - payload descriptor 0, number of dimensions 3, run
    dimension 0, reserved 0 and the four zero bytes of the voxel count -
    then the little-endian [uint32] run count at bytes 8..11, then the
    values of the label's [KeyLabelSpatialMap] records, concatenated in the
    order of the range scan: the records of the store whose keys lie between
    the label's first and last key, in key order. The count is the sum of
    [len(value) / 16] in [uint32]; when every value is a whole number of
    16-byte runs and the total fits a [uint32], it is the number of runs
    that follow. *)
Theorem GetSparseVol_stream (IndexZYXSize : nat) (MinIndexZYX MaxIndexZYX : list byte)
    (versionID : Z) (st : list (list byte * list byte)) (label : Z) :
  let firstKey := Keys.NewLabelSpatialMapKey IndexZYXSize label MinIndexZYX in
  let lastKey := Keys.NewLabelSpatialMapKey IndexZYXSize label MaxIndexZYX in
  let chunks := KV.range firstKey lastKey st in
  let runs := concat (map snd chunks) in
  let count := wrap32 (RLE.sumZ (map run_count (map snd chunks))) in
  GetSparseVol IndexZYXSize MinIndexZYX MaxIndexZYX (Some versionID) (Some st) label
  = Ok ([Byte.x00; Byte.x03; Byte.x00; Byte.x00]
          ++ LittleEndian.PutUint32 0
          ++ LittleEndian.PutUint32 count
          ++ runs, None)
  /\ (forall kv, kv ∈ chunks <->
        kv ∈ st /\ KV.key_leb firstKey kv.1 = true /\ KV.key_leb kv.1 lastKey = true)
  /\ (KV.ordered st -> KV.ordered chunks)
  /\ (Forall (fun kv => (length kv.2 mod 16 = 0)%nat) chunks ->
       Z.of_nat (length runs / 16) < 2 ^ 32 ->
       count = Z.of_nat (length runs / 16)
       /\ LittleEndian.Uint32 (LittleEndian.PutUint32 count) = Z.of_nat (length runs / 16)).
Proof.
  intros firstKey lastKey chunks runs count. split_and!.
  - unfold GetSparseVol. fold firstKey lastKey chunks.
    change (mkOp header 0 0) with (mkOp header (wrap32 0) (wrap32 0)).
    rewrite fold_processLabelRuns. cbn [encoding numRuns]. fold runs.
    rewrite Z.add_0_l. fold count.
    unfold patchUint32. rewrite length_app, header_length.
    replace ((8 + 4 <=? 12) && (12 <=? 12 + length runs))%nat with true
      by (symmetry; apply andb_true_iff; split; apply Nat.leb_le; lia).
    change (8 + 4)%nat with (length header).
    rewrite drop_app_length, take_app_le by (rewrite header_length; lia).
    reflexivity.
  - intros kv. unfold chunks, KV.range. rewrite list_elem_of_filter.
    rewrite Is_true_true, andb_true_iff. tauto.
  - intros Hst. unfold chunks, KV.range, KV.ordered. by apply StronglySorted_filter.
  - intros Hvals Hfit.
    assert (count = Z.of_nat (length runs / 16)) as Hc.
    { unfold count, runs. rewrite <- concat_groups_length.
      - apply wrap32_small. fold runs. lia.
      - apply Forall_forall. intros V [kv [-> Hkv]]%list_elem_of_fmap.
        by eapply Forall_forall in Hvals. }
    split; [exact Hc|]. rewrite Hc.
    unfold LittleEndian.Uint32, LittleEndian.PutUint32.
    rewrite take_ge by (rewrite le_split_length; lia).
    rewrite le_combine_split. apply Z.mod_small. change (Z.of_nat 4 * 8) with 32. lia.
Qed.

Lemma GetSparseVol_stream_witness :
  KV.ordered (KV.range (Keys.NewLabelSpatialMapKey 12 1 Examples.zyx_min)
                (Keys.NewLabelSpatialMapKey 12 1 Examples.zyx_max)
                Examples.klsm_label_1)
  /\ wrap32 (RLE.sumZ (map run_count (map snd
        (KV.range (Keys.NewLabelSpatialMapKey 12 1 Examples.zyx_min)
           (Keys.NewLabelSpatialMapKey 12 1 Examples.zyx_max)
           Examples.klsm_label_1)))) = 1.
Proof.
  destruct (GetSparseVol_stream 12 Examples.zyx_min Examples.zyx_max 0
              Examples.klsm_label_1 1) as (_ & _ & Hord & Hcount).
  split.
  - apply Hord. repeat constructor.
  - destruct Hcount as [Hc _].
    + repeat constructor.
    + vm_compute. reflexivity.
    + rewrite Hc. vm_compute. reflexivity.
Defined.

End SparseVolFacts.

(** ** Tar assembly *)

Section TarFacts.
Import Tar.

Lemma fold_assign (supervoxels : list Z) : forall svlist : gmap nat (list Z),
  fold_left assign supervoxels (0%nat, svlist)
  = (0%nat,
     match supervoxels with
     | [] => svlist
     | _ => <[0%nat := default [] (svlist !! 0%nat) ++ supervoxels]> svlist
     end).
Proof.
  induction supervoxels as [|sv svs IH]; intros svlist; [done|].
  cbn [fold_left]. unfold assign at 2.
  change (0 mod numHandlers)%nat with 0%nat.
  rewrite IH. f_equal. destruct svs as [|sv' svs]; [done|].
  rewrite lookup_insert_eq. cbn [default from_option id].
  rewrite insert_insert_eq. by rewrite <- app_assoc.
Qed.

(** Every supervoxel goes to handler 0. *)
Lemma partition_all_to_first (supervoxels : list Z) :
  supervoxels <> [] -> partition supervoxels = {[ 0%nat := supervoxels ]}.
Proof.
  intros Hne. unfold partition. rewrite fold_assign. cbn [snd].
  destruct supervoxels; [done|]. by rewrite lookup_empty.
Qed.

Section WithKeys.

Variable TKey : Type.
Variable NewTKey : Z -> string -> TKey * option error.

Lemma map_seq_const {A} (g : nat -> A) (c : A) (n : nat) : forall start,
  (forall i, (start <= i)%nat -> g i = c) -> map g (seq start n) = replicate n c.
Proof.
  induction n as [|n IH]; intros start Hg; [done|].
  cbn [seq map replicate]. rewrite Hg by lia. f_equal. apply IH.
  intros i Hi. apply Hg. lia.
Qed.

(** The first worker gets every supervoxel and the other 255 get none. *)
Lemma workers_first ext get canTS (supervoxels : list Z) :
  supervoxels <> [] ->
  workers TKey NewTKey ext get canTS supervoxels
  = getSupervoxelGoroutine TKey NewTKey ext get canTS supervoxels
      :: replicate 255 [].
Proof.
  intros Hne. unfold workers. rewrite (partition_all_to_first _ Hne).
  change (seq 0 numHandlers) with (0%nat :: seq 1 255).
  cbn [map]. rewrite lookup_singleton_eq. cbn [default from_option id].
  rewrite (map_seq_const _ [] 255 1); [reflexivity|].
  intros i Hi. rewrite lookup_singleton_ne by lia. reflexivity.
Qed.

(** With one sender only, the channel delivers in the order of that sender. *)
Lemma Interleave_single {A} (senders : list (list A)) (out : list A) :
  Interleave senders out ->
  forall l0 rest,
    senders = l0 :: rest -> Forall (fun l => l = []) rest -> out = l0.
Proof.
  induction 1 as [senders Hall|senders i x l out Hi _ IH]; intros l0 rest -> Hrest.
  - apply Forall_cons in Hall as [-> _]. reflexivity.
  - destruct i as [|i].
    + cbn in Hi. injection Hi as ->. f_equal. by apply (IH l rest).
    + cbn in Hi. apply list_elem_of_lookup_2 in Hi.
      eapply Forall_forall in Hrest; [|exact Hi]. discriminate.
Qed.

Lemma Interleave_first {A} (l0 : list A) (rest : list (list A)) :
  Forall (fun l => l = []) rest -> Interleave (l0 :: rest) l0.
Proof.
  intros Hrest. induction l0 as [|x l0 IH].
  - apply interleave_nil. by constructor.
  - by apply (interleave_cons _ 0 x l0 l0).
Qed.

(** The results of [sendTarfile]'s workers reach the writer in one order
    only: the order in which the set of supervoxels was ranged over. *)
Lemma delivers_unique (e : env TKey) get (supervoxels : list Z) outCh :
  supervoxels <> [] ->
  (delivers TKey NewTKey e get supervoxels outCh <->
   outCh = getSupervoxelGoroutine TKey NewTKey (Extension TKey e) get
             (canGetTimestamp TKey e) supervoxels).
Proof.
  intros Hne. unfold delivers. rewrite (workers_first _ _ _ _ Hne).
  assert (Forall (fun l : list fileData => l = []) (replicate 255 [])) as Hrest
    by (apply Forall_replicate; reflexivity).
  split.
  - intros H. by eapply Interleave_single.
  - intros ->. by apply Interleave_first.
Qed.

(** Without an error among the results, the writer makes one entry per
    result that has a header. *)
Lemma write_results_all (fds : list fileData) : forall tw,
  Forall (fun fd => err fd = None) fds ->
  write_results (length fds) fds tw
  = Some (tw ++ omap (fun fd => (fun h => (h, data fd)) <$> header fd) fds, None).
Proof.
  induction fds as [|fd fds IH]; intros tw Hall.
  - cbn. by rewrite app_nil_r.
  - apply Forall_cons in Hall as [Hfd Hall]. simpl.
    rewrite Hfd. destruct (header fd) as [hdr|]; simpl.
    + rewrite IH by done. by rewrite <- app_assoc.
    + by rewrite IH.
Qed.

(** A result with an error ends the writer: nothing more is written and the
    error returned is nil. *)
Lemma write_results_error_stops n (fd : fileData) outCh tw e :
  err fd = Some e -> write_results (S n) (fd :: outCh) tw = Some (tw, None).
Proof. intros H. cbn. by rewrite H. Qed.

(** A supervoxel whose blob is not in the store gets an entry of size 0. *)
Lemma fetch_not_found ext get canTS supervoxel tk :
  NewTKey supervoxel ext = (tk, None) -> get tk = NotFound ->
  fetch TKey NewTKey ext get canTS supervoxel
  = mkFileData (Some (mkHeader (file_name supervoxel ext) 0 493 0)) [] None.
Proof. intros Hk Hg. unfold fetch. by rewrite Hk, Hg. Qed.

Lemma fetch_ok ext get canTS supervoxel :
  (NewTKey supervoxel ext).2 = None ->
  get (NewTKey supervoxel ext).1 <> Failure ->
  exists hdr,
    err (fetch TKey NewTKey ext get canTS supervoxel) = None
    /\ header (fetch TKey NewTKey ext get canTS supervoxel) = Some hdr
    /\ Name hdr = file_name supervoxel ext.
Proof.
  unfold fetch. destruct (NewTKey supervoxel ext) as [tk [e|]]; cbn; [done|].
  intros _ Hget. destruct (get tk); [| |done]; eexists; split_and!; reflexivity.
Qed.

(** When no key and no read fails, the tar has one entry per supervoxel of
    the label, named after it, whether or not the store has a blob for it. *)
Lemma sendTarfile_entry_per_supervoxel (e : env TKey) get GetSupervoxels v
    (label : Z) (supervoxels : list Z) (outCh : list fileData) :
  db TKey e = Some get -> synced TKey e = Some GetSupervoxels ->
  version TKey e = Some v ->
  GetSupervoxels label = Some supervoxels -> supervoxels <> [] ->
  Forall (fun sv => (NewTKey sv (Extension TKey e)).2 = None
                    /\ get (NewTKey sv (Extension TKey e)).1 <> Failure) supervoxels ->
  delivers TKey NewTKey e get supervoxels outCh ->
  exists tar,
    sendTarfile TKey e label outCh = Some (tar, None)
    /\ map (fun en => Name en.1) tar
       = map (fun sv => file_name sv (Extension TKey e)) supervoxels.
Proof.
  intros Hdb Hsync Hv Hsvs Hne Hall Hout.
  apply delivers_unique in Hout; [|done]. subst outCh.
  unfold sendTarfile. rewrite Hdb, Hsync, Hv, Hsvs.
  replace (length supervoxels =? 0)%nat with false
    by (symmetry; apply Nat.eqb_neq; by destruct supervoxels).
  unfold getSupervoxelGoroutine.
  rewrite <- (length_map (fetch TKey NewTKey (Extension TKey e) get (canGetTimestamp TKey e))).
  rewrite write_results_all.
  - eexists. split; [reflexivity|]. cbn [app].
    clear Hsvs Hne. induction Hall as [|sv svs [Hk Hg] _ IH]; [done|].
    destruct (fetch_ok (Extension TKey e) get (canGetTimestamp TKey e) sv Hk Hg)
      as (hdr & _ & Hh & Hn).
    cbn [map]. simpl. rewrite Hh. simpl. by rewrite Hn, <- IH.
  - apply Forall_map. eapply Forall_impl; [exact Hall|].
    intros sv [Hk Hg]. by destruct (fetch_ok (Extension TKey e) get
                                     (canGetTimestamp TKey e) sv Hk Hg) as (? & ? & _).
Qed.

End WithKeys.

(** C6: the supervoxels are not spread over the 256 workers. For the set
    {5, 6}, ranged over in this order, handler 0 is assigned both
    supervoxels and no other handler is assigned any; the bound
    ceil(2 / 256) is 1. *)
Theorem partition_assigns_all_to_handler_0 :
  partition [5; 6] !! 0%nat = Some [5; 6]
  /\ (forall i, (0 < i)%nat -> partition [5; 6] !! i = None)
  /\ ((length [5%Z; 6%Z] + 255) / 256 = 1)%nat.
Proof.
  rewrite partition_all_to_first by done. split_and!.
  - apply lookup_singleton_eq.
  - intros i Hi. apply lookup_singleton_ne. lia.
  - reflexivity.
Qed.

(** C5: a supervoxel whose blob is not in the store is not skipped. In an
    instance with extension "dat" whose store holds a blob for supervoxel 6
    and none for supervoxel 5, the tar for a label made of the supervoxels
    5 and 6 has two entries: "5.dat" with size 0 and no bytes, and "6.dat".
    The channel can deliver the results in one order only. *)
Theorem sendTarfile_missing_blob_gets_empty_entry :
  exists outCh,
    delivers string Examples.name_key Examples.tar_env Examples.blobs [5; 6] outCh
    /\ (forall outCh',
          delivers string Examples.name_key Examples.tar_env Examples.blobs [5; 6] outCh' ->
          outCh' = outCh)
    /\ Examples.blobs "5.dat" = NotFound
    /\ sendTarfile string Examples.tar_env 9 outCh
       = Some ([(mkHeader "5.dat" 0 493 0, []);
                (mkHeader "6.dat" 1 493 1000, [Byte.x2a])], None).
Proof.
  eexists. split_and!.
  - apply delivers_unique; [done|reflexivity].
  - intros outCh' H. by apply delivers_unique in H.
  - reflexivity.
  - vm_compute. reflexivity.
Qed.

End TarFacts.

(** ** Tar ingestion *)

Section IngestFacts.
Import Tar.

Variable TKey : Type.
Variable NewTKey : Z -> string -> TKey * option error.
Variable Sscanf : string -> nat * option error * Z * string.
Variable put_error : TKey -> list byte -> option error.

Local Abbreviation accepted := (accepted Sscanf).
Local Abbreviation entry_key := (entry_key TKey NewTKey Sscanf).
Local Abbreviation ingest_entries := (ingest_entries TKey NewTKey Sscanf put_error).
Local Abbreviation put_of := (put_of TKey NewTKey Sscanf).
Local Abbreviation put_ok := (put_ok TKey NewTKey Sscanf put_error).

(** An entry that fails a test ends the ingest with the error of that test,
    before any [Put]. *)
Lemma ingest_rejected ext name bytes post stored :
  accepted ext name = false ->
  exists e, name_error e /\
    ingest_entries ext ((name, bytes) :: post) stored = (stored, Some e).
Proof.
  unfold Tar.accepted. cbn [Tar.ingest_entries].
  destruct (Sscanf name) as [[[n err] supervoxel] ext'].
  destruct (bool_decide (err = None)); cbn [andb negb orb].
  2:{ intros _. exists ErrBadName. split; [by left|done]. }
  destruct (n =? 2)%nat; cbn [andb negb orb].
  2:{ intros _. exists ErrBadName. split; [by left|done]. }
  destruct (bool_decide (ext' = ext)); cbn [andb negb orb].
  2:{ intros _. exists ErrBadExtension. split; [right; by left|done]. }
  destruct (supervoxel =? 0); cbn [andb negb orb]; [|done].
  intros _. exists ErrSupervoxelZero. split; [right; by right|done].
Qed.

(** An entry that passes the tests is stored under its key, unless the
    store refuses the [Put]. *)
Lemma ingest_accepted ext name bytes post stored :
  accepted ext name = true ->
  ingest_entries ext ((name, bytes) :: post) stored
  = match put_error (entry_key name) bytes with
    | Some e => (stored, Some e)
    | None => ingest_entries ext post (stored ++ [put_of (name, bytes)])
    end.
Proof.
  unfold Tar.accepted, Tar.put_of, Tar.entry_key. cbn [Tar.ingest_entries fst snd].
  destruct (Sscanf name) as [[[n err] supervoxel] ext'].
  destruct (bool_decide (err = None)); cbn [andb negb orb]; [|done].
  destruct (n =? 2)%nat; cbn [andb negb orb]; [|done].
  destruct (bool_decide (ext' = ext)); cbn [andb negb orb]; [|done].
  destruct (supervoxel =? 0); cbn [andb negb orb]; done.
Qed.

Lemma ingest_all_accepted ext entries : forall stored,
  Forall (fun en => accepted ext en.1 = true) entries ->
  Forall put_ok entries ->
  forall rest,
    ingest_entries ext (entries ++ rest) stored
    = ingest_entries ext rest (stored ++ map put_of entries).
Proof.
  induction entries as [|[name bytes] entries IH]; intros stored Hacc Hput rest.
  - cbn. by rewrite app_nil_r.
  - apply Forall_cons in Hacc as [Ha Hacc]. apply Forall_cons in Hput as [Hp Hput].
    cbn [app]. rewrite ingest_accepted by exact Ha.
    unfold Tar.put_ok in Hp. cbn [fst snd] in Hp. rewrite Hp.
    rewrite IH by done. cbn [map]. by rewrite <- app_assoc.
Qed.

Lemma ingest_stops ext pre : forall stored bad post,
  Forall (fun en => accepted ext en.1 = true) pre ->
  accepted ext bad.1 = false ->
  exists done e,
    ingest_entries ext (pre ++ bad :: post) stored = (stored ++ done, Some e)
    /\ done `prefix_of` map put_of pre.
Proof.
  induction pre as [|[name bytes] pre IH]; intros stored [bname bbytes] post Hacc Hbad.
  - destruct (ingest_rejected ext bname bbytes post stored Hbad) as (e & _ & He).
    exists [], e. cbn [app]. rewrite He, app_nil_r. split; [done|]. apply prefix_nil.
  - apply Forall_cons in Hacc as [Ha Hacc]. cbn [app].
    rewrite ingest_accepted by exact Ha.
    destruct (put_error (entry_key name) bytes) as [e|].
    + exists [], e. rewrite app_nil_r. split; [done|]. apply prefix_nil.
    + destruct (IH (stored ++ [put_of (name, bytes)]) (bname, bbytes) post Hacc Hbad)
        as (done' & e & Hrun & Hpre).
      exists (put_of (name, bytes) :: done'), e. split.
      * rewrite Hrun. by rewrite <- app_assoc.
      * cbn [map]. by apply prefix_cons.
Qed.

(** C8: [ingestTarfile] reads the entries in order. An entry whose name
    does not scan as two items, whose extension is not the instance's, or
    whose supervoxel id is 0 makes it return an error; what was stored until
    then comes from the entries before it, so there is no [Put] for the
    entry itself nor for a later one; when the store accepted the entries
    before it, the error is the one of the failed test and all of them are
    stored. When every entry passes the tests and the store accepts every
    [Put], each entry's bytes are stored under the key made from its
    supervoxel and extension, in order, and no error is returned. *)
Theorem ingestTarfile_aborts_or_stores (e : env TKey) (entries : list (string * list byte)) :
  is_Some (db TKey e) -> is_Some (version TKey e) ->
  (forall pre bad post,
      entries = pre ++ bad :: post ->
      Forall (fun en => accepted (Extension TKey e) en.1 = true) pre ->
      accepted (Extension TKey e) bad.1 = false ->
      exists stored err,
        ingestTarfile TKey NewTKey Sscanf put_error e entries = (stored, Some err)
        /\ stored `prefix_of` map put_of pre
        /\ (Forall put_ok pre -> stored = map put_of pre /\ name_error err))
  /\ (Forall (fun en => accepted (Extension TKey e) en.1 = true) entries ->
      Forall put_ok entries ->
      ingestTarfile TKey NewTKey Sscanf put_error e entries
      = (map put_of entries, None)).
Proof.
  intros [get Hdb] [v Hv]. unfold ingestTarfile. rewrite Hdb, Hv. split.
  - intros pre bad post -> Hacc Hbad.
    destruct (ingest_stops (Extension TKey e) pre [] bad post Hacc Hbad)
      as (done & err & Hrun & Hpre).
    exists done, err. split; [exact Hrun|]. split; [exact Hpre|].
    intros Hput. rewrite ingest_all_accepted in Hrun by done.
    destruct bad as [bname bbytes].
    destruct (ingest_rejected (Extension TKey e) bname bbytes post
                ([] ++ map put_of pre) Hbad) as (e' & He' & Hrej).
    rewrite Hrej in Hrun. injection Hrun as <- <-. done.
  - intros Hacc Hput.
    rewrite <- (app_nil_r entries) at 1.
    rewrite ingest_all_accepted by done. reflexivity.
Qed.

End IngestFacts.

Lemma ingestTarfile_aborts_or_stores_witness :
  (exists stored err,
      Tar.ingestTarfile string Examples.name_key Examples.scan_name (fun _ _ => None)
        Examples.tar_env
        [("12.dat"%string, [Byte.x01]); ("0.dat"%string, []); ("3.dat"%string, [])]
      = (stored, Some err)
      /\ stored `prefix_of` [("12.dat"%string, [Byte.x01])])
  /\ Tar.ingestTarfile string Examples.name_key Examples.scan_name (fun _ _ => None)
       Examples.tar_env [("12.dat"%string, [Byte.x01]); ("3.dat"%string, [])]
     = ([("12.dat"%string, [Byte.x01]); ("3.dat"%string, [])], None).
Proof.
  split.
  - destruct (ingestTarfile_aborts_or_stores string Examples.name_key Examples.scan_name
                (fun _ _ => None) Examples.tar_env
                [("12.dat"%string, [Byte.x01]); ("0.dat"%string, []); ("3.dat"%string, [])])
      as [Habort _]; [by eexists|by eexists|].
    destruct (Habort [("12.dat"%string, [Byte.x01])] ("0.dat"%string, [])
                [("3.dat"%string, [])]) as (stored & err & Hrun & Hpre & _).
    + reflexivity.
    + repeat constructor.
    + reflexivity.
    + exists stored, err. split; [exact Hrun|exact Hpre].
  - destruct (ingestTarfile_aborts_or_stores string Examples.name_key Examples.scan_name
                (fun _ _ => None) Examples.tar_env
                [("12.dat"%string, [Byte.x01]); ("3.dat"%string, [])])
      as [_ Hstore]; [by eexists|by eexists|].
    apply Hstore; repeat constructor.
Defined.

(** ** The size index *)

Section SizeIndexFacts.
Import SizeIndex.

Variable commit_fails : nat -> bool.

(** The first chunk of a scan makes [computeSizes] put a record of size 0
    for label 0 into its batch, whenever the label it reads from the key is
    not 0: [notFirst] is true from the start. *)
Lemma first_chunk_puts_zero_record (st : list (list byte * list byte)) (K V : list byte) :
  (9 <= length K)%nat -> (length V mod 16 = 0)%nat ->
  LittleEndian.Uint64 (take 8 (drop 1 K)) <> 0 ->
  exists s,
    on_chunk commit_fails (init st) K V = Ok (s, false)
    /\ batch s = [(Keys.NewLabelSizesKey 0 0, [])]
    /\ curLabel s = LittleEndian.Uint64 (take 8 (drop 1 K))
    /\ db s = st.
Proof.
  intros HK HV Hlabel. unfold on_chunk, Vmap.slice.
  replace ((1 <=? 9) && (9 <=? length K))%nat with true
    by (symmetry; apply andb_true_iff; split; apply Nat.leb_le; lia).
  cbn [mbind result_bind]. change (9 - 1)%nat with 8%nat.
  rewrite (statsRuns_groups V (length V / 16)) by (by apply mod16_groups).
  cbn [init notFirst curLabel curSize putsInBatch batch commits db andb].
  apply Z.eqb_neq in Hlabel. rewrite Hlabel. cbn [negb].
  change ((0 + 1) mod BATCH_SIZE =? 0) with false. cbn iota.
  eexists. split; [reflexivity|]. cbn. split_and!; reflexivity.
Qed.

End SizeIndexFacts.

(** C3: the size-index pass does not leave one record per label, and the
    label field of a key is not the label. For a store whose only
    label-to-block record is the one of label 1 in one block, with one run
    of 4 voxels, the pass stores two size records: (size 0, label 0), put
    at the first chunk, and (size 4, label 2^56). The second key holds, big
    endian, the label that [computeSizes] read little endian from the
    big-endian key of the record; read little endian again, as
    [GetSizeRange] does, it is 1. *)
Theorem size_index_pass_stores_spurious_record :
  match SizeIndex.size_index_pass 12 Examples.zyx_min Examples.zyx_max
          (fun _ => false) Examples.klsm_label_1 with
  | Ok st' =>
      SizeIndex.KLS st'
      = [(Keys.NewLabelSizesKey 0 0, []); (Keys.NewLabelSizesKey 4 (2 ^ 56), [])]
  | Panic => False
  end
  /\ Keys.sizes_key_size (Keys.NewLabelSizesKey 4 (2 ^ 56)) = 4
  /\ Keys.sizes_key_label (Keys.NewLabelSizesKey 4 (2 ^ 56)) = 2 ^ 56
  /\ Keys.GetSizeRange_label (Keys.NewLabelSizesKey 4 (2 ^ 56)) = 1.
Proof. split_and!; vm_compute; reflexivity. Qed.

(* ================================================================== *)
(** * Further properties of the version map *)
(* ================================================================== *)

Section VmapLookups.
Import Vmap VmapRecords.

Implicit Types (es : list (byte * list byte)) (anc : list Z) (vid toLabel : Z).

Lemma resolve_find_label es anc :
  SVMap.resolve es anc
  = match anc with
    | [] => None
    | vid :: anc' =>
        match index_of vid es with
        | Some _ => find_label vid es
        | None => SVMap.resolve es anc'
        end
    end.
Proof.
  destruct anc as [|vid anc]; [done|]. cbn [SVMap.resolve]. unfold find_label.
  by destruct (index_of vid es).
Qed.

Lemma find_label_upsert_same vid toLabel es :
  is_uint8 vid -> is_uint64 toLabel ->
  exists k, index_of vid (upsert vid toLabel es) = Some k
            /\ find_label vid (upsert vid toLabel es) = Some toLabel.
Proof.
  intros Hv Hl. unfold find_label.
  induction es as [|r es IH]; cbn [upsert index_of].
  - cbn [fst]. rewrite unsigned_of_Z_uint8 by done. rewrite Z.eqb_refl.
    exists 0%nat. split; [done|]. cbn. unfold label_of. cbn [snd].
    by rewrite LE_Uint64_Put.
  - destruct (byte.unsigned r.1 =? vid) eqn:E; cbn [index_of fst].
    + rewrite E. exists 0%nat. split; [done|]. cbn. unfold label_of. cbn [snd].
      by rewrite LE_Uint64_Put.
    + rewrite E. destruct IH as (k & Hk & Hf). rewrite Hk in Hf |- *.
      exists (S k). split; [done|]. exact Hf.
Qed.

Lemma find_label_upsert_other vid vid' toLabel es :
  is_uint8 vid -> vid' <> vid ->
  index_of vid' (upsert vid toLabel es) = None <-> index_of vid' es = None.
Proof.
  intros Hv Hne. rewrite !index_of_None.
  unfold vid_of. change (fun r : byte * list byte => byte.unsigned r.1) with vid_of.
  rewrite upsert_vids by done. case_bool_decide; [done|].
  rewrite elem_of_app, list_elem_of_singleton. tauto.
Qed.

Lemma find_label_upsert_ne vid vid' toLabel es :
  is_uint8 vid -> vid' <> vid ->
  find_label vid' (upsert vid toLabel es) = find_label vid' es.
Proof.
  intros Hv Hne. unfold find_label.
  induction es as [|r es IH]; cbn [upsert index_of].
  - cbn [fst]. rewrite unsigned_of_Z_uint8 by done.
    destruct (Z.eqb_spec vid vid'); [congruence|]. reflexivity.
  - destruct (Z.eqb_spec (byte.unsigned r.1) vid) as [Heq|Hneq]; cbn [index_of fst].
    + destruct (Z.eqb_spec (byte.unsigned r.1) vid'); [congruence|].
      destruct (index_of vid' es); reflexivity.
    + destruct (Z.eqb_spec (byte.unsigned r.1) vid'); [reflexivity|].
      destruct (index_of vid' (upsert vid toLabel es)) as [k|] eqn:E1;
        destruct (index_of vid' es) as [k'|] eqn:E2; cbn in *; try done.
Qed.

Lemma resolve_upsert_other vid toLabel es anc :
  is_uint8 vid -> vid ∉ anc ->
  SVMap.resolve (upsert vid toLabel es) anc = SVMap.resolve es anc.
Proof.
  intros Hv. induction anc as [|vid' anc IH]; intros Hnot; [done|].
  assert (vid' <> vid) as Hne by (intros ->; apply Hnot; left).
  assert (vid ∉ anc) as Hnot' by (intros ?; apply Hnot; by right).
  rewrite (resolve_find_label _ (vid' :: anc)), (resolve_find_label es (vid' :: anc)).
  rewrite find_label_upsert_ne, IH by done.
  pose proof (find_label_upsert_other vid vid' toLabel es Hv Hne) as Hiff.
  destruct (index_of vid' (upsert vid toLabel es)) as [k|];
    destruct (index_of vid' es) as [k'|]; try done.
  - destruct Hiff as [_ H]. by specialize (H eq_refl).
  - destruct Hiff as [H _]. by specialize (H eq_refl).
Qed.

Lemma upsert_length vid toLabel es :
  length (upsert vid toLabel es)
  = match index_of vid es with
    | Some _ => length es
    | None => S (length es)
    end.
Proof.
  induction es as [|r es IH]; cbn [index_of upsert]; [done|].
  destruct (byte.unsigned r.1 =? vid); [done|]. cbn [length]. rewrite IH.
  by destruct (index_of vid es).
Qed.

(** The contents-level [modify] on any packed vmap. *)
Lemma modify_packed vm vid toLabel :
  packed vm ->
  modify vm vid toLabel = Ok (pack (upsert vid toLabel (entries vm)), true).
Proof.
  intros Hp. rewrite <- (packed_pack vm Hp) at 1.
  apply modify_pack, entries_len8.
Qed.

Lemma value_packed vm anc :
  packed vm ->
  value vm anc
  = Ok (from_option (fun l => (l, true)) (0, false) (SVMap.resolve (entries vm) anc)).
Proof.
  intros Hp. rewrite <- (packed_pack vm Hp) at 1.
  apply value_resolve, entries_len8.
Qed.

End VmapLookups.

Section VmapLookupProperties.
Import Vmap VmapRecords.

(** X1: [vmap.value] on a vmap of whole records. When [vid] is the first id
    of the ancestry that has a record in the vmap, the result is the label of
    the first record for [vid], with [present = true]; when no id of the
    ancestry has a record (an empty ancestry or an empty vmap included), the
    result is [(0, false)]. The call does not panic. *)
Theorem value_first_visible_record (vm : list byte) (anc : list Z) :
  packed vm ->
  (forall before vid after k r,
      anc = before ++ vid :: after ->
      (forall u, u ∈ before -> u ∉ vids vm) ->
      index_of vid (entries vm) = Some k ->
      entries vm !! k = Some r ->
      value vm anc = Ok (label_of r, true))
  /\ ((forall u, u ∈ anc -> u ∉ vids vm) -> value vm anc = Ok (0, false)).
Proof.
  intros Hp. rewrite (value_packed vm anc Hp). split.
  - intros before vid after k r -> Hbefore Hk Hr.
    induction before as [|u before IH]; cbn [app SVMap.resolve].
    + by rewrite Hk, Hr.
    + assert (index_of u (entries vm) = None) as ->
        by (apply index_of_None, Hbefore; left).
      apply IH. intros u' Hu'. apply Hbefore. by right.
  - intros Hnone. by rewrite resolve_hidden.
Qed.

Lemma value_first_visible_record_witness :
  value (pack [(Byte.x02, LittleEndian.PutUint64 20); (Byte.x01, LittleEndian.PutUint64 10)])
    [3; 1; 2] = Ok (10, true)
  /\ value (pack [(Byte.x02, LittleEndian.PutUint64 20); (Byte.x01, LittleEndian.PutUint64 10)])
       [3; 4] = Ok (0, false).
Proof.
  destruct (value_first_visible_record
              (pack [(Byte.x02, LittleEndian.PutUint64 20); (Byte.x01, LittleEndian.PutUint64 10)])
              [3; 1; 2]) as [Hfound _]; [reflexivity|].
  destruct (value_first_visible_record
              (pack [(Byte.x02, LittleEndian.PutUint64 20); (Byte.x01, LittleEndian.PutUint64 10)])
              [3; 4]) as [_ Hnone]; [reflexivity|].
  split.
  - apply (Hfound [3] 1 [2] 1%nat (Byte.x01, LittleEndian.PutUint64 10)).
    + reflexivity.
    + intros u ->%list_elem_of_singleton. vm_compute.
      intros H. repeat (apply elem_of_cons in H as [H|H]; [discriminate|]).
      by apply not_elem_of_nil in H.
    + reflexivity.
    + reflexivity.
  - apply Hnone. intros u Hu. vm_compute. intros H.
    repeat (apply elem_of_cons in Hu as [->|Hu];
            [repeat (apply elem_of_cons in H as [H|H]; [discriminate|]);
             by apply not_elem_of_nil in H|]).
    by apply not_elem_of_nil in Hu.
Defined.

(** X2: [modify] then [value]. After [vm.modify(vid, toLabel)] on a vmap of
    whole records, looking the result up along any ancestry that starts with
    [vid] gives [(toLabel, true)]. *)
Theorem modify_then_value (vm : list byte) (vid toLabel : Z) (anc : list Z) :
  packed vm -> is_uint8 vid -> is_uint64 toLabel ->
  exists out,
    modify vm vid toLabel = Ok (out, true)
    /\ value out (vid :: anc) = Ok (toLabel, true).
Proof.
  intros Hp Hv Hl. eexists. split; [by apply modify_packed|].
  rewrite value_resolve by apply upsert_len8, entries_len8.
  rewrite resolve_find_label.
  destruct (find_label_upsert_same vid toLabel (entries vm) Hv Hl) as (k & -> & ->).
  reflexivity.
Qed.

Lemma modify_then_value_witness :
  exists out,
    modify [] 3 77 = Ok (out, true) /\ value out [3; 1] = Ok (77, true).
Proof.
  apply (modify_then_value [] 3 77 [1]).
  - reflexivity.
  - unfold is_uint8. lia.
  - unfold is_uint64. lia.
Defined.

(** X3: [modify] leaves the other versions alone. After
    [vm.modify(vid, toLabel)] on a vmap of whole records, a lookup along an
    ancestry that does not contain [vid] gives what it gave before. *)
Theorem modify_keeps_other_versions (vm : list byte) (vid toLabel : Z) (anc : list Z) :
  packed vm -> is_uint8 vid -> vid ∉ anc ->
  exists out,
    modify vm vid toLabel = Ok (out, true)
    /\ value out anc = value vm anc.
Proof.
  intros Hp Hv Hnot. eexists. split; [by apply modify_packed|].
  rewrite value_resolve by apply upsert_len8, entries_len8.
  rewrite (value_packed vm anc Hp). by rewrite resolve_upsert_other.
Qed.

Lemma modify_keeps_other_versions_witness :
  exists out,
    modify (pack [(Byte.x01, LittleEndian.PutUint64 10)]) 2 20 = Ok (out, true)
    /\ value out [1] = value (pack [(Byte.x01, LittleEndian.PutUint64 10)]) [1].
Proof.
  apply (modify_keeps_other_versions (pack [(Byte.x01, LittleEndian.PutUint64 10)]) 2 20 [1]).
  - reflexivity.
  - unfold is_uint8. lia.
  - intros H%list_elem_of_singleton. discriminate.
Defined.

(** X4: [modify] grows a vmap of whole records by one record, 9 bytes, when
    it has no record for [vid], and keeps its length when it has one. *)
Theorem modify_grows_only_for_new_id (vm : list byte) (vid toLabel : Z) :
  packed vm ->
  exists out,
    modify vm vid toLabel = Ok (out, true)
    /\ length out = if bool_decide (vid ∈ vids vm) then length vm
                   else (length vm + 9)%nat.
Proof.
  intros Hp. eexists. split; [by apply modify_packed|].
  pose proof (entries_len8 vm) as Hes.
  rewrite pack_length by by apply upsert_len8.
  assert (Hlen : length vm = (9 * length (entries vm))%nat).
  { rewrite <- (packed_pack vm Hp) at 1. by apply pack_length. }
  rewrite !Hlen.
  rewrite upsert_length. case_bool_decide as Hin.
  - destruct (index_of vid (entries vm)) as [k|] eqn:E; [done|].
    apply index_of_None in E. done.
  - assert (index_of vid (entries vm) = None) as -> by by apply index_of_None.
    lia.
Qed.

Lemma modify_grows_only_for_new_id_witness :
  exists out,
    modify (pack [(Byte.x01, LittleEndian.PutUint64 10)]) 1 20 = Ok (out, true)
    /\ length out = if bool_decide (1 ∈ vids (pack [(Byte.x01, LittleEndian.PutUint64 10)]))
                    then length (pack [(Byte.x01, LittleEndian.PutUint64 10)])
                    else (length (pack [(Byte.x01, LittleEndian.PutUint64 10)]) + 9)%nat.
Proof.
  apply (modify_grows_only_for_new_id (pack [(Byte.x01, LittleEndian.PutUint64 10)]) 1 20).
  reflexivity.
Defined.

End VmapLookupProperties.

(* ================================================================== *)
(** * Further properties of the supervoxel map *)
(* ================================================================== *)

Section ShortVersionProperties.
Import SVMap VmapRecords.

Implicit Types (svm : t) (v vid supervoxel label : Z).

(** What a successful [createShortVersion] leaves behind. *)
Lemma createShortVersion_ok svm v svm1 vid :
  inv svm -> createShortVersion svm v = (svm1, vid, None) ->
  fm svm1 = fm svm /\ ancestry svm1 = ancestry svm
  /\ versions svm1 !! v = Some vid
  /\ 0 <= vid < numVersions svm1 /\ numVersions svm <= numVersions svm1 <= 255
  /\ (forall v' id, versions svm !! v' = Some id -> versions svm1 !! v' = Some id).
Proof.
  intros Hinv Hc. pose proof (inv_count _ Hinv) as Hcount.
  destruct (versions svm !! v) as [id|] eqn:E.
  - rewrite (createShortVersion_known _ _ _ E) in Hc. injection Hc as <- <-.
    pose proof (inv_ids _ Hinv _ _ E). split_and!; try done; lia.
  - destruct (Z.eq_dec (numVersions svm) 255) as [H|H].
    + by rewrite (createShortVersion_limit _ _ E H) in Hc.
    + rewrite (createShortVersion_new _ _ E H) in Hc. injection Hc as <- <-.
      cbn [fm ancestry versions numVersions].
      assert (wrap8 (numVersions svm + 1) = numVersions svm + 1) as ->
        by (unfold wrap8; apply Z.mod_small; lia).
      split_and!; try done; try lia.
      * apply lookup_insert_eq.
      * intros v' id Hv'. rewrite lookup_insert_ne; [done|]. intros ->. congruence.
Qed.

(** The map after a successful [MapSupervoxel]. *)
Lemma MapSupervoxel_ok svm v supervoxel label svm1 vid :
  inv svm -> createShortVersion svm v = (svm1, vid, None) ->
  MapSupervoxel svm v supervoxel label
  = Ok (set_fm svm1
          (<[supervoxel :=
               Vmap.pack (Vmap.upsert vid label
                            (Vmap.entries (default [] (fm svm1 !! supervoxel))))]>
             (fm svm1)), None).
Proof.
  intros Hinv Hc. unfold MapSupervoxel. rewrite Hc.
  pose proof (createShortVersion_inv svm v Hinv) as Hinv1. rewrite Hc in Hinv1.
  cbn [fst] in Hinv1.
  rewrite (modify_packed _ vid label (entry_packed svm1 supervoxel Hinv1)).
  reflexivity.
Qed.

Lemma MapSupervoxel_cases svm v supervoxel label svm' e :
  inv svm -> MapSupervoxel svm v supervoxel label = Ok (svm', e) ->
  (e <> None /\ svm' = svm)
  \/ (e = None /\ exists svm1 vid,
        createShortVersion svm v = (svm1, vid, None)
        /\ svm' = set_fm svm1
             (<[supervoxel :=
                  Vmap.pack (Vmap.upsert vid label
                               (Vmap.entries (default [] (fm svm1 !! supervoxel))))]>
                (fm svm1))).
Proof.
  intros Hinv Hmap.
  destruct (createShortVersion svm v) as [[svm1 vid] [err|]] eqn:Hc.
  - left. destruct (MapSupervoxel_result svm v supervoxel label Hinv)
      as (svm2 & Hres & _ & _ & _ & _ & Hsame).
    rewrite Hc in Hres, Hsame. cbn [snd] in Hres, Hsame.
    rewrite Hres in Hmap. injection Hmap as <- <-. split; [done|]. by apply Hsame.
  - right. rewrite (MapSupervoxel_ok svm v supervoxel label svm1 vid Hinv Hc) in Hmap.
    injection Hmap as <- <-. split; [done|]. by exists svm1, vid.
Qed.

(** X5: allocation of a short id is idempotent in every state of the map:
    a second [createShortVersion] for the same version returns the id and
    the error of the first and leaves the map as the first left it. *)
Theorem createShortVersion_second_call (svm : t) (v : Z) :
  createShortVersion (createShortVersion svm v).1.1 v
  = ((createShortVersion svm v).1.1, (createShortVersion svm v).1.2,
     (createShortVersion svm v).2).
Proof.
  rewrite createShortVersion_idempotent.
  by destruct (createShortVersion svm v) as [[? ?] ?].
Qed.

(** X6: short ids are stable and never shared. On a map built from the
    empty one, [createShortVersion] keeps the id of every version that had
    one, gives the asked version an id below 255 when it returns no error,
    and leaves no two versions with the same id. *)
Theorem createShortVersion_ids_stable_and_distinct (svm : t) (v : Z) :
  inv svm ->
  inv (createShortVersion svm v).1.1
  /\ (forall v' id, versions svm !! v' = Some id ->
        versions (createShortVersion svm v).1.1 !! v' = Some id)
  /\ (forall v1 v2 id,
        versions (createShortVersion svm v).1.1 !! v1 = Some id ->
        versions (createShortVersion svm v).1.1 !! v2 = Some id -> v1 = v2)
  /\ ((createShortVersion svm v).2 = None ->
        versions (createShortVersion svm v).1.1 !! v = Some (createShortVersion svm v).1.2
        /\ 0 <= (createShortVersion svm v).1.2 < 255).
Proof.
  intros Hinv. pose proof (createShortVersion_inv svm v Hinv) as Hinv1.
  split; [exact Hinv1|].
  destruct (createShortVersion svm v) as [[svm1 vid] err] eqn:Hc. cbn [fst snd] in *.
  split_and!.
  - intros v' id Hv'. destruct err as [e|].
    + unfold createShortVersion in Hc. destruct (versions svm !! v); [by injection Hc|].
      destruct (numVersions svm =? 255); [|done]. by injection Hc as <- _ _.
    + by apply (createShortVersion_ok svm v svm1 vid Hinv Hc).
  - intros v1 v2 id H1 H2.
    apply (inv_rev _ Hinv1) in H1. apply (inv_rev _ Hinv1) in H2. congruence.
  - intros ->. destruct (createShortVersion_ok svm v svm1 vid Hinv Hc)
      as (_ & _ & Hv & Hid & Hn & _). split; [done|]. lia.
Qed.

Lemma createShortVersion_ids_stable_and_distinct_witness :
  inv (createShortVersion empty 4).1.1
  /\ versions (createShortVersion empty 4).1.1 !! 4 = Some 0.
Proof.
  destruct (createShortVersion_ids_stable_and_distinct empty 4 inv_empty)
    as (H1 & _ & _ & H4).
  split; [exact H1|]. apply H4. reflexivity.
Defined.

End ShortVersionProperties.

Section SVMapRoundTrip.
Import SVMap VmapRecords.

Variable GetAncestry : Z -> option (list Z).

Implicit Types (svm : t) (v vid supervoxel label : Z).

(** [getAncestry] for a version that has the short id [vid]: the list starts
    with [vid], when the ancestry is cached or the DAG gives one. *)
Lemma getAncestry_current svm v vid :
  versions svm !! v = Some vid ->
  is_Some (ancestry svm !! v) \/ (exists a rest, GetAncestry v = Some (a :: rest)) ->
  exists svm' anc,
    getAncestry GetAncestry svm v = Ok (svm', Some (vid :: anc))
    /\ fm svm' = fm svm.
Proof.
  intros Hv Hsrc. unfold getAncestry.
  destruct (ancestry svm !! v) as [anc|] eqn:E.
  - exists svm, anc. unfold withCurrent. by rewrite Hv.
  - destruct Hsrc as [[? ?]|(a & rest & Hg)]; [done|]. rewrite Hg.
    eexists _, _. unfold withCurrent. cbn [versions set_ancestry]. rewrite Hv.
    split; reflexivity.
Qed.

(** X7: [MapSupervoxel] then [MappedLabel]. On a map built from the empty
    one, after [MapSupervoxel(v, supervoxel, label)] has returned no error,
    [MappedLabel(v, supervoxel)] returns [(label, true)], provided the
    ancestry of [v] is cached or [GetAncestry(v)] returns a non-empty list. *)
Theorem MapSupervoxel_then_MappedLabel svm v supervoxel label svm' :
  inv svm -> is_uint64 label ->
  MapSupervoxel svm v supervoxel label = Ok (svm', None) ->
  is_Some (ancestry svm !! v) \/ (exists a rest, GetAncestry v = Some (a :: rest)) ->
  exists svm'',
    MappedLabel GetAncestry (Some svm') v supervoxel = Ok (Some svm'', (label, true)).
Proof.
  intros Hinv Hl Hmap Hsrc.
  destruct (MapSupervoxel_cases svm v supervoxel label svm' None Hinv Hmap)
    as [[? _]|(_ & svm1 & vid & Hc & ->)]; [done|].
  destruct (createShortVersion_ok svm v svm1 vid Hinv Hc)
    as (Hfm & Hanc & Hv & Hid & Hn & _).
  set (es := Vmap.upsert vid label (Vmap.entries (default [] (fm svm1 !! supervoxel)))).
  assert (Forall Vmap.len8 es) as Hes by apply upsert_len8, entries_len8.
  set (svm2 := set_fm svm1 (<[supervoxel := Vmap.pack es]> (fm svm1))).
  destruct (getAncestry_current svm2 v vid) as (svm3 & anc & Hga & _).
  { exact Hv. }
  { cbn [ancestry svm2 set_fm]. by rewrite Hanc. }
  exists svm3.
  rewrite (MappedLabel_resolve GetAncestry svm2 svm3 v supervoxel (Vmap.pack es) (vid :: anc)).
  - rewrite entries_pack by done. rewrite resolve_find_label.
    destruct (find_label_upsert_same vid label
                (Vmap.entries (default [] (fm svm1 !! supervoxel)))) as (k & Hk & Hf).
    { unfold is_uint8. lia. }
    { exact Hl. }
    fold es in Hk, Hf. by rewrite Hk, Hf.
  - cbn [fm svm2 set_fm]. apply lookup_insert_eq.
  - by apply pack_packed.
  - exact Hga.
Qed.



(** X9: the ancestry cache is filled once. A second [getAncestry] for the
    same version returns what the first returned and leaves the map as the
    first left it. *)
Theorem getAncestry_second_call svm v svm1 r :
  getAncestry GetAncestry svm v = Ok (svm1, r) ->
  getAncestry GetAncestry svm1 v = Ok (svm1, r).
Proof.
  unfold getAncestry.
  destruct (ancestry svm !! v) as [anc|] eqn:E.
  - intros [= <- <-]. by rewrite E.
  - destruct (GetAncestry v) as [[|a ancestors]|] eqn:Hg.
    + done.
    + intros [= <- <-]. cbn [ancestry set_ancestry]. by rewrite lookup_insert_eq.
    + intros [= <- <-]. by rewrite E.
Qed.

(** X10: one record per version in every vmap. On a map built from the
    empty one in which every vmap is whole 9-byte records with pairwise
    distinct version ids, all of them short ids handed out, [MapSupervoxel]
    leaves a map of which the same holds. *)
Theorem MapSupervoxel_keeps_vmaps_wf svm v supervoxel label svm' e :
  inv svm -> all_wf svm ->
  MapSupervoxel svm v supervoxel label = Ok (svm', e) ->
  all_wf svm'.
Proof.
  intros Hinv Hwf Hmap.
  destruct (MapSupervoxel_cases svm v supervoxel label svm' e Hinv Hmap)
    as [[He ->]|(-> & svm1 & vid & Hc & ->)]; [done|].
  destruct (createShortVersion_ok svm v svm1 vid Hinv Hc)
    as (Hfm & Hanc & Hv & Hid & Hn & _).
  intros s vm. cbn [fm set_fm numVersions]. rewrite lookup_insert. case_decide as Hs.
  - intros [= <-]. subst s.
    set (old := default [] (fm svm1 !! supervoxel)).
    assert (NoDup (map Vmap.vid_of (Vmap.entries old))
            /\ Forall (fun id => 0 <= id < numVersions svm) (map Vmap.vid_of (Vmap.entries old)))
      as [Hnd Hids].
    { unfold old. rewrite Hfm. destruct (fm svm !! supervoxel) as [vm0|] eqn:E; cbn.
      - destruct (Hwf _ _ E) as [[_ Hnd] Hids]. done.
      - split; constructor. }
    assert (is_uint8 vid) as Hu by (unfold is_uint8; lia).
    pose proof (upsert_len8 vid label _ (entries_len8 old)) as Hes.
    split; [split|].
    + by apply pack_packed.
    + unfold Vmap.vids. rewrite entries_pack by done. by apply upsert_NoDup.
    + unfold Vmap.vids. rewrite entries_pack by done.
      change (fun r : byte * list byte => byte.unsigned r.1) with Vmap.vid_of.
      rewrite upsert_vids by done.
      assert (Forall (fun id => 0 <= id < numVersions svm1) (map Vmap.vid_of (Vmap.entries old)))
        as Hids' by (eapply Forall_impl; [exact Hids|]; intros id Hx; cbn beta in Hx |- *; lia).
      case_bool_decide; [done|]. apply Forall_app. split; [done|].
      constructor; [exact Hid|constructor].
  - intros Hvm. rewrite Hfm in Hvm. destruct (Hwf _ _ Hvm) as [Hwf1 Hids].
    split; [done|]. eapply Forall_impl; [exact Hids|]. intros id Hx. cbn beta in Hx |- *. lia.
Qed.

Lemma MapSupervoxel_keeps_vmaps_wf_witness :
  all_wf (set_fm (createShortVersion empty 1).1.1
            (<[7 := Vmap.pack (Vmap.upsert 0 10 [])]> ∅)).
Proof.
  apply (MapSupervoxel_keeps_vmaps_wf empty 1 7 10 _ None inv_empty).
  - intros s vm H. cbn in H. by rewrite lookup_empty in H.
  - reflexivity.
Defined.

End SVMapRoundTrip.

Lemma MapSupervoxel_then_MappedLabel_witness :
  exists svm'',
    SVMap.MappedLabel Examples.chain
      (Some (SVMap.set_fm (SVMap.createShortVersion SVMap.empty 1).1.1
               (<[7 := Vmap.pack (Vmap.upsert 0 10 [])]> ∅))) 1 7
    = Ok (Some svm'', (10, true)).
Proof.
  apply (MapSupervoxel_then_MappedLabel Examples.chain SVMap.empty 1 7 10).
  - apply inv_empty.
  - unfold is_uint64. lia.
  - reflexivity.
  - right. exists 1, [0]. reflexivity.
Defined.

Lemma getAncestry_second_call_witness :
  SVMap.getAncestry Examples.chain (SVMap.set_ancestry SVMap.empty (<[2 := []]> ∅)) 2
  = Ok (SVMap.set_ancestry SVMap.empty (<[2 := []]> ∅), Some []).
Proof.
  apply (getAncestry_second_call Examples.chain SVMap.empty 2). reflexivity.
Defined.

(* ================================================================== *)
(** * Further properties of the mapping operations *)
(* ================================================================== *)

Section MapAllFacts.
Import Vmap SVMap SVMapOps VmapRecords.

Implicit Types (fm : gmap Z (list byte)) (svm : t) (v vid s label : Z).

Local Abbreviation all_packed fm := (forall s vm, fm !! s = Some vm -> packed vm).

Lemma find_label_None vid es :
  find_label vid es = None <-> index_of vid es = None.
Proof.
  unfold find_label. destruct (index_of vid es) as [k|] eqn:E; [|done].
  pose proof (index_of_lt vid es k E) as Hlt.
  destruct (lookup_lt_is_Some_2 es k Hlt) as [r Hr]. rewrite Hr. cbn. split; discriminate.
Qed.

Lemma resolve_cons vid anc es :
  resolve es (vid :: anc)
  = match find_label vid es with
    | Some l => Some l
    | None => resolve es anc
    end.
Proof.
  rewrite resolve_find_label.
  destruct (index_of vid es) as [k|] eqn:E.
  - destruct (find_label vid es) eqn:F; [done|].
    apply find_label_None in F. congruence.
  - apply find_label_None in E. by rewrite E.
Qed.

Lemma default_packed fm s : all_packed fm -> packed (default [] (fm !! s)).
Proof.
  intros Hp. destruct (fm !! s) as [vm|] eqn:E; cbn; [by apply (Hp s)|reflexivity].
Qed.

Lemma label_at_insert_eq fm s vid es :
  Forall len8 es -> label_at (<[s := pack es]> fm) s vid = find_label vid es.
Proof.
  intros Hes. unfold label_at. rewrite lookup_insert_eq. cbn [default from_option id].
  by rewrite entries_pack.
Qed.

Lemma label_at_insert_ne fm s s' vid vm :
  s <> s' -> label_at (<[s := vm]> fm) s' vid = label_at fm s' vid.
Proof. intros Hne. unfold label_at. by rewrite lookup_insert_ne. Qed.

(** One round of the shared loop. *)
Lemma map_all_cons fm vid label s svs :
  all_packed fm ->
  map_all fm vid label (s :: svs)
  = map_all (<[s := pack (upsert vid label (entries (default [] (fm !! s))))]> fm)
      vid label svs
  /\ all_packed (<[s := pack (upsert vid label (entries (default [] (fm !! s))))]> fm).
Proof.
  intros Hp. cbn [map_all].
  rewrite (modify_packed _ vid label (default_packed fm s Hp)). split; [done|].
  intros s' vm. rewrite lookup_insert. case_decide.
  - intros [= <-]. apply pack_packed, upsert_len8, entries_len8.
  - apply Hp.
Qed.

(** The shared loop returns; it leaves whole records, sets the record of
    [vid] in the vmap of each supervoxel of the list, and changes nothing
    else. *)
Lemma map_all_spec svs :
  forall fm vid label,
    all_packed fm -> is_uint8 vid ->
    exists fm',
      map_all fm vid label svs = Ok fm'
      /\ all_packed fm'
      /\ (forall s, s ∉ svs -> fm' !! s = fm !! s)
      /\ (forall s, s ∈ svs -> is_Some (fm' !! s))
      /\ (forall s, s ∈ svs -> is_uint64 label -> label_at fm' s vid = Some label)
      /\ (forall s vid', vid' <> vid -> label_at fm' s vid' = label_at fm s vid').
Proof.
  induction svs as [|s0 svs IH]; intros fm vid label Hp Hv.
  - exists fm. split_and!; try done.
    + intros s Hs. by apply not_elem_of_nil in Hs.
    + intros s Hs. by apply not_elem_of_nil in Hs.
  - destruct (map_all_cons fm vid label s0 svs Hp) as [-> Hp1].
    set (es := upsert vid label (entries (default [] (fm !! s0)))) in *.
    assert (Forall len8 es) as Hes by apply upsert_len8, entries_len8.
    destruct (IH (<[s0 := pack es]> fm) vid label Hp1 Hv)
      as (fm' & Hm & Hp' & Hout & Hin & Hset & Hoth).
    exists fm'. split_and!; try done.
    + intros s Hs. apply not_elem_of_cons in Hs as [Hne Hs].
      rewrite (Hout s Hs). by rewrite lookup_insert_ne.
    + intros s Hs. destruct (decide (s ∈ svs)) as [Hd|Hd]; [by apply Hin|].
      rewrite (Hout s Hd). apply elem_of_cons in Hs as [->|Hs]; [|done].
      rewrite lookup_insert_eq. by eexists.
    + intros s Hs Hl. destruct (decide (s ∈ svs)) as [Hd|Hd]; [by apply Hset|].
      apply elem_of_cons in Hs as [->|Hs]; [|done].
      unfold label_at. rewrite (Hout s0 Hd). fold (label_at (<[s0 := pack es]> fm) s0 vid).
      rewrite label_at_insert_eq by done.
      by destruct (find_label_upsert_same vid label (entries (default [] (fm !! s0))) Hv Hl)
        as (k & _ & Hf).
    + intros s vid' Hne. rewrite (Hoth s vid' Hne).
      destruct (decide (s0 = s)) as [<-|Hs].
      * rewrite label_at_insert_eq by done. by apply find_label_upsert_ne.
      * by apply label_at_insert_ne.
Qed.

Lemma map_all_keeps svs fm vid label fm' s :
  all_packed fm -> is_uint8 vid ->
  map_all fm vid label svs = Ok fm' -> is_Some (fm !! s) -> is_Some (fm' !! s).
Proof.
  intros Hp Hv Hm Hs.
  destruct (map_all_spec svs fm vid label Hp Hv) as (fm2 & Hm2 & _ & Hout & Hin & _).
  rewrite Hm2 in Hm. injection Hm as <-.
  destruct (decide (s ∈ svs)) as [Hd|Hd]; [by apply Hin|]. by rewrite (Hout s Hd).
Qed.

(** The loop over a list of operations: it returns, and for each supervoxel
    the last operation that lists it decides the record of [vid]. *)
Lemma map_ops_spec ops :
  forall fm vid,
    all_packed fm -> is_uint8 vid ->
    exists fm',
      map_ops fm vid ops = Ok fm'
      /\ all_packed fm'
      /\ (forall s, (forall op, op ∈ ops -> s ∉ Original op) -> fm' !! s = fm !! s)
      /\ (forall s vid', vid' <> vid -> label_at fm' s vid' = label_at fm s vid')
      /\ (forall s, is_Some (fm !! s) -> is_Some (fm' !! s))
      /\ (forall pre op post s,
            ops = pre ++ op :: post -> s ∈ Original op ->
            (forall op', op' ∈ post -> s ∉ Original op') ->
            is_uint64 (Mapped op) ->
            label_at fm' s vid = Some (Mapped op) /\ is_Some (fm' !! s)).
Proof.
  induction ops as [|op0 ops IH]; intros fm vid Hp Hv.
  - exists fm. split_and!; try done.
    intros pre op post s Heq. by destruct pre.
  - cbn [map_ops].
    destruct (map_all_spec (Original op0) fm vid (Mapped op0) Hp Hv)
      as (fm1 & Hm1 & Hp1 & Hout1 & Hin1 & Hset1 & Hoth1).
    rewrite Hm1.
    destruct (IH fm1 vid Hp1 Hv) as (fm' & Hm & Hp' & Hout & Hoth & Hkeep & Hlast).
    exists fm'. split_and!; try done.
    + intros s Hs. rewrite Hout.
      * apply Hout1. apply Hs. apply elem_of_cons. by left.
      * intros op Hop. apply Hs. apply elem_of_cons. by right.
    + intros s vid' Hne. by rewrite Hoth, Hoth1.
    + intros s Hs. apply Hkeep. by apply (map_all_keeps _ _ _ _ _ _ Hp Hv Hm1).
    + intros pre op post s Heq Hs Hpost Hl.
      destruct pre as [|op1 pre]; cbn in Heq; injection Heq as -> ->.
      * unfold label_at. rewrite (Hout s Hpost).
        split; [by apply Hset1|by apply Hin1].
      * by apply (Hlast pre op post s).
Qed.

Lemma map_ops_app ops1 ops2 fm vid :
  map_ops fm vid (ops1 ++ ops2)
  = match map_ops fm vid ops1 with
    | Ok fm1 => map_ops fm1 vid ops2
    | Panic => Panic
    end.
Proof.
  revert fm. induction ops1 as [|op ops1 IH]; intros fm; cbn [map_ops app]; [done|].
  destruct (map_all fm vid (Mapped op) (Original op)); [apply IH|done].
Qed.

Lemma inv_set_fm svm fm :
  inv svm -> all_packed fm -> inv (set_fm svm fm).
Proof. intros [Hp Hc Hs Hi Hr] Hfm. by split. Qed.

Lemma inv_set_ancestry svm a : inv svm -> inv (set_ancestry svm a).
Proof. intros [Hp Hc Hs Hi Hr]. by split. Qed.

Lemma set_fm_same svm : set_fm svm (fm svm) = svm.
Proof. by destruct svm. Qed.

End MapAllFacts.

Section LookupAfterMapping.
Import Vmap SVMap SVMapOps VmapRecords.

Variable GetAncestry : Z -> option (list Z).

Implicit Types (svm : t) (v vid s label : Z).

(** [MappedLabel] at a version whose short id has a record in the vmap of
    the supervoxel: the label of that record. *)
Lemma MappedLabel_at svm v vid s label :
  inv svm -> versions svm !! v = Some vid -> is_Some (fm svm !! s) ->
  label_at (fm svm) s vid = Some label ->
  is_Some (ancestry svm !! v) \/ (exists a rest, GetAncestry v = Some (a :: rest)) ->
  exists svm',
    MappedLabel GetAncestry (Some svm) v s = Ok (Some svm', (label, true))
    /\ fm svm' = fm svm /\ versions svm' = versions svm
    /\ versionsRev svm' = versionsRev svm /\ numVersions svm' = numVersions svm.
Proof.
  intros Hinv Hv [vm Hvm] Hl Hsrc.
  unfold label_at in Hl. rewrite Hvm in Hl. cbn [default from_option id] in Hl.
  pose proof (inv_packed _ Hinv _ _ Hvm) as Hpk.
  unfold MappedLabel.
  assert ((size (fm svm) =? 0)%nat = false) as ->.
  { apply Nat.eqb_neq. intros H0. apply map_size_empty_inv in H0.
    rewrite H0 in Hvm. by rewrite lookup_empty in Hvm. }
  rewrite Hvm. unfold getAncestry.
  destruct (ancestry svm !! v) as [anc|] eqn:E.
  - cbn [mbind result_bind]. unfold withCurrent. rewrite Hv.
    rewrite (value_packed _ _ Hpk), resolve_cons, Hl. cbn.
    by exists svm.
  - destruct Hsrc as [[? ?]|(a & rest & Hg)]; [done|]. rewrite Hg.
    cbn [mbind result_bind]. unfold withCurrent. cbn [versions set_ancestry]. rewrite Hv.
    rewrite (value_packed _ _ Hpk), resolve_cons, Hl. cbn.
    by eexists.
Qed.

End LookupAfterMapping.

Section InitFacts.
Import Vmap SVMap SVMapOps VmapRecords.

Variable GetAncestry : Z -> option (list Z).
Variable ReadMappingLog : Z -> option (list MappingOp).

Implicit Types (svm : t) (v vid s label : Z).

Lemma createShortVersion_only svm v svm1 vid e v' id :
  createShortVersion svm v = (svm1, vid, e) ->
  versions svm1 !! v' = Some id -> v' = v \/ versions svm !! v' = Some id.
Proof.
  unfold createShortVersion. destruct (versions svm !! v) as [id0|] eqn:E.
  - intros [= <- _ _]. by right.
  - destruct (numVersions svm =? 255).
    + intros [= <- _ _]. by right.
    + intros [= <- _ _]. cbn [versions]. rewrite lookup_insert. case_decide; [by left|by right].
Qed.

Lemma createShortVersion_error svm v svm1 vid e :
  createShortVersion svm v = (svm1, vid, Some e) -> svm1 = svm.
Proof.
  unfold createShortVersion. destruct (versions svm !! v); [by intros [= <- _]|].
  destruct (numVersions svm =? 255); [by intros [= <- _]|done].
Qed.

(** The loop of [initToVersion] on a map built from the empty one. *)
Lemma init_ancestors_spec v ancestors :
  forall svm,
    inv svm ->
    exists svm' e,
      init_ancestors ReadMappingLog svm v ancestors = Ok (svm', e)
      /\ inv svm'
      /\ ancestry svm' = ancestry svm
      /\ (forall v' id, versions svm !! v' = Some id -> versions svm' !! v' = Some id)
      /\ (forall v' id, versions svm' !! v' = Some id ->
            v' = v \/ versions svm !! v' = Some id)
      /\ (forall s vid', versions svm' !! v <> Some vid' ->
            label_at (fm svm') s vid' = label_at (fm svm) s vid')
      /\ (forall s, is_Some (fm svm !! s) -> is_Some (fm svm' !! s)).
Proof.
  induction ancestors as [|a ancestors IH]; intros svm Hinv; cbn [init_ancestors].
  - exists svm, None. split_and!; try done. intros v' id Hv'. by right.
  - destruct (versions svm !! a) as [ida|] eqn:Ea; [by apply IH|].
    destruct (ReadMappingLog a) as [ops|].
    2:{ exists svm, (Some ErrBackend). split_and!; try done. intros v' id Hv'. by right. }
    destruct (length ops =? 0)%nat; [by apply IH|].
    destruct (createShortVersion svm v) as [[svm1 vid] [e|]] eqn:Hc.
    { pose proof (createShortVersion_error _ _ _ _ _ Hc) as ->.
      exists svm, (Some e). split_and!; try done. intros v' id Hv'. by right. }
    pose proof (createShortVersion_inv svm v Hinv) as Hinv1. rewrite Hc in Hinv1.
    cbn [fst] in Hinv1.
    destruct (createShortVersion_ok svm v svm1 vid Hinv Hc)
      as (Hfm & Hanc & Hv & Hid & Hn & Hstable).
    assert (is_uint8 vid) as Hu by (unfold is_uint8; lia).
    destruct (map_ops_spec ops (fm svm1) vid (inv_packed _ Hinv1) Hu)
      as (fm' & Hm & Hp' & Hout & Hoth & Hkeep & _).
    rewrite Hm.
    destruct (IH (set_fm svm1 fm') (inv_set_fm _ _ Hinv1 Hp'))
      as (svm' & e & Hi & Hinv' & Hanc' & Hst' & Honly' & Hlab' & Hkeep').
    exists svm', e. split_and!; try done.
    + by rewrite Hanc'.
    + intros v' id Hv'. apply Hst'. cbn [versions set_fm]. by apply Hstable.
    + intros v' id Hv'. destruct (Honly' v' id Hv') as [->|H]; [by left|].
      cbn [versions set_fm] in H. by apply (createShortVersion_only _ _ _ _ _ _ _ Hc).
    + intros s vid' Hne. rewrite (Hlab' s vid' Hne). cbn [fm set_fm].
      assert (vid' <> vid) as Hne'.
      { intros ->. apply Hne. apply Hst'. exact Hv. }
      by rewrite (Hoth s vid' Hne'), Hfm.
    + intros s Hs. apply Hkeep'. cbn [fm set_fm]. apply Hkeep. by rewrite Hfm.
Qed.

Lemma pending_ops_set_fm svm fm' ancestors :
  pending_ops ReadMappingLog (set_fm svm fm') ancestors
  = pending_ops ReadMappingLog svm ancestors.
Proof.
  induction ancestors as [|a ancestors IH]; cbn [pending_ops versions set_fm]; [done|].
  by rewrite IH.
Qed.

(** On a version that has its short id already, the loop replays the logs
    of the ancestors without a short id, in the order of the list. *)
Lemma init_ancestors_replay v vid ancestors :
  forall svm ops,
    inv svm -> versions svm !! v = Some vid ->
    pending_ops ReadMappingLog svm ancestors = Some ops ->
    exists fm',
      map_ops (fm svm) vid ops = Ok fm'
      /\ (forall s vm, fm' !! s = Some vm -> packed vm)
      /\ init_ancestors ReadMappingLog svm v ancestors = Ok (set_fm svm fm', None).
Proof.
  induction ancestors as [|a ancestors IH]; intros svm ops Hinv Hv;
    cbn [init_ancestors pending_ops].
  - intros [= <-]. exists (fm svm). rewrite set_fm_same.
    split_and!; try done. apply (inv_packed _ Hinv).
  - destruct (versions svm !! a) as [ida|] eqn:Ea; [by apply IH|].
    destruct (ReadMappingLog a) as [ops_a|]; [|done].
    destruct (pending_ops ReadMappingLog svm ancestors) as [ops_r|] eqn:Hp; [|done].
    cbn. intros [= <-].
    assert (is_uint8 vid) as Hu.
    { pose proof (inv_ids _ Hinv _ _ Hv). pose proof (inv_count _ Hinv).
      unfold is_uint8. lia. }
    destruct (length ops_a =? 0)%nat eqn:El.
    { apply Nat.eqb_eq in El. destruct ops_a; [|done]. cbn [app]. by apply IH. }
    rewrite (createShortVersion_known _ _ _ Hv).
    destruct (map_ops_spec ops_a (fm svm) vid (inv_packed _ Hinv) Hu)
      as (fm1 & Hm1 & Hp1 & _).
    rewrite Hm1.
    destruct (IH (set_fm svm fm1) ops_r (inv_set_fm _ _ Hinv Hp1) Hv)
      as (fm' & Hm & Hp' & Hi).
    { by rewrite pending_ops_set_fm. }
    exists fm'. rewrite map_ops_app, Hm1. split_and!; try done.
Qed.

(** X11: [initToVersion] registers no version but [v] and writes only
    under the short id of [v]. On a map built from the empty one it returns
    without a panic; every version with a short id afterwards is [v] or had
    that id before; the ancestry cache is unchanged; and in every vmap the
    record of any short id other than the one of [v] is what it was, also
    for mappings read from the logs of ancestors. *)
Theorem initToVersion_registers_only_v svm v :
  inv svm ->
  exists svm' e,
    initToVersion GetAncestry ReadMappingLog svm v = Ok (svm', e)
    /\ inv svm'
    /\ ancestry svm' = ancestry svm
    /\ (forall v' id, versions svm' !! v' = Some id ->
          v' = v \/ versions svm !! v' = Some id)
    /\ (forall s vid', versions svm' !! v <> Some vid' ->
          label_at (fm svm') s vid' = label_at (fm svm) s vid').
Proof.
  intros Hinv. unfold initToVersion. destruct (GetAncestry v) as [ancestors|].
  - destruct (init_ancestors_spec v ancestors svm Hinv)
      as (svm' & e & Hi & Hinv' & Hanc & _ & Honly & Hlab & _).
    by exists svm', e.
  - exists svm, (Some ErrAncestry). split_and!; try done. intros v' id Hv'. by right.
Qed.

(** X12: [initToVersion] on a version that has a short id replays the logs
    of the ancestors that have none. The operations of these logs are
    applied under the short id of [v], nearest ancestor first, so that for
    a supervoxel the last of them that lists it decides what [MappedLabel]
    returns at [v], whatever the map held for the supervoxel at [v]
    before. *)
Theorem initToVersion_replays_ancestor_logs svm v vid a rest pre op post s :
  inv svm -> versions svm !! v = Some vid ->
  GetAncestry v = Some (a :: rest) ->
  pending_ops ReadMappingLog svm (a :: rest) = Some (pre ++ op :: post) ->
  s ∈ Original op -> (forall op', op' ∈ post -> s ∉ Original op') ->
  is_uint64 (Mapped op) ->
  exists svm' svm'',
    initToVersion GetAncestry ReadMappingLog svm v = Ok (svm', None)
    /\ MappedLabel GetAncestry (Some svm') v s = Ok (Some svm'', (Mapped op, true)).
Proof.
  intros Hinv Hv Hg Hpend Hs Hpost Hl. unfold initToVersion. rewrite Hg.
  destruct (init_ancestors_replay v vid (a :: rest) svm _ Hinv Hv Hpend)
    as (fm' & Hm & Hp' & Hi).
  assert (is_uint8 vid) as Hu.
  { pose proof (inv_ids _ Hinv _ _ Hv). pose proof (inv_count _ Hinv).
    unfold is_uint8. lia. }
  destruct (map_ops_spec (pre ++ op :: post) (fm svm) vid (inv_packed _ Hinv) Hu)
    as (fm2 & Hm2 & _ & _ & _ & _ & Hlast).
  rewrite Hm2 in Hm. injection Hm as ->.
  destruct (Hlast pre op post s eq_refl Hs Hpost Hl) as [Hlab Hsome].
  destruct (MappedLabel_at GetAncestry (set_fm svm fm') v vid s (Mapped op))
    as (svm'' & Hml & _); try done.
  - by apply inv_set_fm.
  - right. by exists a, rest.
  - by exists (set_fm svm fm'), svm''.
Qed.

End InitFacts.

Lemma initToVersion_registers_only_v_witness :
  exists svm' e,
    SVMapOps.initToVersion Examples.chain Examples.mapping_log SVMap.empty 1 = Ok (svm', e)
    /\ SVMap.inv svm'.
Proof.
  destruct (initToVersion_registers_only_v Examples.chain Examples.mapping_log
              SVMap.empty 1 inv_empty) as (svm' & e & H & Hinv & _).
  by exists svm', e.
Defined.

Lemma initToVersion_replays_ancestor_logs_witness :
  exists svm' svm'',
    SVMapOps.initToVersion Examples.chain Examples.mapping_log
      (SVMap.createShortVersion SVMap.empty 1).1.1 1 = Ok (svm', None)
    /\ SVMap.MappedLabel Examples.chain (Some svm') 1 5 = Ok (Some svm'', (7, true)).
Proof.
  apply (initToVersion_replays_ancestor_logs Examples.chain Examples.mapping_log
           (SVMap.createShortVersion SVMap.empty 1).1.1 1 0 1 [0] []
           (SVMapOps.mkOp 1 7 [5]) [] 5).
  - apply createShortVersion_inv, inv_empty.
  - reflexivity.
  - reflexivity.
  - reflexivity.
  - cbn. apply elem_of_cons. by left.
  - intros op' H. by apply not_elem_of_nil in H.
  - unfold is_uint64. cbn. lia.
Defined.

Section MappingOpsFacts.
Import Vmap SVMap SVMapOps VmapRecords.

Variable GetAncestry : Z -> option (list Z).
Variable ReadMappingLog : Z -> option (list MappingOp).
Variable log_error : Z -> MappingOp -> option error.

Implicit Types (svm m : t) (w : world) (uuid v vid s label : Z).

Local Abbreviation getMapping := (SVMapOps.getMapping GetAncestry ReadMappingLog).
Local Abbreviation addMergeToMapping :=
  (SVMapOps.addMergeToMapping GetAncestry ReadMappingLog log_error).
Local Abbreviation addCleaveToMapping :=
  (SVMapOps.addCleaveToMapping GetAncestry ReadMappingLog log_error).
Local Abbreviation addSupervoxelSplitToMapping :=
  (SVMapOps.addSupervoxelSplitToMapping GetAncestry ReadMappingLog log_error).
Local Abbreviation ingestMappings :=
  (SVMapOps.ingestMappings GetAncestry ReadMappingLog log_error).

Lemma the_map_set_map w uuid m : the_map (set_map w uuid m) uuid = m.
Proof. unfold the_map, set_map. cbn [maps]. by rewrite lookup_insert_eq. Qed.

Lemma Uint64_uint64 b : is_uint64 (LittleEndian.Uint64 b).
Proof.
  unfold is_uint64, LittleEndian.Uint64.
  pose proof (le_combine_bound (take 8 b)) as Hb.
  assert (length (take 8 b) <= 8)%nat as Hlen by (rewrite length_take; lia).
  assert (2 ^ (8 * Z.of_nat (length (take 8 b))) <= 2 ^ 64)
    by (apply Z.pow_le_mono_r; lia).
  lia.
Qed.

Lemma resolve_uint64 es anc l : resolve es anc = Some l -> is_uint64 l.
Proof.
  induction anc as [|vid anc IH]; [done|]. cbn [resolve].
  destruct (index_of vid es) as [k|]; [|exact IH].
  destruct (es !! k) as [r|]; [|done]. cbn. intros [= <-]. apply Uint64_uint64.
Qed.

(** What [MappedLabel] leaves of the map, and what it can return. *)
Lemma MappedLabel_outcome m v s after mapped found :
  inv m ->
  MappedLabel GetAncestry (Some m) v s = Ok (after, (mapped, found)) ->
  (exists a, after = Some (set_ancestry m a))
  /\ (found = true -> is_uint64 mapped).
Proof.
  intros Hinv. unfold MappedLabel.
  assert (set_ancestry m (ancestry m) = m) as Hsame by (by destruct m).
  destruct (size (fm m) =? 0)%nat.
  { intros [= <- <- <-]. split; [by exists (ancestry m); rewrite Hsame|done]. }
  destruct (fm m !! s) as [vm|] eqn:Hvm.
  2:{ intros [= <- <- <-]. split; [by exists (ancestry m); rewrite Hsame|done]. }
  pose proof (inv_packed _ Hinv _ _ Hvm) as Hpk.
  unfold getAncestry.
  assert (forall m1 anc,
            (lp ← value vm anc; Ok (Some m1, lp)) = Ok (after, (mapped, found)) ->
            after = Some m1 /\ (found = true -> is_uint64 mapped)) as Hval.
  { intros m1 anc. rewrite (value_packed _ _ Hpk). cbn [mbind result_bind].
    destruct (resolve (entries vm) anc) as [l|] eqn:Hr; cbn.
    - intros [= <- <- <-]. split; [done|]. intros _. by apply (resolve_uint64 _ _ _ Hr).
    - intros [= <- <- <-]. done. }
  destruct (ancestry m !! v) as [anc|].
  - cbn [mbind result_bind]. intros H. apply Hval in H as [-> H].
    split; [by exists (ancestry m); rewrite Hsame|done].
  - destruct (GetAncestry v) as [[|a0 ancestors]|]; cbn [mbind result_bind].
    + done.
    + intros H. apply Hval in H as [-> H]. split; [by eexists|done].
    + intros [= <- <- <-]. split; [by exists (ancestry m); rewrite Hsame|done].
Qed.

Lemma getMapping_spec w uuid v :
  inv (the_map w uuid) ->
  exists m' e,
    getMapping w uuid v = Ok (set_map w uuid m', e) /\ inv m'.
Proof.
  intros Hinv. unfold SVMapOps.getMapping. fold (the_map w uuid).
  unfold initToVersion. destruct (GetAncestry v) as [ancestors|].
  - destruct (init_ancestors_spec ReadMappingLog v ancestors _ Hinv)
      as (m' & e & -> & Hinv' & _).
    by exists m', e.
  - by exists (the_map w uuid), (Some ErrAncestry).
Qed.

Lemma LogMapping_maps w v op :
  maps (LogMapping log_error w v op).1 = maps w.
Proof. unfold LogMapping. by destruct (log_error v op). Qed.

Lemma LogMapping_log w v op w' :
  LogMapping log_error w v op = (w', None) -> log w' = log w ++ [(v, op)].
Proof. unfold LogMapping. destruct (log_error v op); [done|]. by intros [= <-]. Qed.

Lemma LogMappings_maps ops : forall w v,
  maps (LogMappings log_error w v ops).1 = maps w.
Proof.
  induction ops as [|op ops IH]; intros w v; cbn [LogMappings]; [done|].
  pose proof (LogMapping_maps w v op) as H1.
  destruct (LogMapping log_error w v op) as [w1 [e|]]; cbn [fst] in *; [done|].
  by rewrite IH.
Qed.

Lemma the_map_maps w w' uuid : maps w' = maps w -> the_map w' uuid = the_map w uuid.
Proof. unfold the_map. by intros ->. Qed.

(** The steps that the mapping functions share after [getMapping]:
    [createShortVersion(v)] and the loop over the supervoxels. *)
Lemma map_under_version m v m1 vid label svs :
  inv m -> createShortVersion m v = (m1, vid, None) ->
  exists fm',
    map_all (fm m1) vid label svs = Ok fm'
    /\ inv (set_fm m1 fm')
    /\ (forall s, s ∉ svs -> fm' !! s = fm m !! s)
    /\ (is_uint64 label ->
        GetAncestry v <> None -> GetAncestry v <> Some [] ->
        forall s, s ∈ svs ->
          exists m'', MappedLabel GetAncestry (Some (set_fm m1 fm')) v s
                      = Ok (Some m'', (label, true))).
Proof.
  intros Hinv Hc.
  pose proof (createShortVersion_inv m v Hinv) as Hinv1. rewrite Hc in Hinv1.
  cbn [fst] in Hinv1.
  destruct (createShortVersion_ok m v m1 vid Hinv Hc)
    as (Hfm & Hanc & Hv & Hid & Hn & Hstable).
  assert (is_uint8 vid) as Hu by (unfold is_uint8; lia).
  destruct (map_all_spec svs (fm m1) vid label (inv_packed _ Hinv1) Hu)
    as (fm' & Hm & Hp' & Hout & Hin & Hset & _).
  exists fm'. split_and!; try done.
  - by apply inv_set_fm.
  - intros s Hs. by rewrite (Hout s Hs), Hfm.
  - intros Hl Hg1 Hg2 s Hs.
    destruct (MappedLabel_at GetAncestry (set_fm m1 fm') v vid s label)
      as (m'' & Hml & _); try done.
    + by apply inv_set_fm.
    + by apply Hin.
    + by apply Hset.
    + right. destruct (GetAncestry v) as [[|a rest]|]; try done. by exists a, rest.
    + by exists m''.
Qed.

(** [addMergeToMapping] that returns no error. *)
Lemma addMergeToMapping_ok w uuid v mutID toLabel svs w' :
  inv (the_map w uuid) ->
  addMergeToMapping w uuid v mutID toLabel svs = Ok (w', None) ->
  exists w1,
    getMapping w uuid v = Ok (w1, None)
    /\ inv (the_map w' uuid)
    /\ (forall s, s ∉ svs -> fm (the_map w' uuid) !! s = fm (the_map w1 uuid) !! s)
    /\ log w' = log w ++ match svs with
                         | [] => []
                         | _ => [(v, mkOp mutID toLabel svs)]
                         end
    /\ (is_uint64 toLabel -> GetAncestry v <> Some [] ->
        forall s, s ∈ svs ->
          exists m'', MappedLabel GetAncestry (Some (the_map w' uuid)) v s
                      = Ok (Some m'', (toLabel, true))).
Proof.
  intros Hinv. unfold SVMapOps.addMergeToMapping.
  destruct (getMapping_spec w uuid v Hinv) as (m' & e & Hg & Hinv').
  assert (e = None -> GetAncestry v <> None) as Hanc.
  { intros ->. unfold SVMapOps.getMapping, initToVersion in Hg.
    destruct (GetAncestry v); [done|]. by injection Hg. }
  rewrite Hg. destruct e as [e|]; [done|].
  rewrite the_map_set_map.
  destruct svs as [|s0 svs]; cbn [length Nat.eqb].
  { intros [= <-]. exists (set_map w uuid m'). rewrite the_map_set_map.
    split_and!; try done.
    - cbn. by rewrite app_nil_r.
    - intros _ _ s Hs. by apply not_elem_of_nil in Hs. }
  destruct (createShortVersion m' v) as [[m1 vid] [e|]] eqn:Hc; [done|].
  destruct (map_under_version m' v m1 vid toLabel (s0 :: svs) Hinv' Hc)
    as (fm' & Hm & Hinv2 & Hout & Hin).
  rewrite Hm. intros [= Hlog].
  pose proof (LogMapping_maps (set_map (set_map w uuid m') uuid (set_fm m1 fm')) v
                (mkOp mutID toLabel (s0 :: svs))) as Hmaps.
  pose proof (LogMapping_log (set_map (set_map w uuid m') uuid (set_fm m1 fm')) v
                (mkOp mutID toLabel (s0 :: svs)) w') as Hl.
  destruct (LogMapping log_error _ v (mkOp mutID toLabel (s0 :: svs))) as [w2 e2] eqn:HL.
  injection Hlog as -> ->. cbn [fst] in Hmaps.
  assert (the_map w' uuid = set_fm m1 fm') as Hthe.
  { rewrite (the_map_maps _ _ uuid Hmaps). apply the_map_set_map. }
  exists (set_map w uuid m'). rewrite Hthe, the_map_set_map.
  split_and!; try done.
  - by rewrite (Hl eq_refl).
  - intros Hu Hne. apply Hin; [done| |done]. by apply Hanc.
Qed.

Lemma addCleave_as_merge w uuid v op :
  addCleaveToMapping w uuid v op
  = addMergeToMapping w uuid v (CleaveMutID op) (CleavedLabel op) (CleavedSupervoxels op).
Proof. reflexivity. Qed.

(** X13: a merge maps every merged supervoxel to the target label. When
    [addMergeToMapping] returns no error on a map built from the empty one,
    [MappedLabel] at [v] returns [(toLabel, true)] for each supervoxel of
    the merge (given a non-empty ancestry of [v]); the vmaps of all other
    supervoxels are as [getMapping] left them; and the log has grown by the
    one operation [{mutID, toLabel, supervoxels}], or by nothing when the
    merge lists no supervoxel. *)
Theorem addMergeToMapping_maps_merged w uuid v mutID toLabel svs w' :
  inv (the_map w uuid) -> is_uint64 toLabel -> GetAncestry v <> Some [] ->
  addMergeToMapping w uuid v mutID toLabel svs = Ok (w', None) ->
  (forall s, s ∈ svs ->
     exists m'', MappedLabel GetAncestry (Some (the_map w' uuid)) v s
                 = Ok (Some m'', (toLabel, true)))
  /\ (exists w1, getMapping w uuid v = Ok (w1, None)
        /\ forall s, s ∉ svs -> fm (the_map w' uuid) !! s = fm (the_map w1 uuid) !! s)
  /\ log w' = log w ++ match svs with
                       | [] => []
                       | _ => [(v, mkOp mutID toLabel svs)]
                       end.
Proof.
  intros Hinv Hl Hne Hrun.
  destruct (addMergeToMapping_ok w uuid v mutID toLabel svs w' Hinv Hrun)
    as (w1 & Hg & _ & Hout & Hlog & Hin).
  split_and!; [by apply Hin|by exists w1|done].
Qed.

(** X14: a cleave maps every cleaved supervoxel to the cleaved label. When
    [addCleaveToMapping] returns no error on a map built from the empty
    one, [MappedLabel] at [v] returns [(op.CleavedLabel, true)] for each
    supervoxel of [op.CleavedSupervoxels], also for one listed twice, and
    the operation logged carries the mutation id, the cleaved label and the
    supervoxels of [op]. *)
Theorem addCleaveToMapping_maps_cleaved w uuid v op w' :
  inv (the_map w uuid) -> is_uint64 (CleavedLabel op) -> GetAncestry v <> Some [] ->
  addCleaveToMapping w uuid v op = Ok (w', None) ->
  (forall s, s ∈ CleavedSupervoxels op ->
     exists m'', MappedLabel GetAncestry (Some (the_map w' uuid)) v s
                 = Ok (Some m'', (CleavedLabel op, true)))
  /\ log w' = log w ++ match CleavedSupervoxels op with
                       | [] => []
                       | _ => [(v, mkOp (CleaveMutID op) (CleavedLabel op)
                                    (CleavedSupervoxels op))]
                       end.
Proof.
  intros Hinv Hl Hne Hrun. rewrite addCleave_as_merge in Hrun.
  destruct (addMergeToMapping_ok w uuid v _ _ _ w' Hinv Hrun)
    as (w1 & Hg & _ & Hout & Hlog & Hin).
  split; [by apply Hin|done].
Qed.

(** X15: the children of a supervoxel split inherit the label of the
    parent. When [addSupervoxelSplitToMapping] returns no error on a map
    built from the empty one, both the split and the remain supervoxel
    resolve at [v] to the label that [MappedLabel] found for the split
    supervoxel after [getMapping], or to the id of the split supervoxel
    when it found none; that label is the one logged. *)
Theorem addSupervoxelSplitToMapping_children_inherit w uuid v op w' :
  inv (the_map w uuid) -> is_uint64 (Supervoxel op) -> GetAncestry v <> Some [] ->
  addSupervoxelSplitToMapping w uuid v op = Ok (w', None) ->
  exists w1 after mapped found,
    getMapping w uuid v = Ok (w1, None)
    /\ MappedLabel GetAncestry (Some (the_map w1 uuid)) v (Supervoxel op)
       = Ok (after, (mapped, found))
    /\ (forall s, s ∈ [SplitSupervoxel op; RemainSupervoxel op] ->
          exists m'', MappedLabel GetAncestry (Some (the_map w' uuid)) v s
                      = Ok (Some m'', (if found then mapped else Supervoxel op, true)))
    /\ log w' = log w ++ [(v, mkOp (SplitMutID op)
                                (if found then mapped else Supervoxel op)
                                [SplitSupervoxel op; RemainSupervoxel op])].
Proof.
  intros Hinv Hsv Hne. unfold SVMapOps.addSupervoxelSplitToMapping.
  destruct (getMapping_spec w uuid v Hinv) as (m' & e & Hg & Hinv').
  assert (e = None -> GetAncestry v <> None) as Hanc.
  { intros ->. unfold SVMapOps.getMapping, initToVersion in Hg.
    destruct (GetAncestry v); [done|]. by injection Hg. }
  rewrite Hg. destruct e as [e|]; [done|]. specialize (Hanc eq_refl).
  rewrite the_map_set_map.
  destruct (MappedLabel GetAncestry (Some m') v (Supervoxel op))
    as [[after [mapped found]]|] eqn:Hml; [|done].
  destruct (MappedLabel_outcome m' v _ _ _ _ Hinv' Hml) as [[a ->] Hfound].
  cbn [default from_option id].
  set (label := if found then mapped else Supervoxel op).
  assert (is_uint64 label) as Hlabel.
  { unfold label. destruct found; [by apply Hfound|done]. }
  pose proof (inv_set_ancestry m' a Hinv') as Hinv0.
  destruct (createShortVersion (set_ancestry m' a) v) as [[m1 vid] [e|]] eqn:Hc; [done|].
  destruct (map_under_version (set_ancestry m' a) v m1 vid label
              [SplitSupervoxel op; RemainSupervoxel op] Hinv0 Hc)
    as (fm' & Hm & Hinv2 & Hout & Hin).
  rewrite Hm. intros [= Hlog].
  pose proof (LogMapping_maps (set_map (set_map w uuid m') uuid (set_fm m1 fm')) v
                (mkOp (SplitMutID op) label [SplitSupervoxel op; RemainSupervoxel op]))
    as Hmaps.
  pose proof (LogMapping_log (set_map (set_map w uuid m') uuid (set_fm m1 fm')) v
                (mkOp (SplitMutID op) label [SplitSupervoxel op; RemainSupervoxel op]) w')
    as Hl.
  destruct (LogMapping log_error _ v _) as [w2 e2] eqn:HL.
  injection Hlog as -> ->. cbn [fst] in Hmaps.
  assert (the_map w' uuid = set_fm m1 fm') as Hthe.
  { rewrite (the_map_maps _ _ uuid Hmaps). apply the_map_set_map. }
  exists (set_map w uuid m'), (Some (set_ancestry m' a)), mapped, found.
  rewrite Hthe, the_map_set_map. split_and!; try done.
  - by apply Hin.
  - by rewrite (Hl eq_refl).
Qed.

(** X16: in [ingestMappings] the last mapping of a supervoxel wins. When it
    returns no error on a map built from the empty one and [op] is the last
    of the mappings that lists the supervoxel, [MappedLabel] at the version
    returns [(op.Mapped, true)] for it. *)
Theorem ingestMappings_last_mapping_wins w uuid v pre op post s w' :
  inv (the_map w uuid) -> is_uint64 (Mapped op) -> GetAncestry v <> Some [] ->
  ingestMappings w uuid v (pre ++ op :: post) = Ok (w', None) ->
  s ∈ Original op -> (forall op', op' ∈ post -> s ∉ Original op') ->
  exists m'', MappedLabel GetAncestry (Some (the_map w' uuid)) v s
              = Ok (Some m'', (Mapped op, true)).
Proof.
  intros Hinv Hl Hne Hrun Hs Hpost. unfold SVMapOps.ingestMappings in Hrun.
  destruct (getMapping_spec w uuid v Hinv) as (m' & e & Hg & Hinv').
  assert (e = None -> GetAncestry v <> None) as Hanc.
  { intros ->. unfold SVMapOps.getMapping, initToVersion in Hg.
    destruct (GetAncestry v); [done|]. by injection Hg. }
  rewrite Hg in Hrun. destruct e as [e|]; [done|]. specialize (Hanc eq_refl).
  rewrite the_map_set_map in Hrun.
  destruct (createShortVersion m' v) as [[m1 vid] [e|]] eqn:Hc; [done|].
  pose proof (createShortVersion_inv m' v Hinv') as Hinv1. rewrite Hc in Hinv1.
  cbn [fst] in Hinv1.
  destruct (createShortVersion_ok m' v m1 vid Hinv' Hc)
    as (Hfm & Hanc1 & Hv & Hid & Hn & Hstable).
  assert (is_uint8 vid) as Hu by (unfold is_uint8; lia).
  destruct (map_ops_spec (pre ++ op :: post) (fm m1) vid (inv_packed _ Hinv1) Hu)
    as (fm' & Hm & Hp' & _ & _ & _ & Hlast).
  rewrite Hm in Hrun.
  pose proof (LogMappings_maps (pre ++ op :: post)
                (set_map (set_map w uuid m') uuid (set_fm m1 fm')) v) as Hmaps.
  destruct (LogMappings log_error _ v _) as [w2 e2] eqn:HL.
  injection Hrun as -> ->. cbn [fst] in Hmaps.
  assert (the_map w' uuid = set_fm m1 fm') as ->.
  { rewrite (the_map_maps _ _ uuid Hmaps). apply the_map_set_map. }
  destruct (Hlast pre op post s eq_refl Hs Hpost Hl) as [Hlab Hsome].
  destruct (MappedLabel_at GetAncestry (set_fm m1 fm') v vid s (Mapped op))
    as (m'' & Hml & _); try done.
  - by apply inv_set_fm.
  - right. destruct (GetAncestry v) as [[|a rest]|]; try done. by exists a, rest.
  - by exists m''.
Qed.

(** X17: the map is changed before the operation is logged. When the log
    refuses the operation of a merge, after [getMapping] and
    [createShortVersion] have succeeded, [addMergeToMapping] returns the
    error of the log and the log is as it was, but [MappedLabel] at [v]
    returns [(toLabel, true)] for every supervoxel of the merge. *)
Theorem addMergeToMapping_log_failure_keeps_mapping w uuid v mutID toLabel svs w1 e :
  inv (the_map w uuid) -> is_uint64 toLabel -> GetAncestry v <> Some [] ->
  svs <> [] ->
  getMapping w uuid v = Ok (w1, None) ->
  (createShortVersion (the_map w1 uuid) v).2 = None ->
  log_error v (mkOp mutID toLabel svs) = Some e ->
  exists w',
    addMergeToMapping w uuid v mutID toLabel svs = Ok (w', Some e)
    /\ log w' = log w
    /\ (forall s, s ∈ svs ->
          exists m'', MappedLabel GetAncestry (Some (the_map w' uuid)) v s
                      = Ok (Some m'', (toLabel, true))).
Proof.
  intros Hinv Hl Hne Hsvs Hg0 Hc0 Hlog. unfold SVMapOps.addMergeToMapping.
  destruct (getMapping_spec w uuid v Hinv) as (m' & e0 & Hg & Hinv').
  rewrite Hg in Hg0. injection Hg0 as <- ->.
  assert (GetAncestry v <> None) as Hanc.
  { unfold SVMapOps.getMapping, initToVersion in Hg.
    destruct (GetAncestry v); [done|]. by injection Hg. }
  rewrite Hg, the_map_set_map. rewrite the_map_set_map in Hc0.
  destruct svs as [|s0 svs]; [done|]. cbn [length Nat.eqb].
  destruct (createShortVersion m' v) as [[m1 vid] err] eqn:Hc. cbn [snd] in Hc0. subst err.
  destruct (map_under_version m' v m1 vid toLabel (s0 :: svs) Hinv' Hc)
    as (fm' & Hm & Hinv2 & Hout & Hin).
  rewrite Hm. unfold LogMapping. rewrite Hlog.
  eexists. split; [reflexivity|]. rewrite the_map_set_map. split; [done|].
  by apply Hin.
Qed.

End MappingOpsFacts.

Lemma addMergeToMapping_maps_merged_witness :
  exists w',
    SVMapOps.addMergeToMapping Examples.chain Examples.mapping_log Examples.no_log_error
      Examples.world0 0 1 3 10 [5; 6] = Ok (w', None)
    /\ (exists m'', SVMap.MappedLabel Examples.chain (Some (SVMapOps.the_map w' 0)) 1 6
                    = Ok (Some m'', (10, true)))
    /\ SVMapOps.log w' = [(1, SVMapOps.mkOp 3 10 [5; 6])].
Proof.
  assert (exists w',
            SVMapOps.addMergeToMapping Examples.chain Examples.mapping_log
              Examples.no_log_error Examples.world0 0 1 3 10 [5; 6] = Ok (w', None))
    as [w' Hrun] by (eexists; reflexivity).
  exists w'. split; [exact Hrun|].
  destruct (addMergeToMapping_maps_merged Examples.chain Examples.mapping_log
              Examples.no_log_error Examples.world0 0 1 3 10 [5; 6] w' inv_empty)
    as (Hin & _ & Hlog); [unfold is_uint64; lia|discriminate|exact Hrun|].
  split; [|exact Hlog]. apply Hin. apply elem_of_cons. right. apply elem_of_cons. by left.
Defined.

Lemma addCleaveToMapping_maps_cleaved_witness :
  exists w',
    SVMapOps.addCleaveToMapping Examples.chain Examples.mapping_log Examples.no_log_error
      Examples.world0 0 1 (SVMapOps.mkCleave 4 11 [5; 5]) = Ok (w', None)
    /\ (exists m'', SVMap.MappedLabel Examples.chain (Some (SVMapOps.the_map w' 0)) 1 5
                    = Ok (Some m'', (11, true))).
Proof.
  assert (exists w',
            SVMapOps.addCleaveToMapping Examples.chain Examples.mapping_log
              Examples.no_log_error Examples.world0 0 1 (SVMapOps.mkCleave 4 11 [5; 5])
            = Ok (w', None))
    as [w' Hrun] by (eexists; reflexivity).
  exists w'. split; [exact Hrun|].
  destruct (addCleaveToMapping_maps_cleaved Examples.chain Examples.mapping_log
              Examples.no_log_error Examples.world0 0 1 (SVMapOps.mkCleave 4 11 [5; 5])
              w' inv_empty)
    as (Hin & _); [unfold is_uint64; cbn; lia|discriminate|exact Hrun|].
  apply Hin. apply elem_of_cons. by left.
Defined.

Lemma addSupervoxelSplitToMapping_children_inherit_witness :
  exists w' mapped found,
    SVMapOps.addSupervoxelSplitToMapping Examples.chain Examples.mapping_log
      Examples.no_log_error Examples.world0 0 1 (SVMapOps.mkSplit 9 5 20 21) = Ok (w', None)
    /\ SVMapOps.log w'
       = [(1, SVMapOps.mkOp 9 (if found : bool then mapped else 5) [20; 21])].
Proof.
  assert (exists w',
            SVMapOps.addSupervoxelSplitToMapping Examples.chain Examples.mapping_log
              Examples.no_log_error Examples.world0 0 1 (SVMapOps.mkSplit 9 5 20 21)
            = Ok (w', None))
    as [w' Hrun] by (eexists; reflexivity).
  destruct (addSupervoxelSplitToMapping_children_inherit Examples.chain
              Examples.mapping_log Examples.no_log_error Examples.world0 0 1
              (SVMapOps.mkSplit 9 5 20 21) w' inv_empty)
    as (w1 & after & mapped & found & Hg & Hml & _ & Hlog);
    [unfold is_uint64; cbn; lia|discriminate|exact Hrun|].
  exists w', mapped, found. split; [exact Hrun|exact Hlog].
Defined.

Lemma ingestMappings_last_mapping_wins_witness :
  exists w' m'',
    SVMapOps.ingestMappings Examples.chain Examples.mapping_log Examples.no_log_error
      Examples.world0 0 1 [SVMapOps.mkOp 1 8 [5]; SVMapOps.mkOp 2 9 [5; 6]] = Ok (w', None)
    /\ SVMap.MappedLabel Examples.chain (Some (SVMapOps.the_map w' 0)) 1 5
       = Ok (Some m'', (9, true)).
Proof.
  assert (exists w',
            SVMapOps.ingestMappings Examples.chain Examples.mapping_log
              Examples.no_log_error Examples.world0 0 1
              [SVMapOps.mkOp 1 8 [5]; SVMapOps.mkOp 2 9 [5; 6]] = Ok (w', None))
    as [w' Hrun] by (eexists; reflexivity).
  destruct (ingestMappings_last_mapping_wins Examples.chain Examples.mapping_log
              Examples.no_log_error Examples.world0 0 1 [SVMapOps.mkOp 1 8 [5]]
              (SVMapOps.mkOp 2 9 [5; 6]) [] 5 w' inv_empty) as (m'' & H).
  - unfold is_uint64. cbn. lia.
  - discriminate.
  - exact Hrun.
  - cbn. apply elem_of_cons. by left.
  - intros op' Hop. by apply not_elem_of_nil in Hop.
  - exists w', m''. split; [exact Hrun|exact H].
Defined.

Lemma addMergeToMapping_log_failure_keeps_mapping_witness :
  exists w',
    SVMapOps.addMergeToMapping Examples.chain Examples.mapping_log
      (fun _ _ => Some ErrBackend) Examples.world0 0 1 3 10 [5] = Ok (w', Some ErrBackend)
    /\ SVMapOps.log w' = SVMapOps.log Examples.world0.
Proof.
  assert (exists w1,
            SVMapOps.getMapping Examples.chain Examples.mapping_log Examples.world0 0 1
            = Ok (w1, None)) as [w1 Hg] by (eexists; reflexivity).
  destruct (addMergeToMapping_log_failure_keeps_mapping Examples.chain
              Examples.mapping_log (fun _ _ => Some ErrBackend) Examples.world0 0 1 3 10 [5]
              w1 ErrBackend inv_empty) as (w' & H & Hlog & _).
  - unfold is_uint64. lia.
  - discriminate.
  - discriminate.
  - exact Hg.
  - injection Hg as <-. reflexivity.
  - reflexivity.
  - by exists w'.
Defined.

(* ================================================================== *)
(** * Further properties of the label index keys *)
(* ================================================================== *)

Section KeyFacts.
Import KV Keys.

(** Big-endian bytes compare as the numbers they hold. *)
Lemma BE_compare n : forall a b x y,
  0 <= a < 2 ^ (8 * Z.of_nat n) -> 0 <= b < 2 ^ (8 * Z.of_nat n) ->
  key_compare (rev (le_split n a) ++ x) (rev (le_split n b) ++ y)
  = match a ?= b with
    | Eq => key_compare x y
    | c => c
    end.
Proof.
  induction n as [|n IH]; intros a b x y Ha Hb.
  - change (2 ^ (8 * Z.of_nat 0)) with 1 in Ha, Hb.
    assert (a = 0) as -> by lia. assert (b = 0) as -> by lia. reflexivity.
  - change (le_split (S n) a) with (byte.of_Z a :: le_split n (Z.shiftr a 8)).
    change (le_split (S n) b) with (byte.of_Z b :: le_split n (Z.shiftr b 8)).
    cbn [rev]. rewrite <- !app_assoc.
    replace (8 * Z.of_nat (S n)) with (8 + 8 * Z.of_nat n) in Ha, Hb by lia.
    rewrite Z.pow_add_r in Ha, Hb by lia. change (2 ^ 8) with 256 in Ha, Hb.
    assert (0 < 2 ^ (8 * Z.of_nat n)) as Hpos by (apply Z.pow_pos_nonneg; lia).
    rewrite !Z.shiftr_div_pow2 by lia. change (2 ^ 8) with 256.
    rewrite IH.
    2:{ split; [apply Z.div_pos; lia|apply Z.div_lt_upper_bound; lia]. }
    2:{ split; [apply Z.div_pos; lia|apply Z.div_lt_upper_bound; lia]. }
    cbn [app key_compare]. rewrite !byte.unsigned_of_Z. unfold byte.wrap.
    change (2 ^ 8) with 256.
    pose proof (Z.div_mod a 256 ltac:(lia)) as Hda.
    pose proof (Z.div_mod b 256 ltac:(lia)) as Hdb.
    pose proof (Z.mod_pos_bound a 256 ltac:(lia)) as Hma.
    pose proof (Z.mod_pos_bound b 256 ltac:(lia)) as Hmb.
    destruct (Z.compare_spec (a / 256) (b / 256)) as [E|E|E].
    + destruct (Z.compare_spec (a mod 256) (b mod 256)) as [E'|E'|E'].
      * assert (a = b) as -> by lia. by rewrite Z.compare_refl.
      * assert (a < b) as Hlt by lia. by apply Z.compare_lt_iff in Hlt as ->.
      * assert (b < a) as Hlt by lia. by apply Z.compare_gt_iff in Hlt as ->.
    + assert (a < b) as Hlt by lia. by apply Z.compare_lt_iff in Hlt as ->.
    + assert (b < a) as Hlt by lia. by apply Z.compare_gt_iff in Hlt as ->.
Qed.

Lemma BE_Put_compare a b x y :
  is_uint64 a -> is_uint64 b ->
  key_compare (BigEndian.PutUint64 a ++ x) (BigEndian.PutUint64 b ++ y)
  = match a ?= b with
    | Eq => key_compare x y
    | c => c
    end.
Proof. intros Ha Hb. by apply (BE_compare 8). Qed.

Lemma key_compare_nil_r x : key_compare (x ++ []) (x ++ []) = Eq.
Proof. apply key_compare_refl. Qed.

(** The order of two [KeyLabelSizes] keys. *)
Lemma NewLabelSizesKey_compare size1 label1 size2 label2 :
  is_uint64 size1 -> is_uint64 label1 -> is_uint64 size2 -> is_uint64 label2 ->
  key_compare (NewLabelSizesKey size1 label1) (NewLabelSizesKey size2 label2)
  = match size1 ?= size2 with
    | Eq => label1 ?= label2
    | c => c
    end.
Proof.
  intros Hs1 Hl1 Hs2 Hl2. unfold NewLabelSizesKey. cbn [key_compare].
  rewrite Z.compare_refl, BE_Put_compare by done.
  destruct (size1 ?= size2); try done.
  rewrite <- (app_nil_r (BigEndian.PutUint64 label1)),
    <- (app_nil_r (BigEndian.PutUint64 label2)).
  rewrite BE_Put_compare by done. by destruct (label1 ?= label2).
Qed.

(** X18: [KeyLabelSizes] keys sort by size, then by label. For 64-bit
    sizes and labels the byte-lexical order of two keys of
    [NewLabelSizesKey] is the numeric order of the sizes and, for equal
    sizes, of the labels; two keys are equal only for the same size and
    label. *)
Theorem NewLabelSizesKey_order size1 label1 size2 label2 :
  is_uint64 size1 -> is_uint64 label1 -> is_uint64 size2 -> is_uint64 label2 ->
  (key_ltb (NewLabelSizesKey size1 label1) (NewLabelSizesKey size2 label2) = true
   <-> size1 < size2 \/ (size1 = size2 /\ label1 < label2))
  /\ (NewLabelSizesKey size1 label1 = NewLabelSizesKey size2 label2
      <-> size1 = size2 /\ label1 = label2).
Proof.
  intros Hs1 Hl1 Hs2 Hl2.
  pose proof (NewLabelSizesKey_compare size1 label1 size2 label2 Hs1 Hl1 Hs2 Hl2) as Hc.
  split.
  - unfold key_ltb. rewrite Hc.
    destruct (Z.compare_spec size1 size2) as [E|E|E];
      [destruct (Z.compare_spec label1 label2) as [E'|E'|E']|..];
      split; try done; try lia; intros _; lia.
  - rewrite <- key_compare_eq, Hc.
    destruct (Z.compare_spec size1 size2) as [E|E|E];
      [destruct (Z.compare_spec label1 label2) as [E'|E'|E']|..];
      split; try done; try lia.
Qed.

Lemma NewLabelSizesKey_order_witness :
  key_ltb (NewLabelSizesKey 255 7) (NewLabelSizesKey 256 1) = true.
Proof.
  by apply (NewLabelSizesKey_order 255 7 256 1); unfold is_uint64; try lia; left.
Defined.

(** X19: the bounds of [GetSizeRange] select the sizes asked for. A key
    [NewLabelSizesKey(size, label)] lies between
    [NewLabelSizesKey(minSize, 0)] and [NewLabelSizesKey(maxSize, MaxLabel)]
    in byte-lexical order exactly when [minSize <= size <= maxSize]. *)
Theorem GetSizeRange_bounds_select_sizes minSize maxSize size label :
  is_uint64 minSize -> is_uint64 maxSize -> is_uint64 size -> is_uint64 label ->
  key_leb (NewLabelSizesKey minSize 0) (NewLabelSizesKey size label)
  && key_leb (NewLabelSizesKey size label) (NewLabelSizesKey maxSize MaxLabel) = true
  <-> minSize <= size <= maxSize.
Proof.
  intros Hmin Hmax Hs Hl.
  assert (is_uint64 0) as H0 by (unfold is_uint64; lia).
  assert (is_uint64 MaxLabel) as HM by (unfold is_uint64, MaxLabel; lia).
  unfold key_leb. rewrite !NewLabelSizesKey_compare by done.
  unfold is_uint64, MaxLabel in *.
  rewrite andb_true_iff.
  destruct (Z.compare_spec minSize size) as [E1|E1|E1];
    destruct (Z.compare_spec size maxSize) as [E2|E2|E2];
    try destruct (Z.compare_spec 0 label) as [E3|E3|E3];
    try destruct (Z.compare_spec label (2 ^ 64 - 1)) as [E4|E4|E4];
    split; try done; try lia; intros [? ?]; try done; try lia.
Qed.

Lemma GetSizeRange_bounds_select_sizes_witness :
  key_leb (NewLabelSizesKey 10 0) (NewLabelSizesKey 10 3)
  && key_leb (NewLabelSizesKey 10 3) (NewLabelSizesKey 20 MaxLabel) = true.
Proof.
  apply (GetSizeRange_bounds_select_sizes 10 20 10 3);
    unfold is_uint64; lia.
Defined.

Lemma LE_of_BE v :
  LittleEndian.Uint64 (BigEndian.PutUint64 v) = le_combine (rev (le_split 8 v)).
Proof.
  unfold LittleEndian.Uint64, BigEndian.PutUint64.
  by rewrite take_ge by (rewrite length_rev, le_split_length; lia).
Qed.

Lemma swap_uint64 v : is_uint64 (le_combine (rev (le_split 8 v))).
Proof.
  pose proof (le_combine_bound (rev (le_split 8 v))) as H.
  rewrite length_rev, le_split_length in H. exact H.
Qed.

Lemma BE_of_swap v :
  BigEndian.PutUint64 (le_combine (rev (le_split 8 v))) = le_split 8 v.
Proof.
  unfold BigEndian.PutUint64.
  replace 8%nat with (length (rev (le_split 8 v))) at 1
    by (by rewrite length_rev, le_split_length).
  by rewrite split_le_combine, rev_involutive.
Qed.

(** X20: the two byte-order mismatches of the size index cancel.
    [computeSizes] reads the label little endian from bytes 1..8 of a
    [NewLabelSpatialMapKey] key, where it was written big endian, and
    stores what it read in a [NewLabelSizesKey] key; [GetSizeRange] reads
    bytes 9..16 of that key little endian, where they were written big
    endian. What [GetSizeRange] reads is the label of the first key. *)
Theorem size_index_label_round_trip (IndexZYXSize : nat) label block size :
  is_uint64 label ->
  GetSizeRange_label
    (NewLabelSizesKey size
       (LittleEndian.Uint64
          (take 8 (drop 1 (NewLabelSpatialMapKey IndexZYXSize label block)))))
  = label.
Proof.
  intros Hl. unfold NewLabelSpatialMapKey. cbn [drop]. rewrite drop_0.
  rewrite take_app_length' by (unfold BigEndian.PutUint64; by rewrite length_rev, le_split_length).
  rewrite LE_of_BE. unfold GetSizeRange_label, NewLabelSizesKey.
  change (drop 9 (?b :: ?l)) with (drop 8 l).
  rewrite drop_app_length' by (unfold BigEndian.PutUint64; by rewrite length_rev, le_split_length).
  rewrite BE_of_swap. by apply LE_Uint64_Put.
Qed.

Lemma size_index_label_round_trip_witness :
  GetSizeRange_label
    (NewLabelSizesKey 4
       (LittleEndian.Uint64
          (take 8 (drop 1 (NewLabelSpatialMapKey 12 1 Examples.zyx_block)))))
  = 1.
Proof.
  apply (size_index_label_round_trip 12 1 Examples.zyx_block 4). unfold is_uint64. lia.
Defined.

End KeyFacts.

(* ================================================================== *)
(** * Further properties of the size index *)
(* ================================================================== *)

Section SizeConservation.
Import SizeIndex SizeViews.

Variable commit_fails : nat -> bool.
Hypothesis commits_succeed : forall n, commit_fails n = false.

Lemma sumZ_app l1 l2 : RLE.sumZ (l1 ++ l2) = RLE.sumZ l1 + RLE.sumZ l2.
Proof.
  unfold RLE.sumZ. induction l1 as [|x l1 IH]; cbn [app fold_right]; [lia|].
  rewrite IH. lia.
Qed.

Lemma sizes_key_size_new size label :
  is_uint64 size -> Keys.sizes_key_size (Keys.NewLabelSizesKey size label) = size.
Proof.
  intros Hs. unfold Keys.sizes_key_size, Keys.NewLabelSizesKey. cbn [drop].
  rewrite drop_0. unfold BigEndian.Uint64.
  rewrite take_app_length' by (unfold BigEndian.PutUint64; by rewrite length_rev, le_split_length).
  unfold BigEndian.PutUint64. rewrite rev_involutive, le_combine_split.
  by apply Z.mod_small.
Qed.

Lemma wrap64_uint64 z : is_uint64 (wrap64 z).
Proof. unfold is_uint64, wrap64. apply Z.mod_pos_bound. lia. Qed.

Lemma put_sizes_snoc b size label :
  is_uint64 size ->
  RLE.sumZ (put_sizes (b ++ [(Keys.NewLabelSizesKey size label, emptyValue)]))
  = RLE.sumZ (put_sizes b) + size.
Proof.
  intros Hs. unfold put_sizes. rewrite map_app, sumZ_app. cbn [map fst].
  rewrite sizes_key_size_new by done. unfold RLE.sumZ. cbn. lia.
Qed.

(** One chunk: the sum of the sizes put and of the running size grows by
    the voxels of the chunk. *)
Lemma on_chunk_conserves s K V :
  readable (K, V) -> is_uint64 (curSize s) ->
  exists s',
    on_chunk commit_fails s K V = Ok (s', false)
    /\ is_uint64 (curSize s')
    /\ wrap64 (RLE.sumZ (put_sizes (batch s')) + curSize s')
       = wrap64 (RLE.sumZ (put_sizes (batch s)) + curSize s + chunk_voxels (K, V)).
Proof.
  intros [HK HV] Hsz. cbn [fst snd] in HK, HV. unfold on_chunk, Vmap.slice, chunk_voxels.
  replace ((1 <=? 9) && (9 <=? length K))%nat with true
    by (symmetry; apply andb_true_iff; split; apply Nat.leb_le; lia).
  cbn [mbind result_bind snd].
  rewrite (statsRuns_groups V (length V / 16)) by (by apply mod16_groups).
  cbn [fst].
  set (nv := int32 (RLE.sumZ (RLE.run_lengths (length V / 16) V))).
  destruct (notFirst s && negb (LittleEndian.Uint64 (take (9 - 1) (drop 1 K)) =? curLabel s)).
  - unfold Commit. cbn [putsInBatch commits curLabel curSize notFirst batch db].
    rewrite commits_succeed.
    destruct ((putsInBatch s + 1) mod BATCH_SIZE =? 0);
      (eexists; split; [reflexivity|]);
      cbn [curSize batch]; (split; [apply wrap64_uint64|]);
      rewrite put_sizes_snoc by done; unfold wrap64;
      rewrite Z.add_0_l, Z.mod_mod by lia;
      rewrite Zplus_mod_idemp_r; f_equal; lia.
  - eexists. split; [reflexivity|]. cbn [curSize batch]. split; [apply wrap64_uint64|].
    unfold wrap64. rewrite (Z.add_comm (curSize s)), Zplus_mod_idemp_l.
    rewrite Zplus_mod_idemp_r. f_equal. lia.
Qed.

Lemma computeSizes_from_conserves chunks : forall s,
  Forall readable chunks -> is_uint64 (curSize s) ->
  exists s',
    computeSizes_from commit_fails s chunks = Ok s'
    /\ wrap64 (RLE.sumZ (put_sizes (batch s')))
       = wrap64 (RLE.sumZ (put_sizes (batch s)) + curSize s
                 + RLE.sumZ (map chunk_voxels chunks)).
Proof.
  induction chunks as [|[K V] chunks IH]; intros s Hr Hsz; cbn [computeSizes_from].
  - eexists. split; [reflexivity|]. unfold on_nil, Commit, Put.
    cbn [commits curLabel curSize putsInBatch notFirst batch db].
    rewrite commits_succeed. cbn [fst batch].
    rewrite put_sizes_snoc by done. cbn [map]. unfold RLE.sumZ at 3. cbn [fold_right].
    f_equal. lia.
  - apply Forall_cons in Hr as [Hkv Hr].
    destruct (on_chunk_conserves s K V Hkv Hsz) as (s1 & -> & Hsz1 & Hsum).
    destruct (IH s1 Hr Hsz1) as (s' & -> & Hsum').
    exists s'. split; [done|]. rewrite Hsum'. cbn [map]. unfold wrap64 in *.
    change (RLE.sumZ (chunk_voxels (K, V) :: map chunk_voxels chunks))
      with (chunk_voxels (K, V) + RLE.sumZ (map chunk_voxels chunks)).
    rewrite <- Zplus_mod_idemp_l, Hsum, Zplus_mod_idemp_l. f_equal. lia.
Qed.

(** X21: [computeSizes] accounts for every voxel. When no commit fails and
    every chunk has a key of at least 9 bytes and a value of whole 16-byte
    runs, [computeSizes] runs to the nil chunk, and the sizes in the keys
    it has put add up, modulo 2^64, to the voxels that [statsRuns] counts
    in the values of all the chunks. *)
Theorem computeSizes_conserves_voxels st chunks :
  Forall readable chunks ->
  exists s,
    computeSizes commit_fails st chunks = Ok s
    /\ wrap64 (RLE.sumZ (put_sizes (batch s)))
       = wrap64 (RLE.sumZ (map chunk_voxels chunks)).
Proof.
  intros Hr. unfold computeSizes.
  destruct (computeSizes_from_conserves chunks (init st) Hr) as (s & Hs & Hsum).
  { unfold is_uint64. cbn. lia. }
  exists s. split; [done|]. rewrite Hsum. cbn. f_equal.
Qed.

End SizeConservation.

Lemma computeSizes_conserves_voxels_witness :
  exists s,
    SizeIndex.computeSizes (fun _ => false) []
      [(Keys.NewLabelSpatialMapKey 12 1 Examples.zyx_block, RLE.one_run)] = Ok s
    /\ wrap64 (RLE.sumZ (SizeViews.put_sizes (SizeIndex.batch s)))
       = wrap64 (RLE.sumZ (map SizeViews.chunk_voxels
                             [(Keys.NewLabelSpatialMapKey 12 1 Examples.zyx_block,
                               RLE.one_run)])).
Proof.
  apply (computeSizes_conserves_voxels (fun _ => false)); [done|].
  constructor; [|constructor]. split; vm_compute; [lia|reflexivity].
Defined.

(* ================================================================== *)
(** * Further properties of the runs of a block *)
(* ================================================================== *)

Section DenormFacts.
Import Denorm.

Variable ByteOrderUint64 : list byte -> Z.

Local Abbreviation inv := (Denorm.inv ByteOrderUint64).
Local Abbreviation voxel := (Denorm.voxel ByteOrderUint64).
Local Abbreviation voxels_with := (Denorm.voxels_with ByteOrderUint64).
Local Abbreviation label_at := (Denorm.label_at ByteOrderUint64).

Implicit Types (s : scan) (l x y z nx : Z) (n : nat) (blockData : list byte).

Lemma lens_save_run s l :
  default [] (save_run s !! l)
  = lens_of s l ++ (if (0 <? curRun s) && (l =? curLabel s) then [curRun s] else []).
Proof.
  unfold save_run, lens_of. destruct (0 <? curRun s); cbn [andb].
  - destruct (Z.eqb_spec l (curLabel s)) as [->|Hne].
    + by rewrite lookup_insert_eq.
    + rewrite lookup_insert_ne by done. by rewrite app_nil_r.
  - by rewrite app_nil_r.
Qed.

Lemma save_run_dom s l :
  is_Some (save_run s !! l)
  <-> is_Some (runLengths s !! l) \/ (0 < curRun s /\ l = curLabel s).
Proof.
  unfold save_run. destruct (Z.ltb_spec 0 (curRun s)) as [Hpos|Hpos].
  - rewrite lookup_insert_is_Some. split.
    + intros [<-|[_ H]]; [right; done|by left].
    + intros [H|[_ ->]]; [|by left].
      destruct (decide (curLabel s = l)); [by left|by right].
  - split; [by left|]. intros [H|[H _]]; [done|lia].
Qed.

Lemma sumZ_snoc ls a : RLE.sumZ (ls ++ [a]) = RLE.sumZ ls + a.
Proof. rewrite sumZ_app. unfold RLE.sumZ. cbn. lia. Qed.

Lemma inv_init blockData nx : inv blockData nx init 0.
Proof.
  split.
  - reflexivity.
  - cbn. lia.
  - intros l. cbn. by rewrite !lookup_empty.
  - intros l. unfold lens_of, starts_of. cbn. by rewrite !lookup_empty.
  - intros l. unfold lens_of. cbn. rewrite lookup_empty. cbn. by destruct (l =? 0).
  - intros l. cbn. rewrite lookup_empty. split; [by intros [? ?]|lia].
  - intros l. unfold lens_of. cbn. rewrite lookup_empty. constructor.
Qed.

Lemma sum_lens_nonneg blockData nx s n l :
  inv blockData nx s n -> 0 <= RLE.sumZ (lens_of s l).
Proof.
  intros Hinv. pose proof (inv_bounds _ _ _ _ _ Hinv l) as Hb.
  induction Hb as [|a ls Ha Hb IH]; [done|].
  change (RLE.sumZ (a :: ls)) with (a + RLE.sumZ ls). lia.
Qed.

(** Closing the current run keeps the invariant. *)
Lemma flush_inv blockData nx s n :
  inv blockData nx s n -> curRun s <= nx ->
  inv blockData nx (flush s) n /\ curRun (flush s) = 0.
Proof.
  intros Hinv Hle. pose proof (inv_run _ _ _ _ _ Hinv) as Hrun.
  unfold flush. destruct (Z.ltb_spec 0 (curRun s)) as [Hpos|Hpos]; [|split; [done|lia]].
  split; [|done].
  assert (forall l, lens_of (mkScan (runStarts s) (save_run s) (curLabel s) 0 (start s)) l
                    = lens_of s l ++ (if l =? curLabel s then [curRun s] else [])) as Hlens.
  { intros l. unfold lens_of at 1. cbn [runLengths]. rewrite lens_save_run.
    apply Z.ltb_lt in Hpos. by rewrite Hpos. }
  split; cbn [start curRun curLabel runStarts runLengths].
  - apply (inv_start _ _ _ _ _ Hinv).
  - lia.
  - intros l. rewrite save_run_dom, (inv_dom _ _ _ _ _ Hinv l). split; [by left|].
    intros [H|[_ ->]]; [done|].
    pose proof (inv_len _ _ _ _ _ Hinv (curLabel s)) as Hl.
    apply Z.ltb_lt in Hpos. rewrite Hpos, Z.eqb_refl in Hl. cbn [andb] in Hl.
    apply (inv_dom _ _ _ _ _ Hinv). unfold starts_of in Hl.
    destruct (runStarts s !! curLabel s); [done|]. cbn in Hl. lia.
  - intros l. rewrite Hlens. unfold starts_of at 1. cbn [runStarts].
    fold (starts_of s l). rewrite <- (inv_len _ _ _ _ _ Hinv l).
    apply Z.ltb_lt in Hpos. rewrite Hpos. cbn [andb]. rewrite length_app.
    by destruct (l =? curLabel s).
  - intros l. rewrite Hlens. rewrite <- (inv_sum _ _ _ _ _ Hinv l).
    destruct (l =? curLabel s).
    + rewrite sumZ_snoc. lia.
    + rewrite app_nil_r. lia.
  - apply (inv_seen _ _ _ _ _ Hinv).
  - intros l. rewrite Hlens. apply Forall_app. split; [apply (inv_bounds _ _ _ _ _ Hinv)|].
    destruct (l =? curLabel s); constructor; [lia|constructor].
Qed.

(** One voxel keeps the invariant. *)
Lemma voxel_inv blockData nx s n x y z :
  inv blockData nx s n -> (8 * (n + 1) <= length blockData)%nat ->
  curRun s < nx -> nx < 2 ^ 31 ->
  exists s',
    voxel blockData s x y z = Ok s'
    /\ inv blockData nx s' (S n)
    /\ 1 <= curRun s' <= curRun s + 1.
Proof.
  intros Hinv Hlen Hlt Hnx.
  pose proof (inv_run _ _ _ _ _ Hinv) as Hrun.
  pose proof (inv_start _ _ _ _ _ Hinv) as Hstart.
  unfold Denorm.voxel, Vmap.slice.
  replace ((start s <=? start s + 8) && (start s + 8 <=? length blockData))%nat with true
    by (symmetry; apply andb_true_iff; split; apply Nat.leb_le; lia).
  cbn [mbind result_bind].
  replace (start s + 8 - start s)%nat with 8%nat by lia. rewrite Hstart.
  fold (label_at blockData n). set (vl := label_at blockData n).
  assert (forall l, voxels_with blockData l (S n)
                    = voxels_with blockData l n + (if vl =? l then 1 else 0)) as Hcount
    by reflexivity.
  destruct (negb (curRun s =? 0) && (vl =? curLabel s)) eqn:Hcond.
  - (* the run goes on *)
    apply andb_true_iff in Hcond as [Hnz Hsame].
    apply negb_true_iff, Z.eqb_neq in Hnz. apply Z.eqb_eq in Hsame.
    assert (int32 (curRun s + 1) = curRun s + 1) as Hi
      by (apply int32_small; unfold is_int32; lia).
    eexists. split; [reflexivity|]. rewrite Hi. split; [|cbn; lia].
    assert ((0 <? curRun s) = true) as Hpos by (apply Z.ltb_lt; lia).
    assert ((0 <? curRun s + 1) = true) as Hpos' by (apply Z.ltb_lt; lia).
    split; cbn [start curRun curLabel runStarts runLengths].
    + lia.
    + lia.
    + apply (inv_dom _ _ _ _ _ Hinv).
    + intros l. unfold lens_of, starts_of. cbn [runStarts runLengths].
      rewrite Hpos'. rewrite <- Hpos. apply (inv_len _ _ _ _ _ Hinv l).
    + intros l. unfold lens_of. cbn [runLengths]. fold (lens_of s l).
      rewrite Hcount, <- (inv_sum _ _ _ _ _ Hinv l), Hsame.
      rewrite (Z.eqb_sym (curLabel s) l). destruct (l =? curLabel s); lia.
    + intros l. rewrite Hcount, (inv_seen _ _ _ _ _ Hinv l).
      destruct (Z.eqb_spec vl l) as [<-|Hne]; [|by rewrite Z.add_0_r].
      pose proof (inv_sum _ _ _ _ _ Hinv vl) as Hsum.
      pose proof (sum_lens_nonneg _ _ _ _ vl Hinv) as Hnn.
      rewrite Hsame, Z.eqb_refl in Hsum. rewrite Hsame in Hnn |- *. lia.
    + apply (inv_bounds _ _ _ _ _ Hinv).
  - (* a new run starts *)
    apply andb_false_iff in Hcond.
    set (pt := RLE.point x y z).
    set (flushed l := if (0 <? curRun s) && (l =? curLabel s) then [curRun s] else []).
    assert (0 < curRun s -> is_Some (runStarts s !! curLabel s)) as Hcur.
    { intros Hpos. pose proof (inv_len _ _ _ _ _ Hinv (curLabel s)) as Hl.
      apply Z.ltb_lt in Hpos. rewrite Hpos, Z.eqb_refl in Hl. cbn [andb] in Hl.
      unfold starts_of in Hl. destruct (runStarts s !! curLabel s); [done|].
      cbn in Hl. lia. }
    assert (exists s',
              (match runStarts s !! vl with
               | None =>
                   Ok (mkScan (<[vl := [pt]]> (runStarts s)) (<[vl := []]> (save_run s))
                         vl 1 (8 * n + 8)%nat)
               | Some points =>
                   Ok (mkScan (<[vl := points ++ [pt]]> (runStarts s)) (save_run s)
                         vl 1 (8 * n + 8)%nat)
               end) = Ok s'
              /\ start s' = (8 * n + 8)%nat /\ curRun s' = 1 /\ curLabel s' = vl
              /\ (forall l, starts_of s' l
                            = starts_of s l ++ (if l =? vl then [pt] else []))
              /\ (forall l, lens_of s' l = lens_of s l ++ flushed l)
              /\ (forall l, is_Some (runStarts s' !! l)
                            <-> is_Some (runStarts s !! l) \/ l = vl)
              /\ (forall l, is_Some (runLengths s' !! l)
                            <-> is_Some (runStarts s !! l) \/ l = vl))
      as (s' & -> & Hst & Hcr & Hcl & Hstarts & Hlens & Hds & Hdl).
    { destruct (runStarts s !! vl) as [points|] eqn:Evl.
      - eexists. split; [reflexivity|]. cbn [start curRun curLabel].
        split_and!; try done.
        + intros l. unfold starts_of. cbn [runStarts].
          destruct (Z.eqb_spec l vl) as [->|Hne].
          * by rewrite lookup_insert_eq, Evl.
          * rewrite lookup_insert_ne by done. by rewrite app_nil_r.
        + intros l. unfold lens_of at 1. cbn [runLengths]. apply lens_save_run.
        + intros l. cbn [runStarts]. rewrite lookup_insert_is_Some. split.
          * intros [<-|[_ H]]; [by right|by left].
          * intros [H| ->]; [|by left]. destruct (decide (vl = l)); [by left|by right].
        + intros l. cbn [runLengths]. rewrite save_run_dom, <- (inv_dom _ _ _ _ _ Hinv l).
          split.
          * intros [H|[Hpos ->]]; [by left|]. left. by apply Hcur.
          * intros [H| ->]; [by left|]. left. by rewrite Evl.
      - eexists. split; [reflexivity|]. cbn [start curRun curLabel].
        assert (0 < curRun s -> curLabel s <> vl) as Hne.
        { intros Hpos Heq. apply Hcur in Hpos. rewrite Heq, Evl in Hpos.
          by destruct Hpos. }
        split_and!; try done.
        + intros l. unfold starts_of. cbn [runStarts].
          destruct (Z.eqb_spec l vl) as [->|Hne'].
          * by rewrite lookup_insert_eq, Evl.
          * rewrite lookup_insert_ne by done. by rewrite app_nil_r.
        + intros l. unfold lens_of at 1. cbn [runLengths].
          destruct (decide (vl = l)) as [<-|Hne'].
          * rewrite lookup_insert_eq. cbn [default from_option id].
            unfold lens_of.
            assert (runLengths s !! vl = None) as ->.
            { apply eq_None_not_Some. rewrite <- (inv_dom _ _ _ _ _ Hinv vl), Evl.
              by intros [? ?]. }
            unfold flushed. destruct (Z.ltb_spec 0 (curRun s)) as [Hpos|Hpos]; [|done].
            cbn [andb]. destruct (Z.eqb_spec vl (curLabel s)) as [Heq|?]; [|done].
            by destruct (Hne Hpos).
          * rewrite lookup_insert_ne by done. apply lens_save_run.
        + intros l. cbn [runStarts]. rewrite lookup_insert_is_Some. split.
          * intros [<-|[_ H]]; [by right|by left].
          * intros [H| ->]; [|by left]. destruct (decide (vl = l)); [by left|by right].
        + intros l. cbn [runLengths]. rewrite lookup_insert_is_Some, save_run_dom,
            <- (inv_dom _ _ _ _ _ Hinv l). split.
          * intros [<-|[_ [H|[Hpos ->]]]]; [by right|by left|]. left. by apply Hcur.
          * intros [H| ->]; [|by left]. destruct (decide (vl = l)); [by left|].
            right. split; [done|by left]. }
    exists s'. split; [done|]. rewrite Hcr. split; [|lia].
    assert (forall l, RLE.sumZ (flushed l) = if l =? curLabel s then curRun s else 0) as Hfl.
    { intros l. unfold flushed. destruct (Z.ltb_spec 0 (curRun s)) as [Hpos|Hpos];
        cbn [andb]; destruct (l =? curLabel s); try done; [unfold RLE.sumZ; cbn; lia|].
      unfold RLE.sumZ. cbn. lia. }
    split.
    + lia.
    + lia.
    + intros l. by rewrite Hds, Hdl.
    + intros l. rewrite Hstarts, Hlens, Hcr, Hcl, !length_app.
      rewrite <- (inv_len _ _ _ _ _ Hinv l). unfold flushed. cbn [Z.ltb Z.compare andb].
      destruct ((0 <? curRun s) && (l =? curLabel s)); destruct (l =? vl); cbn; lia.
    + intros l. rewrite Hlens, Hcr, Hcl, sumZ_app, Hfl, Hcount.
      rewrite <- (inv_sum _ _ _ _ _ Hinv l). rewrite (Z.eqb_sym vl l).
      destruct (l =? vl); lia.
    + intros l. rewrite Hds, Hcount, (inv_seen _ _ _ _ _ Hinv l).
      assert (0 <= voxels_with blockData l n) as Hnn.
      { rewrite <- (inv_sum _ _ _ _ _ Hinv l).
        pose proof (sum_lens_nonneg _ _ _ _ l Hinv). destruct (l =? curLabel s); lia. }
      destruct (Z.eqb_spec vl l) as [<-|Hne]; [split; [lia|by right]|].
      split; [intros [H|H]; [lia|congruence]|intros H; left; lia].
    + intros l. rewrite Hlens. apply Forall_app.
      split; [apply (inv_bounds _ _ _ _ _ Hinv)|].
      unfold flushed. destruct (Z.ltb_spec 0 (curRun s)) as [Hpos|Hpos]; cbn [andb];
        [|constructor]. destruct (l =? curLabel s); constructor; [lia|constructor].
Qed.

Lemma scan_x_inv blockData nx y z xs : forall s n k,
  inv blockData nx s n -> curRun s <= k -> k + Z.of_nat (length xs) <= nx ->
  nx < 2 ^ 31 -> (8 * (n + length xs) <= length blockData)%nat ->
  exists s',
    scan_x ByteOrderUint64 blockData xs y z s = Ok s'
    /\ inv blockData nx s' (n + length xs)
    /\ curRun s' <= k + Z.of_nat (length xs).
Proof.
  induction xs as [|x xs IH]; intros s n k Hinv Hk Hnx Hlt Hlen; cbn [scan_x length].
  - exists s. rewrite Nat.add_0_r. split_and!; [done|done|lia].
  - cbn [length] in Hnx, Hlen.
    destruct (voxel_inv blockData nx s n x y z Hinv) as (s1 & -> & Hinv1 & Hrun1);
      [lia|lia|lia|].
    destruct (IH s1 (S n) (k + 1)) as (s' & -> & Hinv' & Hrun'); [done|lia|lia|lia|lia|].
    exists s'. replace (n + S (length xs))%nat with (S n + length xs)%nat by lia.
    split_and!; [done|done|lia].
Qed.

Lemma scan_y_inv blockData nx xs z ys : forall s n,
  inv blockData nx s n -> curRun s = 0 -> Z.of_nat (length xs) <= nx -> nx < 2 ^ 31 ->
  (8 * (n + length ys * length xs) <= length blockData)%nat ->
  exists s',
    scan_y ByteOrderUint64 blockData ys xs z s = Ok s'
    /\ inv blockData nx s' (n + length ys * length xs)
    /\ curRun s' = 0.
Proof.
  induction ys as [|y ys IH]; intros s n Hinv Hrun Hnx Hlt Hlen; cbn [scan_y length].
  - exists s. cbn. rewrite Nat.add_0_r. done.
  - cbn [length] in Hlen.
    destruct (scan_x_inv blockData nx y z xs s n 0 Hinv) as (s1 & -> & Hinv1 & Hrun1);
      [lia|lia|lia|nia|].
    destruct (flush_inv blockData nx s1 _ Hinv1) as [Hinv2 Hrun2]; [lia|].
    destruct (IH (flush s1) (n + length xs)%nat Hinv2 Hrun2 Hnx Hlt) as (s' & -> & Hinv' & Hrun');
      [nia|].
    exists s'.
    replace (n + S (length ys) * length xs)%nat
      with (n + length xs + length ys * length xs)%nat by lia.
    done.
Qed.

Lemma scan_z_inv blockData nx xs ys zs : forall s n,
  inv blockData nx s n -> curRun s = 0 -> Z.of_nat (length xs) <= nx -> nx < 2 ^ 31 ->
  (8 * (n + length zs * length ys * length xs) <= length blockData)%nat ->
  exists s',
    scan_z ByteOrderUint64 blockData zs ys xs s = Ok s'
    /\ inv blockData nx s' (n + length zs * length ys * length xs)
    /\ curRun s' = 0.
Proof.
  induction zs as [|z zs IH]; intros s n Hinv Hrun Hnx Hlt Hlen; cbn [scan_z length].
  - exists s. cbn. rewrite Nat.add_0_r. done.
  - cbn [length] in Hlen.
    destruct (scan_y_inv blockData nx xs z ys s n Hinv Hrun Hnx Hlt) as (s1 & -> & Hinv1 & Hrun1);
      [nia|].
    destruct (IH s1 (n + length ys * length xs)%nat Hinv1 Hrun1 Hnx Hlt)
      as (s' & -> & Hinv' & Hrun'); [nia|].
    exists s'.
    replace (n + S (length zs) * length ys * length xs)%nat
      with (n + length ys * length xs + length zs * length ys * length xs)%nat by lia.
    done.
Qed.

(** The scan of a block runs to its end and leaves no open run. *)
Lemma scan_block_inv blockData firstPt lastPt :
  block_ok blockData firstPt lastPt ->
  exists s,
    scan_block ByteOrderUint64 blockData firstPt lastPt = Ok s
    /\ inv blockData (Z.of_nat (length (range32 (RLE.px firstPt) (RLE.px lastPt)))) s
         (voxels firstPt lastPt)
    /\ curRun s = 0.
Proof.
  intros (_ & Hlen & _ & _ & _ & Hrow). unfold scan_block, voxels in *.
  set (xs := range32 (RLE.px firstPt) (RLE.px lastPt)) in *.
  assert (Z.of_nat (length xs) < 2 ^ 31) as Hnx.
  { unfold xs, range32. rewrite length_seqZ. lia. }
  destruct (scan_z_inv blockData (Z.of_nat (length xs)) xs
              (range32 (RLE.py firstPt) (RLE.py lastPt))
              (range32 (RLE.pz firstPt) (RLE.pz lastPt)) init 0
              (inv_init blockData _)) as (s & Hs & Hinv & Hrun); [done|lia|done|lia|].
  by exists s.
Qed.

(** The loop over [runStarts] after a scan that left no open run. *)
Lemma put_runs_all blockData nx s n IndexZYXSize zyxBytes entries : forall batch,
  inv blockData nx s n -> curRun s = 0 ->
  (forall b coords, (b, coords) ∈ entries -> runStarts s !! b = Some coords) ->
  put_runs IndexZYXSize zyxBytes entries (runLengths s) batch
  = Ok (Some (batch ++ map (put_of IndexZYXSize zyxBytes s) entries)).
Proof.
  intros batch Hinv Hrun. revert batch.
  induction entries as [|[b coords] entries IH]; intros batch Hent; cbn [put_runs map].
  - by rewrite app_nil_r.
  - assert (runStarts s !! b = Some coords) as Hb by (apply Hent, elem_of_cons; by left).
    pose proof (inv_len _ _ _ _ _ Hinv b) as Hl. rewrite Hrun in Hl.
    cbn [Z.ltb Z.compare andb] in Hl. rewrite Nat.add_0_r in Hl.
    unfold starts_of in Hl. rewrite Hb in Hl. cbn [default from_option id] in Hl.
    destruct (proj1 (inv_dom _ _ _ _ _ Hinv b)) as [ls Hls]; [by rewrite Hb|].
    assert (put_of IndexZYXSize zyxBytes s (b, coords)
            = (Keys.NewLabelSpatialMapKey IndexZYXSize b zyxBytes,
               concat (zip_with RLE.run_bytes coords ls))) as Hput.
    { unfold put_of, lens_of. cbn [fst snd]. by rewrite Hls. }
    unfold lens_of in Hl. rewrite Hls in Hl |- *. cbn [default from_option id] in Hl.
    unfold RLE.encodeRuns. symmetry in Hl. apply Nat.eqb_eq in Hl as Hlb. rewrite Hlb.
    pose proof (encode_range_zip coords [] ls Hl) as Henc. cbn [app length] in Henc.
    rewrite Henc. cbn [mbind result_bind].
    rewrite IH.
    + by rewrite <- app_assoc, Hput.
    + intros b' coords' H'. apply Hent, elem_of_cons. by right.
Qed.

(** X22: [processChunk] stores the runs of every label of the block. On a
    block of whole 8-byte labels that covers the extent of the loops, with
    rows of fewer than 2^31 voxels, the scan runs to its end without a
    panic, [encodeRuns] fails for no label, and, when the commit after the
    scan succeeds, the batch committed holds
    one put per label that [runStarts] holds: the key of
    [NewLabelSpatialMapKey] for the label and the block, and the runs of
    the label, 16 bytes each. [runStarts] holds exactly the labels that
    occur in the block, each with as many starts as lengths. *)
Theorem processChunk_puts_every_label IndexZYXSize zyxBytes blockData firstPt lastPt :
  block_ok blockData firstPt lastPt ->
  exists s,
    scan_block ByteOrderUint64 blockData firstPt lastPt = Ok s
    /\ processChunk ByteOrderUint64 IndexZYXSize zyxBytes blockData firstPt lastPt true
       = Ok (Some (map (put_of IndexZYXSize zyxBytes s) (map_to_list (runStarts s))))
    /\ (forall b, is_Some (runStarts s !! b)
                  <-> 0 < voxels_with blockData b (voxels firstPt lastPt))
    /\ (forall b, length (starts_of s b) = length (lens_of s b)).
Proof.
  intros Hok. destruct (scan_block_inv blockData firstPt lastPt Hok) as (s & Hs & Hinv & Hrun).
  exists s. split; [done|]. split_and!.
  - unfold processChunk. destruct Hok as (Hmod & _). apply Nat.eqb_eq in Hmod.
    rewrite Hmod, Hs. cbn [negb].
    rewrite (put_runs_all _ _ _ _ IndexZYXSize zyxBytes _ [] Hinv Hrun); [done|].
    intros b coords H. by apply elem_of_map_to_list in H.
  - apply (inv_seen _ _ _ _ _ Hinv).
  - intros b. pose proof (inv_len _ _ _ _ _ Hinv b) as Hl. rewrite Hrun in Hl.
    cbn [Z.ltb Z.compare andb] in Hl. lia.
Qed.

(** X23: the runs of a label cover its voxels. After the scan of such a
    block, the run lengths recorded for a label add up to the number of
    voxels of the block that hold the label, and every run has at least
    one voxel and at most as many as a row. *)
Theorem scan_block_runs_count_voxels blockData firstPt lastPt :
  block_ok blockData firstPt lastPt ->
  exists s,
    scan_block ByteOrderUint64 blockData firstPt lastPt = Ok s
    /\ forall b,
         RLE.sumZ (lens_of s b) = voxels_with blockData b (voxels firstPt lastPt)
         /\ Forall (fun len => 1 <= len <= RLE.px lastPt - RLE.px firstPt + 1) (lens_of s b).
Proof.
  intros Hok. destruct (scan_block_inv blockData firstPt lastPt Hok) as (s & Hs & Hinv & Hrun).
  exists s. split; [done|]. intros b. split.
  - pose proof (inv_sum _ _ _ _ _ Hinv b) as Hsum. rewrite Hrun in Hsum.
    destruct (b =? curLabel s); lia.
  - eapply Forall_impl; [apply (inv_bounds _ _ _ _ _ Hinv b)|].
    intros len Hl. cbn beta in Hl. unfold range32 in Hl. rewrite length_seqZ in Hl. lia.
Qed.

(** X24: what [processChunk] stores is what [computeSizes] counts. For
    every put of the batch of such a block there is a label that occurs in
    the block, the key is the one of [NewLabelSpatialMapKey] for it, and
    [statsRuns] of the value returns no error and, in [int32] arithmetic,
    the number of voxels of the block that hold the label. *)
Theorem processChunk_values_count_voxels IndexZYXSize zyxBytes blockData firstPt lastPt
    batch key value :
  block_ok blockData firstPt lastPt ->
  processChunk ByteOrderUint64 IndexZYXSize zyxBytes blockData firstPt lastPt true
  = Ok (Some batch) ->
  (key, value) ∈ batch ->
  exists b,
    key = Keys.NewLabelSpatialMapKey IndexZYXSize b zyxBytes
    /\ 0 < voxels_with blockData b (voxels firstPt lastPt)
    /\ (RLE.statsRuns value).1.1 = int32 (voxels_with blockData b (voxels firstPt lastPt))
    /\ (RLE.statsRuns value).2 = None.
Proof.
  intros Hok Hrun Hin.
  destruct (scan_block_inv blockData firstPt lastPt Hok) as (s & Hs & Hinv & Hcur).
  pose proof Hok as (Hmod & _ & _ & _ & _ & Hrow).
  unfold processChunk in Hrun. apply Nat.eqb_eq in Hmod. rewrite Hmod, Hs in Hrun.
  cbn [negb] in Hrun.
  rewrite (put_runs_all _ _ _ _ IndexZYXSize zyxBytes _ [] Hinv Hcur) in Hrun.
  2:{ intros b coords H. by apply elem_of_map_to_list in H. }
  injection Hrun as <-. cbn [app] in Hin.
  apply list_elem_of_fmap in Hin as ([b coords] & Heq & Hent).
  apply elem_of_map_to_list in Hent.
  unfold put_of in Heq. cbn [fst snd] in Heq. injection Heq as -> ->.
  exists b. split; [done|].
  assert (is_Some (runStarts s !! b)) as Hsome by (by rewrite Hent).
  split; [by apply (inv_seen _ _ _ _ _ Hinv)|].
  pose proof (inv_len _ _ _ _ _ Hinv b) as Hl. rewrite Hcur in Hl.
  cbn [Z.ltb Z.compare andb] in Hl. rewrite Nat.add_0_r in Hl.
  unfold starts_of in Hl. rewrite Hent in Hl. cbn [default from_option id] in Hl.
  symmetry in Hl.
  assert (Forall is_int32 (lens_of s b)) as Hint.
  { eapply Forall_impl; [apply (inv_bounds _ _ _ _ _ Hinv b)|].
    intros len Hb. cbn beta in Hb. unfold range32 in Hb. rewrite length_seqZ in Hb.
    unfold is_int32. lia. }
  rewrite (statsRuns_groups _ (length coords)) by (by apply concat_runs_length).
  rewrite run_lengths_encoded by done. cbn [fst snd]. split; [|done].
  pose proof (inv_sum _ _ _ _ _ Hinv b) as Hsum. rewrite Hcur in Hsum.
  f_equal. destruct (b =? curLabel s); lia.
Qed.

End DenormFacts.

Lemma processChunk_puts_every_label_witness :
  exists s,
    Denorm.scan_block LittleEndian.Uint64 Examples.block_556
      Examples.block_first Examples.block_last = Ok s
    /\ (is_Some (Denorm.runStarts s !! 6)
        <-> 0 < Denorm.voxels_with LittleEndian.Uint64 Examples.block_556 6
                  (Denorm.voxels Examples.block_first Examples.block_last)).
Proof.
  destruct (processChunk_puts_every_label LittleEndian.Uint64 12 Examples.zyx_block
              Examples.block_556 Examples.block_first Examples.block_last)
    as (s & Hs & _ & Hseen & _).
  - unfold Denorm.block_ok. split_and!; vm_compute; (reflexivity || lia).
  - exists s. split; [exact Hs|apply Hseen].
Defined.

Lemma scan_block_runs_count_voxels_witness :
  exists s,
    Denorm.scan_block LittleEndian.Uint64 Examples.block_556
      Examples.block_first Examples.block_last = Ok s
    /\ RLE.sumZ (Denorm.lens_of s 5)
       = Denorm.voxels_with LittleEndian.Uint64 Examples.block_556 5
           (Denorm.voxels Examples.block_first Examples.block_last).
Proof.
  destruct (scan_block_runs_count_voxels LittleEndian.Uint64
              Examples.block_556 Examples.block_first Examples.block_last)
    as (s & Hs & Hall).
  - unfold Denorm.block_ok. split_and!; vm_compute; (reflexivity || lia).
  - exists s. split; [exact Hs|apply Hall].
Defined.

Lemma processChunk_values_count_voxels_witness :
  exists b,
    Keys.NewLabelSpatialMapKey 12 5 Examples.zyx_block
    = Keys.NewLabelSpatialMapKey 12 b Examples.zyx_block
    /\ 0 < Denorm.voxels_with LittleEndian.Uint64 Examples.block_556 b
             (Denorm.voxels Examples.block_first Examples.block_last)
    /\ (RLE.statsRuns (RLE.run_bytes (RLE.point 0 0 0) 2)).1.1
       = int32 (Denorm.voxels_with LittleEndian.Uint64 Examples.block_556 b
                  (Denorm.voxels Examples.block_first Examples.block_last))
    /\ (RLE.statsRuns (RLE.run_bytes (RLE.point 0 0 0) 2)).2 = None.
Proof.
  assert (exists batch,
            Denorm.processChunk LittleEndian.Uint64 12 Examples.zyx_block
              Examples.block_556 Examples.block_first Examples.block_last true
            = Ok (Some batch)
            /\ (Keys.NewLabelSpatialMapKey 12 5 Examples.zyx_block,
                RLE.run_bytes (RLE.point 0 0 0) 2) ∈ batch) as (batch & Hrun & Hin).
  { eexists. split; [vm_compute; reflexivity|].
    vm_compute. apply elem_of_cons. by left. }
  apply (processChunk_values_count_voxels LittleEndian.Uint64 12 Examples.zyx_block
           Examples.block_556 Examples.block_first Examples.block_last batch _ _).
  - unfold Denorm.block_ok. split_and!; vm_compute; (reflexivity || lia).
  - exact Hrun.
  - exact Hin.
Defined.

(* ================================================================== *)
(** * Further properties of the tar responses *)
(* ================================================================== *)

Section TarResponseProperties.
Import Tar.

Variable TKey : Type.
Variable NewTKey : Z -> string -> TKey * option error.

Local Abbreviation fetch := (Tar.fetch TKey NewTKey).
Local Abbreviation delivers := (Tar.delivers TKey NewTKey).
Local Abbreviation entries_of :=
  (omap (fun fd : fileData => (fun h => (h, data fd)) <$> header fd)).

(** What a worker sends for a supervoxel whose key and read do not fail. *)
Lemma fetch_entry ext get canTS supervoxel :
  (NewTKey supervoxel ext).2 = None ->
  get (NewTKey supervoxel ext).1 <> Failure ->
  exists hdr bytes,
    fetch ext get canTS supervoxel = mkFileData (Some hdr) bytes None
    /\ Name hdr = file_name supervoxel ext /\ Mode hdr = 493
    /\ Size hdr = Z.of_nat (length bytes)
    /\ bytes = match get (NewTKey supervoxel ext).1 with
               | Value d _ => d
               | _ => []
               end.
Proof.
  unfold Tar.fetch. destruct (NewTKey supervoxel ext) as [tk [e|]]; cbn [fst snd]; [done|].
  intros _ Hget. destruct (get tk); [| |done]; eexists _, _; split_and!; reflexivity.
Qed.

Lemma fetch_failure ext get canTS supervoxel :
  (NewTKey supervoxel ext).2 <> None \/ get (NewTKey supervoxel ext).1 = Failure ->
  exists e, err (fetch ext get canTS supervoxel) = Some e.
Proof.
  unfold Tar.fetch. destruct (NewTKey supervoxel ext) as [tk [e|]]; cbn [fst snd].
  - intros _. by exists e.
  - intros [H|H]; [done|]. rewrite H. by eexists.
Qed.

(** The writer stops at the first result with an error and returns no
    error. *)
Lemma write_results_prefix (good : list fileData) fd rest e : forall tw n,
  Forall (fun fd => err fd = None) good -> err fd = Some e ->
  (length good < n)%nat ->
  write_results n (good ++ fd :: rest) tw = Some (tw ++ entries_of good, None).
Proof.
  induction good as [|g good IH]; intros tw n Hall Hfd Hn.
  - destruct n as [|n]; [lia|]. cbn. rewrite Hfd. by rewrite app_nil_r.
  - apply Forall_cons in Hall as [Hg Hall]. destruct n as [|n]; [cbn in Hn; lia|].
    cbn [length] in Hn. simpl. rewrite Hg. destruct (header g) as [hdr|]; simpl.
    + rewrite IH by (done || lia). by rewrite <- app_assoc.
    + by rewrite IH by (done || lia).
Qed.

Lemma entries_of_good ext get canTS (supervoxels : list Z) :
  Forall (fun sv => (NewTKey sv ext).2 = None /\ get (NewTKey sv ext).1 <> Failure)
    supervoxels ->
  Forall (fun fd => err fd = None) (map (fetch ext get canTS) supervoxels)
  /\ Forall2 (fun sv en =>
                Name en.1 = file_name sv ext /\ Mode en.1 = 493
                /\ Size en.1 = Z.of_nat (length en.2)
                /\ en.2 = match get (NewTKey sv ext).1 with
                          | Value d _ => d
                          | _ => []
                          end)
       supervoxels (entries_of (map (fetch ext get canTS) supervoxels)).
Proof.
  induction 1 as [|sv svs [Hk Hg] _ [IH1 IH2]]; [by split; constructor|].
  destruct (fetch_entry ext get canTS sv Hk Hg) as (hdr & bytes & Hf & Hn & Hm & Hs & Hb).
  cbn [map]. rewrite Hf. split.
  - by constructor.
  - simpl. constructor; [|exact IH2]. by cbn [fst snd].
Qed.

(** X25: the tar has one entry per supervoxel, in the order of the set.
    When no key and no read fails for the supervoxels of a label, then for
    every order in which the channel can deliver, [sendTarfile] returns no
    error and writes one entry per supervoxel, in the order in which the set
    was ranged over: named "<supervoxel>.<extension>", with mode 0755, the
    size of its data, and as data the blob of the store, or nothing when
    the store has no blob for the supervoxel. *)
Theorem sendTarfile_entries_in_order (e : env TKey) get GetSupervoxels v
    (label : Z) (supervoxels : list Z) (outCh : list fileData) :
  db TKey e = Some get -> synced TKey e = Some GetSupervoxels ->
  version TKey e = Some v ->
  GetSupervoxels label = Some supervoxels -> supervoxels <> [] ->
  Forall (fun sv => (NewTKey sv (Extension TKey e)).2 = None
                    /\ get (NewTKey sv (Extension TKey e)).1 <> Failure) supervoxels ->
  delivers e get supervoxels outCh ->
  exists tar,
    sendTarfile TKey e label outCh = Some (tar, None)
    /\ Forall2 (fun sv en =>
                  Name en.1 = file_name sv (Extension TKey e) /\ Mode en.1 = 493
                  /\ Size en.1 = Z.of_nat (length en.2)
                  /\ en.2 = match get (NewTKey sv (Extension TKey e)).1 with
                            | Value d _ => d
                            | _ => []
                            end)
         supervoxels tar.
Proof.
  intros Hdb Hsync Hv Hsvs Hne Hall Hout.
  apply delivers_unique in Hout; [|done]. subst outCh.
  unfold sendTarfile. rewrite Hdb, Hsync, Hv, Hsvs.
  replace (length supervoxels =? 0)%nat with false
    by (symmetry; apply Nat.eqb_neq; by destruct supervoxels).
  unfold getSupervoxelGoroutine.
  destruct (entries_of_good (Extension TKey e) get (canGetTimestamp TKey e) supervoxels Hall)
    as [Hgood Hent].
  rewrite <- (length_map (fetch (Extension TKey e) get (canGetTimestamp TKey e))).
  rewrite write_results_all by done.
  eexists. split; [reflexivity|]. exact Hent.
Qed.

(** X26: a failed read ends the tar early and is not reported. When the
    key or the read of a supervoxel fails and those of the supervoxels
    before it do not, [sendTarfile] writes the entries of the supervoxels
    before it, nothing for it or for any supervoxel after it, and returns
    no error. *)
Theorem sendTarfile_failure_truncates (e : env TKey) get GetSupervoxels v
    (label : Z) (pre post : list Z) (sv : Z) (outCh : list fileData) :
  db TKey e = Some get -> synced TKey e = Some GetSupervoxels ->
  version TKey e = Some v ->
  GetSupervoxels label = Some (pre ++ sv :: post) ->
  Forall (fun sv => (NewTKey sv (Extension TKey e)).2 = None
                    /\ get (NewTKey sv (Extension TKey e)).1 <> Failure) pre ->
  (NewTKey sv (Extension TKey e)).2 <> None
  \/ get (NewTKey sv (Extension TKey e)).1 = Failure ->
  delivers e get (pre ++ sv :: post) outCh ->
  exists tar,
    sendTarfile TKey e label outCh = Some (tar, None)
    /\ map (fun en => Name en.1) tar
       = map (fun sv => file_name sv (Extension TKey e)) pre.
Proof.
  intros Hdb Hsync Hv Hsvs Hall Hbad Hout.
  assert (pre ++ sv :: post <> []) as Hne by (by destruct pre).
  apply delivers_unique in Hout; [|done]. subst outCh.
  unfold sendTarfile. rewrite Hdb, Hsync, Hv, Hsvs.
  replace (length (pre ++ sv :: post) =? 0)%nat with false
    by (symmetry; apply Nat.eqb_neq; by destruct pre).
  unfold getSupervoxelGoroutine. rewrite map_app. cbn [map].
  destruct (fetch_failure (Extension TKey e) get (canGetTimestamp TKey e) sv Hbad)
    as [e' He'].
  destruct (entries_of_good (Extension TKey e) get (canGetTimestamp TKey e) pre Hall)
    as [Hgood Hent].
  rewrite (write_results_prefix _ _ _ e') by
    (done || rewrite length_map, length_app; cbn; lia).
  eexists. split; [reflexivity|]. cbn [app].
  clear -Hent. induction Hent as [|s en svs ens (Hn & _) _ IH]; [done|].
  cbn [map]. by rewrite Hn, IH.
Qed.

(** X27: the channel has one sender that sends. For every non-empty list
    of supervoxels, handler 0 is assigned all of them, in order, the other
    handlers none, and the channel can deliver the results in one order
    only: the order of the list. *)
Theorem partition_gives_all_to_handler_0 (e : env TKey) get
    (supervoxels : list Z) (outCh : list fileData) :
  supervoxels <> [] ->
  partition supervoxels !! 0%nat = Some supervoxels
  /\ (forall i, (0 < i)%nat -> partition supervoxels !! i = None)
  /\ (delivers e get supervoxels outCh
      <-> outCh = map (fetch (Extension TKey e) get (canGetTimestamp TKey e)) supervoxels).
Proof.
  intros Hne. rewrite (partition_all_to_first _ Hne). split_and!.
  - apply lookup_singleton_eq.
  - intros i Hi. apply lookup_singleton_ne. lia.
  - by apply delivers_unique.
Qed.

End TarResponseProperties.

Lemma sendTarfile_entries_in_order_witness :
  exists tar,
    Tar.sendTarfile string Examples.tar_env 9
      (Tar.getSupervoxelGoroutine string Examples.name_key "dat" Examples.blobs true [5; 6])
    = Some (tar, None)
    /\ Forall2 (fun sv en =>
                  Tar.Name en.1 = Tar.file_name sv "dat" /\ Tar.Mode en.1 = 493
                  /\ Tar.Size en.1 = Z.of_nat (length en.2)
                  /\ en.2 = match Examples.blobs (Examples.name_key sv "dat").1 with
                            | Tar.Value d _ => d
                            | _ => []
                            end)
         [5; 6] tar.
Proof.
  apply (sendTarfile_entries_in_order string Examples.name_key Examples.tar_env
           Examples.blobs (fun label => if label =? 9 then Some [5; 6] else Some []) 0 9
           [5; 6]).
  - reflexivity.
  - reflexivity.
  - reflexivity.
  - reflexivity.
  - discriminate.
  - repeat constructor; vm_compute; discriminate.
  - apply delivers_unique; [discriminate|reflexivity].
Defined.

Lemma sendTarfile_failure_truncates_witness :
  exists tar,
    Tar.sendTarfile string Examples.tar_env_failing 9
      (Tar.getSupervoxelGoroutine string Examples.name_key "dat" Examples.blobs_failing
         true [5; 6; 7])
    = Some (tar, None)
    /\ map (fun en => Tar.Name en.1) tar = map (fun sv => Tar.file_name sv "dat") [5].
Proof.
  apply (sendTarfile_failure_truncates string Examples.name_key Examples.tar_env_failing
           Examples.blobs_failing
           (fun label => if label =? 9 then Some [5; 6; 7] else Some []) 0 9 [5] [7] 6).
  - reflexivity.
  - reflexivity.
  - reflexivity.
  - reflexivity.
  - repeat constructor; vm_compute; discriminate.
  - right. reflexivity.
  - apply delivers_unique; [discriminate|reflexivity].
Defined.

Lemma partition_gives_all_to_handler_0_witness :
  Tar.partition [5; 6; 7] !! 0%nat = Some [5; 6; 7].
Proof.
  apply (partition_gives_all_to_handler_0 string Examples.name_key Examples.tar_env
           Examples.blobs [5; 6; 7] []).
  discriminate.
Defined.

(* ================================================================== *)
(** * Further properties of the queries on the supervoxel map *)
(* ================================================================== *)

Section QueryFacts.
Import SVMap SVMapQueries.

Variable GetAncestry : Z -> option (list Z).

Implicit Types (svm : t) (v label : Z).

Lemma omap_nil_iff {A B} (f : A -> option B) (l : list A) :
  omap f l = [] <-> forall x, x ∈ l -> f x = None.
Proof.
  induction l as [|a l IH]; cbn.
  - split; [|done]. intros _ x Hx. by apply not_elem_of_nil in Hx.
  - destruct (f a) as [b|] eqn:E; cbn.
    + split; [done|]. intros H. specialize (H a (list_elem_of_here _ _)). congruence.
    + rewrite IH. split.
      * intros H x [->|Hx]%elem_of_cons; [done|by apply H].
      * intros H x Hx. apply H. by right.
Qed.

(** X28: [exists(v)] says whether the map has a mapping and [v] or one of
    its ancestors has a short id. With the ancestry of [v] not yet cached
    and [GetAncestry(v)] returning [v] followed by its ancestors, [exists]
    returns true exactly when the map holds a supervoxel and [v] or one of
    the ancestors has a short id; it does not look at whether any vmap has
    a record for these ids. *)
Theorem exists_iff_some_version_in_ancestry svm v a rest :
  ancestry svm !! v = None -> GetAncestry v = Some (a :: rest) ->
  exists svm' b,
    exists_ GetAncestry svm v = Ok (svm', b)
    /\ fm svm' = fm svm
    /\ (b = true <->
        fm svm <> ∅
        /\ (is_Some (versions svm !! v)
            \/ exists a', a' ∈ rest /\ is_Some (versions svm !! a'))).
Proof.
  intros Hc Hg. unfold exists_.
  destruct (size (fm svm) =? 0)%nat eqn:Hsz.
  { apply Nat.eqb_eq, map_size_empty_iff in Hsz. exists svm, false.
    split_and!; try done. split; [done|]. by intros [? _]. }
  apply Nat.eqb_neq in Hsz. rewrite map_size_empty_iff in Hsz.
  unfold getAncestry. rewrite Hc, Hg. unfold withCurrent. cbn [versions set_ancestry].
  set (anc := omap (fun ancestor => versions svm !! ancestor) rest).
  assert (anc = [] <-> ~ exists a', a' ∈ rest /\ is_Some (versions svm !! a')) as Hanc.
  { unfold anc. rewrite omap_nil_iff. split.
    - intros H (a' & Ha & [id Hid]). rewrite (H a' Ha) in Hid. done.
    - intros H x Hx. destruct (versions svm !! x) eqn:E; [|done].
      destruct H. exists x. by rewrite E. }
  destruct (versions svm !! v) as [vid|] eqn:Ev.
  - cbn [length Nat.eqb]. eexists _, true. split_and!; try done.
    split; [|done]. intros _. split; [done|]. left. by eexists.
  - destruct anc as [|id anc'] eqn:Eanc; cbn [length Nat.eqb].
    + eexists _, false. split_and!; try done. split; [done|].
      intros [_ [[? ?]|H]]; [done|]. destruct (proj1 Hanc eq_refl H).
    + eexists _, true. split_and!; try done. split; [|done]. intros _. split; [done|].
      right. assert (id ∈ anc) as Hid by (rewrite Eanc; apply elem_of_cons; by left).
      unfold anc in Hid. apply list_elem_of_omap in Hid as (a' & Ha' & Hv').
      exists a'. split; [done|by eexists].
Qed.

(** X29: [mapLabel] with the ancestry that [getAncestry] returns gives what
    [MappedLabel] gives. Whenever [getAncestry(v)] returns an ancestry,
    [MappedLabel(v, label)] returns the label and the flag that
    [mapLabel(label, ancestry)] returns, in every state of the map. *)
Theorem mapLabel_agrees_with_MappedLabel svm v label svm1 anc :
  getAncestry GetAncestry svm v = Ok (svm1, Some anc) ->
  exists svm2,
    MappedLabel GetAncestry (Some svm) v label
    = (lp ← mapLabel svm label anc; Ok (Some svm2, lp))
    /\ fm svm2 = fm svm.
Proof.
  intros Hga. unfold MappedLabel, mapLabel.
  assert (fm svm1 = fm svm) as Hfm.
  { unfold getAncestry in Hga. destruct (ancestry svm !! v); [by injection Hga as <- _|].
    destruct (GetAncestry v) as [[|? ?]|]; try done. by injection Hga as <- _. }
  destruct (fm svm !! label) as [vm|] eqn:Hvm.
  - assert ((size (fm svm) =? 0)%nat = false) as ->.
    { apply Nat.eqb_neq. intros H0. apply map_size_empty_iff in H0.
      rewrite H0 in Hvm. by rewrite lookup_empty in Hvm. }
    rewrite Hga. cbn [mbind result_bind]. by exists svm1.
  - exists svm. cbn [mbind result_bind]. by destruct (size (fm svm) =? 0)%nat.
Qed.

End QueryFacts.

Lemma exists_iff_some_version_in_ancestry_witness :
  exists svm' b,
    SVMapQueries.exists_ Examples.chain
      (SVMap.set_fm (SVMap.createShortVersion SVMap.empty 0).1.1
         (<[7 := Vmap.pack (Vmap.upsert 0 10 [])]> ∅)) 2 = Ok (svm', b)
    /\ b = true.
Proof.
  destruct (exists_iff_some_version_in_ancestry Examples.chain
              (SVMap.set_fm (SVMap.createShortVersion SVMap.empty 0).1.1
                 (<[7 := Vmap.pack (Vmap.upsert 0 10 [])]> ∅)) 2 2 [1; 0])
    as (svm' & b & Hrun & _ & Hb); [reflexivity|reflexivity|].
  exists svm', b. split; [exact Hrun|]. apply Hb. split.
  - intros H. apply (f_equal (fun m => m !! 7)) in H. cbn in H.
    rewrite lookup_insert_eq, lookup_empty in H. discriminate H.
  - right. exists 0. split; [|by eexists].
    apply elem_of_cons. right. apply elem_of_cons. by left.
Defined.

Lemma mapLabel_agrees_with_MappedLabel_witness :
  exists svm2,
    SVMap.MappedLabel Examples.chain
      (Some (SVMap.set_fm (SVMap.createShortVersion SVMap.empty 0).1.1
               (<[7 := Vmap.pack (Vmap.upsert 0 10 [])]> ∅))) 2 7
    = (lp ← SVMap.mapLabel
              (SVMap.set_fm (SVMap.createShortVersion SVMap.empty 0).1.1
                 (<[7 := Vmap.pack (Vmap.upsert 0 10 [])]> ∅)) 7 [0];
       Ok (Some svm2, lp))
    /\ SVMap.fm svm2
       = SVMap.fm (SVMap.set_fm (SVMap.createShortVersion SVMap.empty 0).1.1
                     (<[7 := Vmap.pack (Vmap.upsert 0 10 [])]> ∅)).
Proof.
  eapply (mapLabel_agrees_with_MappedLabel Examples.chain _ 2 7 _ [0]).
  reflexivity.
Defined.
